(** * Xenia-XT: robust file I/O and GDFX disc-image loader

    A shallow embedding of
      - [src/xenia/base/robust_file_io.{h,cc}]: CRC-32, the interference
        detector, the retry loop and the chunked reader;
      - [src/xenia/vfs/devices/disc_image_device.cc]: [Verify],
        [VerifyMagic], [ReadAllEntries] and [ReadEntry];
    together with the properties the specification states about them.

    Conventions.  C++ unsigned and [size_t] values are [Z]; a fixed-width
    operation whose result can leave its width has the truncation written
    out.  Bytes are [Byte.byte].  A function that loops or recurses is a
    [Fixpoint] on a fuel argument and returns [None] when the fuel runs
    out; totality is proved separately. *)

From Stdlib Require Import ZArith List Lia Bool String Floats Uint63.
From Stdlib.Strings Require Import Byte.
From stdpp Require Import gmap.
Import ListNotations.
Local Open Scope Z_scope.

(** The numeric value of a byte ([uint8_t] read as an unsigned integer). *)
Definition byte_val (b : byte) : Z := Z.of_N (Byte.to_N b).

Lemma byte_val_range (b : byte) : 0 <= byte_val b < 256.
Proof.
  unfold byte_val. pose proof (Byte.to_N_bounded b) as Hb. lia.
Qed.

(* ================================================================== *)
(** * CRC-32 ([robust_file_io.cc], anonymous namespace)                 *)
(* ================================================================== *)

Module Crc32.

(** One turn of the inner loop of [InitializeCRC32Table]:
    [crc = (crc >> 1) ^ ((crc & 1) ? 0xEDB88320 : 0)]. *)
Definition table_step (crc : Z) : Z :=
  Z.lxor (Z.shiftr crc 1) (if Z.land crc 1 =? 0 then 0 else 0xEDB88320).

(** [for (int j = 0; j < 8; j++) crc = table_step crc]. *)
Fixpoint table_steps (j : nat) (crc : Z) : Z :=
  match j with
  | O => crc
  | S j' => table_steps j' (table_step crc)
  end.

(** [crc32_table[i]] for [i = 0 .. 255], as [InitializeCRC32Table] fills
    it.  The table is written once (guarded by
    [crc32_table_initialized]) and never changes afterwards, so it is a
    constant here. *)
Definition crc32_table : list Z :=
  map (fun i => table_steps 8 (Z.of_nat i)) (seq 0 256).

Definition table_at (i : Z) : Z := nth (Z.to_nat i) crc32_table 0.

(** The loop body of [CalculateCRC32]:
    [crc = (crc >> 8) ^ crc32_table[(crc ^ data[i]) & 0xFF]]. *)
Definition update (crc : Z) (b : byte) : Z :=
  Z.lxor (Z.shiftr crc 8) (table_at (Z.land (Z.lxor crc (byte_val b)) 0xFF)).

(** [~crc] on a [uint32_t]. *)
Definition not32 (crc : Z) : Z := Z.land (Z.lnot crc) 0xFFFFFFFF.

(** [uint32_t CalculateCRC32(const uint8_t* data, size_t length)]. *)
Definition CalculateCRC32 (data : list byte) : Z :=
  not32 (fold_left update data 0xFFFFFFFF).

(** ** Reference definition, from the specification's words

    "Standard reflected CRC-32/ISO-HDLC ... polynomial 0xEDB88320;
    initial register 0xFFFFFFFF ... complement final result": the
    bit-at-a-time algorithm, with no table.  Each byte is XORed into the
    low byte of the register, then the register is shifted right eight
    times, the polynomial being XORed in whenever a one is shifted out. *)
Definition reflected_poly : Z := 0xEDB88320.

Definition shift_bit (reg : Z) : Z :=
  if Z.testbit reg 0
  then Z.lxor (Z.shiftr reg 1) reflected_poly
  else Z.shiftr reg 1.

Definition shift_byte (reg : Z) (b : byte) : Z :=
  Nat.iter 8 shift_bit (Z.lxor reg (byte_val b)).

Definition crc32_iso_hdlc (data : list byte) : Z :=
  Z.lxor (fold_left shift_byte data 0xFFFFFFFF) 0xFFFFFFFF.

(** The check string of the CRC catalogue. *)
Definition check_input : list byte := list_byte_of_string "123456789".

(** ** Properties *)

Lemma table_step_shift_bit (crc : Z) : table_step crc = shift_bit crc.
Proof.
  unfold table_step, shift_bit, reflected_poly.
  rewrite Z.bit0_odd.
  change 1 with (Z.ones 1). rewrite Z.land_ones by lia.
  change (2 ^ 1) with 2. rewrite Zodd_mod.
  destruct (Z.eqb_spec (crc mod 2) 0) as [E | E].
  - rewrite E. simpl. apply Z.lxor_0_r.
  - assert (crc mod 2 = 1) as -> by (pose proof (Z.mod_pos_bound crc 2); lia).
    reflexivity.
Qed.

Lemma table_steps_iter (j : nat) (crc : Z) :
  table_steps j crc = Nat.iter j shift_bit crc.
Proof.
  revert crc. induction j as [| j IH]; intros crc; [reflexivity |].
  cbn [table_steps]. now rewrite IH, table_step_shift_bit, Nat.iter_succ_r.
Qed.

Lemma nth_map_seq {A} (f : nat -> A) (n i : nat) (d : A) :
  (i < n)%nat -> nth i (map f (seq 0 n)) d = f i.
Proof.
  intros Hi. rewrite (nth_indep _ d (f 0%nat)).
  - rewrite map_nth, seq_nth by lia. reflexivity.
  - rewrite length_map, length_seq. lia.
Qed.

Lemma table_at_steps (i : Z) :
  0 <= i < 256 -> table_at i = table_steps 8 i.
Proof.
  intros Hi. unfold table_at, crc32_table.
  rewrite nth_map_seq by lia. f_equal. lia.
Qed.

(** [shift_bit] is linear over GF(2): it commutes with XOR. *)
Lemma shift_bit_lxor (a b : Z) :
  shift_bit (Z.lxor a b) = Z.lxor (shift_bit a) (shift_bit b).
Proof.
  unfold shift_bit. rewrite Z.lxor_spec, Z.shiftr_lxor.
  destruct (Z.testbit a 0), (Z.testbit b 0); cbn [xorb];
    apply Z.bits_inj'; intros n _; rewrite ?Z.lxor_spec;
    destruct (Z.testbit (Z.shiftr a 1) n), (Z.testbit (Z.shiftr b 1) n),
      (Z.testbit reflected_poly n); reflexivity.
Qed.

Lemma iter_shift_bit_lxor (k : nat) (a b : Z) :
  Nat.iter k shift_bit (Z.lxor a b) =
  Z.lxor (Nat.iter k shift_bit a) (Nat.iter k shift_bit b).
Proof.
  induction k as [| k IH]; [reflexivity |].
  rewrite !Nat.iter_succ. now rewrite IH, shift_bit_lxor.
Qed.

(** A register whose low [k] bits are clear is only shifted. *)
Lemma iter_shift_bit_shiftl (k : nat) (y : Z) :
  Nat.iter k shift_bit (Z.shiftl y (Z.of_nat k)) = y.
Proof.
  induction k as [| k IH]; [apply Z.shiftl_0_r |].
  rewrite Nat.iter_succ_r. unfold shift_bit at 2.
  rewrite Z.shiftl_spec_low by lia.
  rewrite Z.shiftr_shiftl_l by lia.
  replace (Z.of_nat (S k) - 1) with (Z.of_nat k) by lia.
  exact IH.
Qed.

Lemma split_low_byte (x : Z) :
  x = Z.lxor (Z.land x 0xFF) (Z.shiftl (Z.shiftr x 8) 8).
Proof.
  apply Z.bits_inj'; intros n Hn.
  rewrite Z.lxor_spec, Z.land_spec.
  change 0xFF with (Z.ones 8). rewrite Z.testbit_ones_nonneg by lia.
  destruct (Z.ltb_spec n 8) as [Hlt | Hge].
  - rewrite Z.shiftl_spec_low by lia.
    now rewrite andb_true_r, xorb_false_r.
  - rewrite Z.shiftl_spec, Z.shiftr_spec by lia.
    replace (n - 8 + 8) with n by lia.
    now rewrite andb_false_r.
Qed.

Lemma land_byte_range (x : Z) : 0 <= Z.land x 0xFF < 256.
Proof.
  change 0xFF with (Z.ones 8). rewrite Z.land_ones by lia.
  apply Z.mod_pos_bound. lia.
Qed.

(** The table look-up does the work of eight single-bit shifts. *)
Lemma update_shift_byte (crc : Z) (b : byte) :
  update crc b = shift_byte crc b.
Proof.
  unfold update, shift_byte.
  set (x := Z.lxor crc (byte_val b)).
  assert (Z.shiftr crc 8 = Z.shiftr x 8) as ->.
  { unfold x. rewrite Z.shiftr_lxor.
    assert (Z.shiftr (byte_val b) 8 = 0) as ->.
    { rewrite Z.shiftr_div_pow2 by lia. apply Z.div_small.
      pose proof (byte_val_range b). lia. }
    now rewrite Z.lxor_0_r. }
  rewrite (split_low_byte x) at 3.
  rewrite iter_shift_bit_lxor.
  rewrite (iter_shift_bit_shiftl 8).
  rewrite table_at_steps by apply land_byte_range.
  rewrite table_steps_iter. apply Z.lxor_comm.
Qed.

(** Values that fit a [uint32_t]. *)
Definition is_u32 (x : Z) : Prop := 0 <= x < 2 ^ 32.

Lemma is_u32_land (x : Z) : is_u32 x <-> Z.land x 0xFFFFFFFF = x.
Proof.
  unfold is_u32. change 0xFFFFFFFF with (Z.ones 32).
  rewrite Z.land_ones by lia. split; intros H.
  - apply Z.mod_small. exact H.
  - rewrite <- H. apply Z.mod_pos_bound. lia.
Qed.

Lemma is_u32_lxor (a b : Z) : is_u32 a -> is_u32 b -> is_u32 (Z.lxor a b).
Proof.
  rewrite !is_u32_land. intros Ha Hb.
  rewrite <- Ha, <- Hb at 2.
  apply Z.bits_inj'; intros n _.
  rewrite ?Z.land_spec, ?Z.lxor_spec, ?Z.land_spec.
  destruct (Z.testbit a n), (Z.testbit b n), (Z.testbit 0xFFFFFFFF n);
    reflexivity.
Qed.

Lemma is_u32_shiftr (a k : Z) : 0 <= k -> is_u32 a -> is_u32 (Z.shiftr a k).
Proof.
  unfold is_u32. intros Hk [Ha0 Ha]. rewrite Z.shiftr_div_pow2 by lia.
  assert (0 < 2 ^ k) by (apply Z.pow_pos_nonneg; lia).
  split; [apply Z.div_pos; lia |].
  apply Z.le_lt_trans with a; [| exact Ha].
  apply Z.div_le_upper_bound; nia.
Qed.

Lemma is_u32_shift_bit (r : Z) : is_u32 r -> is_u32 (shift_bit r).
Proof.
  intros Hr. unfold shift_bit.
  destruct (Z.testbit r 0).
  - apply is_u32_lxor; [now apply is_u32_shiftr |].
    unfold is_u32, reflected_poly. lia.
  - now apply is_u32_shiftr.
Qed.

Lemma is_u32_shift_byte (r : Z) (b : byte) : is_u32 r -> is_u32 (shift_byte r b).
Proof.
  intros Hr. unfold shift_byte.
  assert (is_u32 (Z.lxor r (byte_val b))) as Hx.
  { apply is_u32_lxor; [exact Hr |].
    pose proof (byte_val_range b). unfold is_u32. lia. }
  generalize 8%nat as k. induction k as [| k IH]; [exact Hx |].
  rewrite Nat.iter_succ. now apply is_u32_shift_bit.
Qed.

Lemma fold_update_shift_byte (data : list byte) (r : Z) :
  fold_left update data r = fold_left shift_byte data r.
Proof.
  revert r. induction data as [| b data IH]; intros r; [reflexivity |].
  cbn [fold_left]. now rewrite update_shift_byte, IH.
Qed.

Lemma is_u32_fold_shift_byte (data : list byte) (r : Z) :
  is_u32 r -> is_u32 (fold_left shift_byte data r).
Proof.
  revert r. induction data as [| b data IH]; intros r Hr; [exact Hr |].
  cbn [fold_left]. apply IH. now apply is_u32_shift_byte.
Qed.

Lemma not32_lxor (r : Z) : is_u32 r -> not32 r = Z.lxor r 0xFFFFFFFF.
Proof.
  intros Hr. apply is_u32_land in Hr. unfold not32.
  apply Z.bits_inj'; intros n Hn.
  rewrite Z.land_spec, Z.lxor_spec, Z.lnot_spec by lia.
  rewrite <- Hr at 2. rewrite Z.land_spec.
  destruct (Z.testbit r n), (Z.testbit 0xFFFFFFFF n); reflexivity.
Qed.

(** The table-driven code computes the bit-at-a-time reference on every
    input. *)
Lemma CalculateCRC32_reference (data : list byte) :
  CalculateCRC32 data = crc32_iso_hdlc data.
Proof.
  unfold CalculateCRC32, crc32_iso_hdlc.
  rewrite fold_update_shift_byte.
  apply not32_lxor, is_u32_fold_shift_byte.
  unfold is_u32. lia.
Qed.

Lemma CalculateCRC32_u32 (data : list byte) : is_u32 (CalculateCRC32 data).
Proof.
  rewrite CalculateCRC32_reference. unfold crc32_iso_hdlc.
  apply is_u32_lxor; [| unfold is_u32; lia].
  apply is_u32_fold_shift_byte. unfold is_u32. lia.
Qed.

(** C9. [CalculateCRC32] is the reflected CRC-32/ISO-HDLC: its table is
    the one generated from polynomial 0xEDB88320 (entry [i] is [i]
    shifted eight times), the register starts at 0xFFFFFFFF and the
    result is complemented, so that on every input it agrees with the
    bit-at-a-time reference; it returns 0 on the empty input and
    0xCBF43926 on the nine bytes "123456789". *)
Theorem crc32_is_iso_hdlc :
  (forall i, 0 <= i < 256 ->
     table_at i = Nat.iter 8 shift_bit i) /\
  (forall data, CalculateCRC32 data = crc32_iso_hdlc data) /\
  CalculateCRC32 [] = 0 /\
  CalculateCRC32 check_input = 0xCBF43926.
Proof.
  split; [| split; [| split]].
  - intros i Hi. now rewrite table_at_steps, table_steps_iter.
  - exact CalculateCRC32_reference.
  - vm_compute. reflexivity.
  - vm_compute. reflexivity.
Qed.

(** ** Error detection

    What the checksum is for: two inputs that differ only within four
    consecutive bytes never have the same CRC. *)

(** The bytes [bs] as one integer, the first byte lowest. *)
Fixpoint le_word (bs : list byte) : Z :=
  match bs with
  | [] => 0
  | b :: rest => Z.lxor (byte_val b) (Z.shiftl (le_word rest) 8)
  end.

Lemma byte_val_inj (a b : byte) : byte_val a = byte_val b -> a = b.
Proof.
  unfold byte_val. intros Heq. apply N2Z.inj in Heq.
  pose proof (Byte.of_to_N a) as Ha. pose proof (Byte.of_to_N b) as Hb.
  rewrite Heq in Ha. congruence.
Qed.

Lemma lxor_cancel_l (a b c : Z) : Z.lxor a b = Z.lxor a c -> b = c.
Proof.
  intros Heq. apply Z.lxor_eq.
  assert (Z.lxor (Z.lxor a b) (Z.lxor a c) = 0) as H0
    by (rewrite Heq; apply Z.lxor_nilpotent).
  rewrite <- H0. apply Z.bits_inj'; intros n _. rewrite !Z.lxor_spec.
  destruct (Z.testbit a n), (Z.testbit b n), (Z.testbit c n); reflexivity.
Qed.

Lemma le_word_nonneg (bs : list byte) : 0 <= le_word bs.
Proof.
  induction bs as [| b rest IH]; cbn [le_word]; [lia |].
  apply Z.lxor_nonneg. pose proof (byte_val_range b).
  rewrite Z.shiftl_nonneg. lia.
Qed.

(** The low byte and the rest of [le_word (b :: rest)]. *)
Lemma le_word_cons_split (b : byte) (rest : list byte) :
  Z.land (le_word (b :: rest)) 0xFF = byte_val b /\
  Z.shiftr (le_word (b :: rest)) 8 = le_word rest.
Proof.
  cbn [le_word]. pose proof (byte_val_range b) as Hb. split.
  - apply Z.bits_inj'; intros n Hn.
    rewrite Z.land_spec, Z.lxor_spec.
    change 0xFF with (Z.ones 8). rewrite Z.testbit_ones_nonneg by lia.
    destruct (Z.ltb_spec n 8) as [Hlt | Hge].
    + rewrite Z.shiftl_spec_low by lia.
      now rewrite xorb_false_r, andb_true_r.
    + rewrite andb_false_r. symmetry.
      apply Z.bits_above_log2; [lia |].
      destruct (Z.eq_dec (byte_val b) 0) as [-> | Hnz]; [cbn; lia |].
      apply Z.log2_lt_pow2; [lia |].
      apply Z.lt_le_trans with (2 ^ 8); [lia |].
      apply Z.pow_le_mono_r; lia.
  - rewrite Z.shiftr_lxor, Z.shiftr_shiftl_l by lia.
    rewrite Z.shiftr_div_pow2 by lia.
    rewrite Z.div_small by (change (2 ^ 8) with 256; lia).
    now rewrite Z.lxor_0_l, Z.shiftl_0_r.
Qed.

Lemma le_word_inj (bs bs' : list byte) :
  List.length bs = List.length bs' -> le_word bs = le_word bs' -> bs = bs'.
Proof.
  revert bs'. induction bs as [| b rest IH]; intros [| b' rest'] Hlen Heq;
    try discriminate; [reflexivity |].
  destruct (le_word_cons_split b rest) as [Hlo Hhi].
  destruct (le_word_cons_split b' rest') as [Hlo' Hhi'].
  rewrite Heq in Hlo, Hhi.
  f_equal.
  - apply byte_val_inj. congruence.
  - apply IH; [now injection Hlen | congruence].
Qed.

Lemma le_word_bound (bs : list byte) :
  le_word bs < 2 ^ (8 * Z.of_nat (List.length bs)).
Proof.
  induction bs as [| b rest IH]; [cbn; lia |].
  pose proof (le_word_nonneg (b :: rest)) as Hnn.
  destruct (le_word_cons_split b rest) as [_ Hhi].
  rewrite Z.shiftr_div_pow2 in Hhi by lia.
  replace (8 * Z.of_nat (List.length (b :: rest)))
    with (8 + 8 * Z.of_nat (List.length rest)) by (cbn [List.length]; lia).
  rewrite Z.pow_add_r by lia.
  pose proof (le_word_nonneg rest).
  change (2 ^ 8) with 256 in *.
  pose proof (Z.div_mod (le_word (b :: rest)) 256 ltac:(lia)) as Hdm.
  pose proof (Z.mod_pos_bound (le_word (b :: rest)) 256 ltac:(lia)) as Hmod.
  nia.
Qed.

(** Processing the bytes [bs] is XORing them into the register as one
    word and shifting [8 * length bs] times. *)
Lemma fold_shift_byte_word (bs : list byte) (r : Z) :
  fold_left shift_byte bs r =
  Nat.iter (8 * List.length bs) shift_bit (Z.lxor r (le_word bs)).
Proof.
  revert r. induction bs as [| b rest IH]; intros r.
  - cbn. now rewrite Z.lxor_0_r.
  - cbn [fold_left List.length le_word]. rewrite IH. unfold shift_byte.
    rewrite <- (iter_shift_bit_shiftl 8 (le_word rest)) at 1.
    rewrite <- iter_shift_bit_lxor.
    replace (8 * S (List.length rest))%nat
      with (8 * List.length rest + 8)%nat by lia.
    rewrite Nat.iter_add. do 2 f_equal.
    now rewrite Z.lxor_assoc.
Qed.

(** On 32-bit registers a shift loses nothing: the bit shifted out is
    the top bit of the result. *)
Lemma shift_bit_zero (x : Z) : is_u32 x -> shift_bit x = 0 -> x = 0.
Proof.
  unfold is_u32, shift_bit, reflected_poly. intros Hx.
  rewrite Z.bit0_odd, Z.shiftr_div_pow2 by lia. change (2 ^ 1) with 2.
  assert (x / 2 < 2 ^ 31) as Hhalf by (apply Z.div_lt_upper_bound; lia).
  destruct (Z.odd x) eqn:Hodd.
  - intros H0. apply Z.lxor_eq in H0. lia.
  - intros H0.
    pose proof (Z.div_mod x 2 ltac:(lia)) as Hdm.
    pose proof (Z.mod_pos_bound x 2 ltac:(lia)) as Hmod.
    assert (x = 0 \/ x = 1) as [-> | ->] by lia; [reflexivity | discriminate].
Qed.

Lemma shift_bit_inj (a b : Z) :
  is_u32 a -> is_u32 b -> shift_bit a = shift_bit b -> a = b.
Proof.
  intros Ha Hb Heq. apply Z.lxor_eq.
  apply shift_bit_zero; [now apply is_u32_lxor |].
  rewrite shift_bit_lxor, Heq. apply Z.lxor_nilpotent.
Qed.

Lemma is_u32_iter_shift_bit (k : nat) (r : Z) :
  is_u32 r -> is_u32 (Nat.iter k shift_bit r).
Proof.
  intros Hr. induction k as [| k IH]; [exact Hr |].
  rewrite Nat.iter_succ. now apply is_u32_shift_bit.
Qed.

Lemma iter_shift_bit_inj (k : nat) (a b : Z) :
  is_u32 a -> is_u32 b ->
  Nat.iter k shift_bit a = Nat.iter k shift_bit b -> a = b.
Proof.
  intros Ha Hb. induction k as [| k IH]; [trivial |].
  rewrite !Nat.iter_succ. intros Heq. apply IH.
  apply shift_bit_inj; [now apply is_u32_iter_shift_bit .. | exact Heq].
Qed.

Lemma fold_shift_byte_inj (bs : list byte) (r r' : Z) :
  is_u32 r -> is_u32 r' ->
  fold_left shift_byte bs r = fold_left shift_byte bs r' -> r = r'.
Proof.
  revert r r'. induction bs as [| b rest IH]; intros r r' Hr Hr' Heq;
    [exact Heq |].
  cbn [fold_left] in Heq.
  apply IH in Heq; [| now apply is_u32_shift_byte ..].
  unfold shift_byte in Heq.
  assert (is_u32 (byte_val b)) as Hb
    by (pose proof (byte_val_range b); unfold is_u32; lia).
  apply iter_shift_bit_inj in Heq; [| now apply is_u32_lxor ..].
  rewrite (Z.lxor_comm r), (Z.lxor_comm r') in Heq.
  now apply lxor_cancel_l in Heq.
Qed.

(** A difference confined to four consecutive bytes changes the CRC. *)
Lemma CalculateCRC32_burst (pre mid mid' suf : list byte) :
  List.length mid = List.length mid' ->
  (List.length mid <= 4)%nat ->
  mid <> mid' ->
  CalculateCRC32 (pre ++ mid ++ suf) <> CalculateCRC32 (pre ++ mid' ++ suf).
Proof.
  intros Hlen Hshort Hne Heq. apply Hne. clear Hne.
  rewrite !CalculateCRC32_reference in Heq. unfold crc32_iso_hdlc in Heq.
  rewrite !(Z.lxor_comm _ 0xFFFFFFFF) in Heq. apply lxor_cancel_l in Heq.
  rewrite !fold_left_app in Heq.
  set (r := fold_left shift_byte pre 0xFFFFFFFF) in *.
  assert (is_u32 r) as Hr
    by (apply is_u32_fold_shift_byte; unfold is_u32; lia).
  assert (forall bs, (List.length bs <= 4)%nat -> is_u32 (le_word bs)) as Hw.
  { intros bs Hbs. split; [apply le_word_nonneg |].
    apply Z.lt_le_trans with (2 ^ (8 * Z.of_nat (List.length bs)));
      [apply le_word_bound | apply Z.pow_le_mono_r; lia]. }
  apply fold_shift_byte_inj in Heq;
    [| apply is_u32_fold_shift_byte; exact Hr ..].
  rewrite !fold_shift_byte_word, <- Hlen in Heq.
  apply iter_shift_bit_inj in Heq;
    [| apply is_u32_lxor; [exact Hr | apply Hw; lia] ..].
  apply lxor_cancel_l in Heq. now apply le_word_inj.
Qed.

(** X1. [CalculateCRC32] detects every corruption confined to four
    consecutive bytes: two inputs of the same length that differ only
    within such a window (a burst of at most 32 bits) have different
    CRCs.  In particular, changing, swapping or zeroing any single byte,
    or any two, three or four adjacent bytes, always changes the CRC. *)
Theorem crc32_detects_burst :
  (forall pre mid mid' suf,
     List.length mid = List.length mid' ->
     (List.length mid <= 4)%nat ->
     mid <> mid' ->
     CalculateCRC32 (pre ++ mid ++ suf) <> CalculateCRC32 (pre ++ mid' ++ suf)) /\
  (forall pre b b' suf,
     b <> b' ->
     CalculateCRC32 (pre ++ b :: suf) <> CalculateCRC32 (pre ++ b' :: suf)) /\
  (forall pre a b suf,
     a <> b ->
     CalculateCRC32 (pre ++ a :: b :: suf) <> CalculateCRC32 (pre ++ b :: a :: suf)).
Proof.
  split; [exact CalculateCRC32_burst |]. split.
  - intros pre b b' suf Hne.
    apply (CalculateCRC32_burst pre [b] [b'] suf); [reflexivity | cbn; lia |].
    intros [= Heq]. now apply Hne.
  - intros pre a b suf Hne.
    apply (CalculateCRC32_burst pre [a; b] [b; a] suf);
      [reflexivity | cbn; lia |].
    intros [= Heq _]. now apply Hne.
Qed.

(** The check string with its middle four bytes replaced. *)
Example corrupted_check_input_is_detected :
  CalculateCRC32 (list_byte_of_string "123456789")
  <> CalculateCRC32 (list_byte_of_string "12ABCD789").
Proof.
  apply (CalculateCRC32_burst
           (list_byte_of_string "12") (list_byte_of_string "3456")
           (list_byte_of_string "ABCD") (list_byte_of_string "789")).
  - reflexivity.
  - cbn. lia.
  - discriminate.
Qed.

End Crc32.

(* ================================================================== *)
(** * Robust file reader ([robust_file_io.h], [robust_file_io.cc])      *)
(* ================================================================== *)

Module RobustIO.

(** [enum class IOErrorType]. *)
Inductive IOErrorType : Set :=
| Success
| FileNotFound
| AccessDenied
| ReadError
| WriteError
| CorruptedData
| DeviceNotReady
| DeviceRemoved
| Timeout
| InterferenceDetected
| ChecksumMismatch
| PartialRead
| Unknown.

Definition IOErrorType_eqb (a b : IOErrorType) : bool :=
  match a, b with
  | Success, Success | FileNotFound, FileNotFound
  | AccessDenied, AccessDenied | ReadError, ReadError
  | WriteError, WriteError | CorruptedData, CorruptedData
  | DeviceNotReady, DeviceNotReady | DeviceRemoved, DeviceRemoved
  | Timeout, Timeout | InterferenceDetected, InterferenceDetected
  | ChecksumMismatch, ChecksumMismatch | PartialRead, PartialRead
  | Unknown, Unknown => true
  | _, _ => false
  end.

(** The text of a result: a literal, a [fmt::format] pattern with the
    integers substituted into it (a path argument is not kept), or the
    [what()] of an exception. *)
Inductive Message : Set :=
| Text (s : string)
| Format (pattern : string) (args : list Z)
| What (s : string).

(** [struct IOResult]. *)
Record IOResult : Set := mkIOResult {
  error : IOErrorType;
  message : Message;
  bytes_processed : Z;
  retry_count : Z;
  recovered : bool
}.

Definition IsSuccess (r : IOResult) : bool := IOErrorType_eqb (error r) Success.

(** [IOResult::RequiresRetry]. *)
Definition RequiresRetry (r : IOResult) : bool :=
  IOErrorType_eqb (error r) ReadError
  || IOErrorType_eqb (error r) DeviceNotReady
  || IOErrorType_eqb (error r) InterferenceDetected
  || IOErrorType_eqb (error r) Timeout
  || IOErrorType_eqb (error r) PartialRead.

(** [struct RobustIOConfig], with its default member initialisers. *)
Record RobustIOConfig : Set := mkConfig {
  max_retries : Z;
  retry_delay_ms : Z;
  exponential_backoff : bool;
  verify_checksum : bool;
  verify_file_size : bool;
  read_chunk_size : Z;
  buffer_size : Z;
  detect_interference : bool;
  interference_threshold_ms : Z;
  fail_fast : bool;
  log_errors : bool
}.

Definition default_config : RobustIOConfig := {|
  max_retries := 5;
  retry_delay_ms := 100;
  exponential_backoff := true;
  verify_checksum := true;
  verify_file_size := true;
  read_chunk_size := 1024 * 1024;
  buffer_size := 4096 * 1024;
  detect_interference := true;
  interference_threshold_ms := 500;
  fail_fast := false;
  log_errors := true
|}.

(** ** Machine arithmetic *)

(** A value stored in an [int] (32-bit two's complement). *)
Definition wrap_int (z : Z) : Z := (z + 2 ^ 31) mod 2 ^ 32 - 2 ^ 31.

(** A value converted to [uint64_t]. *)
Definition to_uint64 (z : Z) : Z := z mod 2 ^ 64.

(** An unsigned 64-bit integer converted to [double].  The primitive
    conversion takes a 63-bit integer; times and sizes stay far below
    that. *)
Definition to_double (z : Z) : float := PrimFloat.of_uint63 (Uint63.of_Z z).

(** ** The interference detector (process-wide singleton) *)

Inductive InterferenceLevel : Set := None_ | Low | Medium | High | Critical.

Definition level_rank (l : InterferenceLevel) : Z :=
  match l with
  | None_ => 0 | Low => 1 | Medium => 2 | High => 3 | Critical => 4
  end.

Record IOSample : Set := mkSample {
  timestamp : Z;
  duration_ms : Z;
  bytes : Z
}.

Record InterferenceDetector : Set := mkDetector {
  recent_samples_ : list IOSample;
  avg_io_time_ms_ : Z;
  det_interference_count_ : Z;
  current_level_ : InterferenceLevel
}.

(** The constructor's initial state. *)
Definition detector_init : InterferenceDetector :=
  mkDetector [] 0 0 None_.

(** [InterferenceDetector::DetectCurrentLevel]: the level and the updated
    detector. *)
Definition DetectCurrentLevel (d : InterferenceDetector)
  : InterferenceLevel * InterferenceDetector :=
  match recent_samples_ d with
  | [] => (None_, d)
  | _ :: _ =>
    let total_time :=
      fold_left (fun acc s => to_uint64 (acc + duration_ms s))
                (recent_samples_ d) 0 in
    let avg := total_time / Z.of_nat (List.length (recent_samples_ d)) in
    let lvl :=
      if avg <? 100 then None_
      else if avg <? 300 then Low
      else if avg <? 1000 then Medium
      else if avg <? 3000 then High
      else Critical in
    (lvl, mkDetector (recent_samples_ d) avg (det_interference_count_ d) lvl)
  end.

(** [InterferenceDetector::RecordIOTiming]; [now] is the value
    [GetCurrentTimeMs()] returns at the call. *)
Definition RecordIOTiming (d : InterferenceDetector) (now duration bytes_ : Z)
  : InterferenceDetector :=
  let samples := recent_samples_ d ++ [mkSample now duration bytes_] in
  let samples :=
    if (20 <? Z.of_nat (List.length samples)) then tl samples else samples in
  snd (DetectCurrentLevel
         (mkDetector samples (avg_io_time_ms_ d) (det_interference_count_ d)
                     (current_level_ d))).

Definition IsInterferenceActive (d : InterferenceDetector) : bool :=
  level_rank Medium <=? level_rank (current_level_ d).

(** ** The reader *)

(** [class RobustFileReader]: the configuration and the three counters. *)
Record Reader : Set := mkReader {
  config_ : RobustIOConfig;
  total_retries_ : Z;
  interference_count_ : Z;
  recovered_errors_ : Z
}.

(** The constructor. *)
Definition new_reader (config : RobustIOConfig) : Reader :=
  mkReader config 0 0 0.

Definition count_interference (rd : Reader) : Reader :=
  mkReader (config_ rd) (total_retries_ rd) (interference_count_ rd + 1)
           (recovered_errors_ rd).

(** [RobustFileReader::DetectInterference].  The expected time is
    computed in [double], as in the source; the threshold, an [int], is
    converted to [uint64_t] for the second comparison. *)
Definition DetectInterference (cfg : RobustIOConfig)
    (read_time_ms bytes_read : Z) : bool :=
  if negb (detect_interference cfg) then false
  else
    let expected_time_ms :=
      (to_double bytes_read / (100 * 1024 * 1024) * 1000)%float in
    if PrimFloat.ltb (expected_time_ms * 5)%float (to_double read_time_ms)
       && (to_uint64 (interference_threshold_ms cfg) <? read_time_ms)
    then true
    else false.

(** [RobustFileReader::WaitBeforeRetry]: the number of milliseconds
    handed to [sleep_for].  The arithmetic is on [int]; signed overflow
    and shifts by 31 or more are undefined in C++, and are taken here as
    the mathematical result truncated to 32 bits. *)
Definition WaitBeforeRetry (cfg : RobustIOConfig) (retry_count_ : Z) : Z :=
  let delay_ms := retry_delay_ms cfg in
  if exponential_backoff cfg then
    let delay_ms :=
      wrap_int (retry_delay_ms cfg * wrap_int (Z.shiftl 1 (retry_count_ - 1))) in
    Z.min delay_ms 5000
  else delay_ms.

(** What the file system does at one attempt of [ReadWithRetry]. *)
Inductive Attempt : Set :=
| OpenFails
    (* [!file.is_open()] *)
| Throws (what : string)
    (* a [std::exception] escapes the [try] block *)
| Reads (file_size duration : Z) (failed : bool) (gcount : Z).
    (* the file opened with size [file_size]; the read took [duration]
       ms; [failed] is [!file.good() && !file.eof()]; [gcount] bytes
       arrived *)

(** What an observer sees of the loop: the sleeps and the attempts, in
    order.  [EvAttempt r] is the attempt made with loop counter [r]. *)
Inductive Event : Set :=
| EvSleep (ms : Z)
| EvAttempt (retry : Z).

Definition count_retry (rd : Reader) : Reader :=
  mkReader (config_ rd) (total_retries_ rd + 1) (interference_count_ rd)
           (recovered_errors_ rd).

Definition count_recovered (rd : Reader) : Reader :=
  mkReader (config_ rd) (total_retries_ rd) (interference_count_ rd)
           (recovered_errors_ rd + 1).

(** The [for] loop of [ReadWithRetry], from loop counter [retry] on.
    [env r] is what the file system does at the attempt with counter [r];
    [last_result] is the local of that name; the events are appended to
    [log].  [None]: the fuel ran out before the loop ended. *)
Fixpoint retry_loop (env : Z -> Attempt) (fuel : nat) (retry : Z)
    (rd : Reader) (last_result : IOResult) (log : list Event)
  : option (IOResult * Reader * list Event) :=
  match fuel with
  | O => None
  | S fuel' =>
    if retry <=? max_retries (config_ rd) then
      (* if (retry > 0) { total_retries_++; WaitBeforeRetry(retry); } *)
      let '(rd, log) :=
        if 0 <? retry
        then (count_retry rd, log ++ [EvSleep (WaitBeforeRetry (config_ rd) retry)])
        else (rd, log) in
      let log := log ++ [EvAttempt retry] in
      match env retry with
      | OpenFails =>
        let last_result :=
          mkIOResult FileNotFound (Text "Could not open file") 0 retry false in
        retry_loop env fuel' (retry + 1) rd last_result log
      | Reads file_size duration failed gcount =>
        if failed then
          let last_result :=
            mkIOResult ReadError (Text "Read operation failed") 0 retry false in
          if DetectInterference (config_ rd) duration file_size then
            retry_loop env fuel' (retry + 1) (count_interference rd)
              (mkIOResult InterferenceDetected (message last_result)
                          (bytes_processed last_result)
                          (retry_count last_result) (recovered last_result))
              log
          else retry_loop env fuel' (retry + 1) rd last_result log
        else
          let bytes_read := gcount in
          if negb (bytes_read =? file_size) then
            let last_result :=
              mkIOResult PartialRead
                (Format "Read {} of {} bytes" [bytes_read; file_size])
                bytes_read retry false in
            retry_loop env fuel' (retry + 1) rd last_result log
          else
            let rd := if 0 <? retry then count_recovered rd else rd in
            Some (mkIOResult Success (Text "File read successfully")
                             bytes_read retry (0 <? retry),
                  rd, log)
      | Throws what =>
        let last_result := mkIOResult Unknown (What what) 0 retry false in
        retry_loop env fuel' (retry + 1) rd last_result log
      end
    else
      (* All retries exhausted *)
      Some (last_result, rd, log)
  end.

(** Fuel that lets the loop run from counter [retry] to its end. *)
Definition retry_fuel (cfg : RobustIOConfig) (retry : Z) : nat :=
  S (Z.to_nat (max_retries cfg + 1 - retry)).

(** [RobustFileReader::ReadWithRetry].  [uninit] stands for the content
    of the local [IOResult last_result;], which the source does not
    initialise. *)
Definition ReadWithRetry (env : Z -> Attempt) (rd : Reader) (uninit : IOResult)
  : option (IOResult * Reader * list Event) :=
  retry_loop env (retry_fuel (config_ rd) 0) 0 rd uninit [].

(** What [VerifyFileAccess] finds.  The [CreateFileW] probe exists only
    under [XE_PLATFORM_WIN32]; on other platforms an existing file is
    [Accessible]. *)
Inductive Access : Set :=
| Missing             (* [!std::filesystem::exists(path)] *)
| SharingViolation    (* [ERROR_SHARING_VIOLATION] *)
| NotReady            (* [ERROR_NOT_READY], [ERROR_DEVICE_NOT_AVAILABLE] *)
| OtherOpenError      (* any other [GetLastError()] *)
| Accessible.

(** [RobustFileReader::VerifyFileAccess]. *)
Definition VerifyFileAccess (a : Access) : IOResult :=
  match a with
  | Missing => mkIOResult FileNotFound (Format "File not found: {}" []) 0 0 false
  | SharingViolation =>
    mkIOResult AccessDenied (Text "File is locked by another process") 0 0 false
  | NotReady => mkIOResult DeviceNotReady (Text "Device not ready") 0 0 false
  | OtherOpenError => mkIOResult AccessDenied (Text "Cannot access file") 0 0 false
  | Accessible => mkIOResult Success (Text "File is accessible") 0 0 false
  end.

(** [RobustFileReader::ReadFile]. *)
Definition ReadFile (a : Access) (env : Z -> Attempt) (rd : Reader)
    (uninit : IOResult) : option (IOResult * Reader * list Event) :=
  let verify_result := VerifyFileAccess a in
  if negb (IsSuccess verify_result) then Some (verify_result, rd, [])
  else ReadWithRetry env rd uninit.

(** ** The chunked reader *)

(** What one [file.read] of the chunk loop does. *)
Inductive ChunkRead : Set :=
| ChunkThrows (what : string)
    (* a [std::exception] escapes the [try] block *)
| Chunk (now chunk_duration : Z) (failed : bool) (gcount : Z).
    (* the read took [chunk_duration] ms and delivered [gcount] bytes;
       [failed] is [!file.good() && !file.eof()]; [now] is the clock
       value a sample of this chunk is stamped with *)

(** What an observer sees of the chunk loop. *)
Inductive ChunkEvent : Set :=
| EvRead (offset to_read : Z)           (* [file.read(data + offset, to_read)] *)
| EvProgress (bytes_read total_size : Z) (* [progress_cb(bytes_read, file_size)] *)
| EvRecord (duration size_ : Z).         (* [RecordIOTiming(duration, size)] *)

(** The state the chunk loop works on: the reader's counters, the
    process-wide detector, and the events so far. *)
Record ChunkState : Set := mkChunkState {
  cs_reader : Reader;
  cs_detector : InterferenceDetector;
  cs_log : list ChunkEvent
}.

Definition log_chunk (e : ChunkEvent) (s : ChunkState) : ChunkState :=
  mkChunkState (cs_reader s) (cs_detector s) (cs_log s ++ [e]).

(** The [while (bytes_read < file_size)] loop of [ReadFileChunked].
    [env i] is what the [i]-th read does; [has_cb] tells whether
    [progress_cb] is non-empty.  The loop has no bound of its own (a read
    that delivers nothing leaves [bytes_read] where it was), so the fuel
    stays an argument. *)
Fixpoint chunk_loop (env : nat -> ChunkRead) (has_cb : bool) (file_size : Z)
    (fuel : nat) (i : nat) (bytes_read : Z) (s : ChunkState)
  : option (IOResult * ChunkState) :=
  match fuel with
  | O => None
  | S fuel' =>
    let cfg := config_ (cs_reader s) in
    if bytes_read <? file_size then
      let to_read := Z.min (read_chunk_size cfg) (file_size - bytes_read) in
      let s := log_chunk (EvRead bytes_read to_read) s in
      match env i with
      | ChunkThrows what =>
        Some (mkIOResult Unknown (Format "Exception: {}" []) 0 0 false, s)
      | Chunk now chunk_duration failed gcount =>
        if failed then
          let s :=
            if DetectInterference cfg chunk_duration to_read
            then mkChunkState (count_interference (cs_reader s))
                              (cs_detector s) (cs_log s)
            else s in
          Some (mkIOResult ReadError
                  (Format "Read failed at offset {}" [bytes_read])
                  bytes_read 0 false, s)
        else
          let bytes_read := bytes_read + gcount in
          let s :=
            if has_cb then log_chunk (EvProgress bytes_read file_size) s
            else s in
          let s :=
            if detect_interference cfg
               && DetectInterference cfg chunk_duration to_read
            then
              mkChunkState
                (count_interference (cs_reader s))
                (RecordIOTiming (cs_detector s) now chunk_duration to_read)
                (cs_log s ++ [EvRecord chunk_duration to_read])
            else s in
          chunk_loop env has_cb file_size fuel' (S i) bytes_read s
      end
    else
      Some (mkIOResult Success (Text "File read successfully")
                       bytes_read 0 false, s)
  end.

(** How the file opens for [ReadFileChunked]. *)
Inductive ChunkedOpen : Set :=
| CannotOpen                 (* [!file.is_open()] *)
| Opened (file_size : Z).    (* [file.tellg()] after opening at the end *)

(** [RobustFileReader::ReadFileChunked]. *)
Definition ReadFileChunked (o : ChunkedOpen) (env : nat -> ChunkRead)
    (has_cb : bool) (fuel : nat) (s : ChunkState)
  : option (IOResult * ChunkState) :=
  match o with
  | CannotOpen =>
    Some (mkIOResult FileNotFound (Format "Could not open file: {}" []) 0 0 false,
          s)
  | Opened file_size => chunk_loop env has_cb file_size fuel 0 0 s
  end.

(** ** Vocabulary for the properties of the retry loop *)

(** An attempt succeeds when the file opens, the read does not fail and
    every byte arrives. *)
Definition attempt_succeeds (a : Attempt) : bool :=
  match a with
  | Reads file_size _ failed gcount => negb failed && (gcount =? file_size)
  | _ => false
  end.

(** The value [last_result] takes after a failed attempt with loop
    counter [retry]. *)
Definition failure_result (cfg : RobustIOConfig) (retry : Z) (a : Attempt)
  : IOResult :=
  match a with
  | OpenFails => mkIOResult FileNotFound (Text "Could not open file") 0 retry false
  | Throws what => mkIOResult Unknown (What what) 0 retry false
  | Reads file_size duration failed gcount =>
    if failed then
      mkIOResult
        (if DetectInterference cfg duration file_size
         then InterferenceDetected else ReadError)
        (Text "Read operation failed") 0 retry false
    else
      mkIOResult PartialRead
        (Format "Read {} of {} bytes" [gcount; file_size]) gcount retry false
  end.

(** The value returned by a successful attempt with loop counter
    [retry]. *)
Definition success_result (bytes_read retry : Z) : IOResult :=
  mkIOResult Success (Text "File read successfully") bytes_read retry (0 <? retry).

(** The events of the attempt with loop counter [r]: a sleep first,
    unless it is the first attempt. *)
Definition attempt_events (cfg : RobustIOConfig) (r : Z) : list Event :=
  (if 0 <? r then [EvSleep (WaitBeforeRetry cfg r)] else []) ++ [EvAttempt r].

(** The events of [n] consecutive attempts, the first with counter [r]. *)
Fixpoint events_run (cfg : RobustIOConfig) (r : Z) (n : nat) : list Event :=
  match n with
  | O => []
  | S n' => attempt_events cfg r ++ events_run cfg (r + 1) n'
  end.

Definition is_attempt (e : Event) : bool :=
  match e with EvAttempt _ => true | EvSleep _ => false end.

Definition count_attempts (log : list Event) : nat :=
  List.length (List.filter is_attempt log).

(** How the loop started at counter [retry] ends: with the first
    success, after [m] failures, or with every attempt up to
    [max_retries] failed.  The [nat] is the number of attempts made. *)
Inductive LoopOutcome (cfg : RobustIOConfig) (env : Z -> Attempt)
    (retry : Z) (last_result : IOResult) : IOResult -> nat -> Prop :=
| FirstSuccess (m : nat) (file_size duration : Z) :
    (forall j, retry <= j < retry + Z.of_nat m -> attempt_succeeds (env j) = false) ->
    env (retry + Z.of_nat m) = Reads file_size duration false file_size ->
    retry + Z.of_nat m <= max_retries cfg ->
    LoopOutcome cfg env retry last_result
      (success_result file_size (retry + Z.of_nat m)) (S m)
| Exhausted :
    (forall j, retry <= j <= max_retries cfg -> attempt_succeeds (env j) = false) ->
    LoopOutcome cfg env retry last_result
      (if retry <=? max_retries cfg
       then failure_result cfg (max_retries cfg) (env (max_retries cfg))
       else last_result)
      (Z.to_nat (max_retries cfg + 1 - retry)).

(** The error kinds the specification lists as non-retryable. *)
Definition non_retryable (e : IOErrorType) : bool :=
  match e with
  | FileNotFound | AccessDenied | ChecksumMismatch | CorruptedData | Unknown => true
  | _ => false
  end.

(** ** Properties of the retry loop *)

Lemma wrap_int_small (z : Z) : - 2 ^ 31 <= z < 2 ^ 31 -> wrap_int z = z.
Proof.
  intros Hz. unfold wrap_int. rewrite Z.mod_small; lia.
Qed.

(** Without overflow, the delay is [retry_delay_ms * 2^(retry-1)] capped
    at 5000, or the constant [retry_delay_ms]. *)
Lemma WaitBeforeRetry_formula (cfg : RobustIOConfig) (r : Z) :
  1 <= r <= 31 ->
  - 2 ^ 31 <= retry_delay_ms cfg * 2 ^ (r - 1) < 2 ^ 31 ->
  WaitBeforeRetry cfg r =
    if exponential_backoff cfg
    then Z.min (retry_delay_ms cfg * 2 ^ (r - 1)) 5000
    else retry_delay_ms cfg.
Proof.
  intros Hr Hfit. unfold WaitBeforeRetry.
  destruct (exponential_backoff cfg); [| reflexivity].
  rewrite Z.shiftl_1_l.
  assert (0 < 2 ^ (r - 1) <= 2 ^ 30) as Hp.
  { split; [apply Z.pow_pos_nonneg; lia |].
    apply Z.pow_le_mono_r; lia. }
  rewrite (wrap_int_small (2 ^ (r - 1))) by lia.
  now rewrite wrap_int_small by lia.
Qed.

Lemma events_run_app (cfg : RobustIOConfig) (r : Z) (n m : nat) :
  events_run cfg r (n + m) =
  events_run cfg r n ++ events_run cfg (r + Z.of_nat n) m.
Proof.
  revert r. induction n as [| n IH]; intros r.
  - cbn. now rewrite Z.add_0_r.
  - cbn [events_run Nat.add]. rewrite IH, <- app_assoc.
    do 3 f_equal. lia.
Qed.

Lemma count_attempts_app (l1 l2 : list Event) :
  count_attempts (l1 ++ l2) = (count_attempts l1 + count_attempts l2)%nat.
Proof.
  unfold count_attempts. now rewrite List.filter_app, length_app.
Qed.

Lemma count_attempts_events_run (cfg : RobustIOConfig) (r : Z) (n : nat) :
  count_attempts (events_run cfg r n) = n.
Proof.
  revert r. induction n as [| n IH]; intros r; [reflexivity |].
  cbn [events_run]. rewrite count_attempts_app, IH.
  unfold attempt_events. destruct (0 <? r); reflexivity.
Qed.

(** The attempt with counter [r] is in the log of [n] attempts started at
    [r0] exactly when [r0 <= r < r0 + n]; and then, if it is a retry, its
    sleep is there too. *)
Lemma In_events_run_attempt (cfg : RobustIOConfig) (r0 : Z) (n : nat) (r : Z) :
  r0 <= r < r0 + Z.of_nat n -> In (EvAttempt r) (events_run cfg r0 n).
Proof.
  revert r0. induction n as [| n IH]; intros r0 Hr; [lia |].
  cbn [events_run]. apply in_or_app.
  destruct (Z.eq_dec r r0) as [-> | Hne].
  - left. unfold attempt_events. apply in_or_app. right. now left.
  - right. apply IH. lia.
Qed.

Lemma In_events_run_sleep (cfg : RobustIOConfig) (r0 : Z) (n : nat) (r : Z) :
  r0 <= r < r0 + Z.of_nat n -> 0 < r ->
  In (EvSleep (WaitBeforeRetry cfg r)) (events_run cfg r0 n).
Proof.
  revert r0. induction n as [| n IH]; intros r0 Hr Hpos; [lia |].
  cbn [events_run]. apply in_or_app.
  destruct (Z.eq_dec r r0) as [-> | Hne].
  - left. unfold attempt_events.
    destruct (Z.ltb_spec 0 r0); [now left | lia].
  - right. apply IH; lia.
Qed.

Lemma attempt_succeeds_inv (a : Attempt) :
  attempt_succeeds a = true ->
  exists file_size duration, a = Reads file_size duration false file_size.
Proof.
  destruct a as [| w | fs d failed g]; cbn; try discriminate.
  destruct failed; cbn; [discriminate |].
  intros Hg. apply Z.eqb_eq in Hg. subst g. now exists fs, d.
Qed.

(** One turn of the loop after a failed attempt: the loop goes on, with
    [last_result] set from the failure, whatever its kind. *)
Lemma retry_loop_failure (env : Z -> Attempt) (fuel : nat) (retry : Z)
    (rd : Reader) (last_result : IOResult) (log : list Event) :
  retry <= max_retries (config_ rd) ->
  attempt_succeeds (env retry) = false ->
  exists rd1,
    config_ rd1 = config_ rd /\
    retry_loop env (S fuel) retry rd last_result log =
    retry_loop env fuel (retry + 1) rd1
      (failure_result (config_ rd) retry (env retry))
      (log ++ attempt_events (config_ rd) retry).
Proof.
  intros Hle Hfail. cbn [retry_loop].
  apply Z.leb_le in Hle. rewrite Hle.
  unfold attempt_events, failure_result.
  destruct (0 <? retry); destruct (env retry) as [| w | fs d failed g];
    cbn [config_ count_retry];
    rewrite <- ?app_assoc; cbn [app].
  1, 2, 4, 5: eexists; split; [| reflexivity]; reflexivity.
  all: destruct failed; cbn in Hfail |- *.
  all: try (destruct (DetectInterference (config_ rd) d fs);
            eexists; (split; [| reflexivity]); reflexivity).
  all: rewrite Hfail; cbn; eexists; (split; [| reflexivity]); reflexivity.
Qed.

(** One turn of the loop at a successful attempt: the loop returns at
    once. *)
Lemma retry_loop_success (env : Z -> Attempt) (fuel : nat) (retry : Z)
    (rd : Reader) (last_result : IOResult) (log : list Event)
    (file_size duration : Z) :
  retry <= max_retries (config_ rd) ->
  env retry = Reads file_size duration false file_size ->
  exists rd1,
    config_ rd1 = config_ rd /\
    retry_loop env (S fuel) retry rd last_result log =
    Some (success_result file_size retry, rd1,
          log ++ attempt_events (config_ rd) retry).
Proof.
  intros Hle Henv. cbn [retry_loop].
  apply Z.leb_le in Hle. rewrite Hle, Henv.
  unfold attempt_events, success_result. rewrite Z.eqb_refl. cbn [negb].
  destruct (0 <? retry); cbn [config_ count_retry];
    rewrite <- ?app_assoc; cbn [app];
    eexists; (split; [| reflexivity]); reflexivity.
Qed.

Lemma retry_loop_exit (env : Z -> Attempt) (fuel : nat) (retry : Z)
    (rd : Reader) (last_result : IOResult) (log : list Event) :
  max_retries (config_ rd) < retry ->
  retry_loop env (S fuel) retry rd last_result log = Some (last_result, rd, log).
Proof.
  intros Hgt. cbn [retry_loop].
  apply Z.leb_gt in Hgt. now rewrite Hgt.
Qed.

Lemma LoopOutcome_eq cfg env retry last_result r n r' n' :
  LoopOutcome cfg env retry last_result r n -> r = r' -> n = n' ->
  LoopOutcome cfg env retry last_result r' n'.
Proof. intros H -> ->. exact H. Qed.

(** A failed attempt in front of a run of the loop. *)
Lemma LoopOutcome_step cfg env retry last_result r n :
  retry <= max_retries cfg ->
  attempt_succeeds (env retry) = false ->
  LoopOutcome cfg env (retry + 1) (failure_result cfg retry (env retry)) r n ->
  LoopOutcome cfg env retry last_result r (S n).
Proof.
  intros Hle Hfail Hout.
  destruct Hout as [m fs d Hfails Henv Hm | Hfails].
  - eapply LoopOutcome_eq.
    + apply (FirstSuccess cfg env retry last_result (S m) fs d).
      * intros j Hj. destruct (Z.eq_dec j retry) as [-> | Hne];
          [exact Hfail | apply Hfails; lia].
      * rewrite <- Henv. f_equal. lia.
      * lia.
    + f_equal. lia.
    + reflexivity.
  - eapply LoopOutcome_eq.
    + apply (Exhausted cfg env retry last_result).
      intros j Hj. destruct (Z.eq_dec j retry) as [-> | Hne];
        [exact Hfail | apply Hfails; lia].
    + apply Z.leb_le in Hle as Hle'. rewrite Hle'.
      destruct (Z.leb_spec (retry + 1) (max_retries cfg)) as [H1 | H1];
        [reflexivity |].
      now replace retry with (max_retries cfg) by lia.
    + lia.
Qed.

(** The loop always ends, and ends in one of the two ways of
    [LoopOutcome]; its log is that of the attempts it made. *)
Lemma retry_loop_outcome (cfg : RobustIOConfig) (env : Z -> Attempt) (d : nat) :
  forall (fuel : nat) (retry : Z) (rd : Reader) (last_result : IOResult)
         (log : list Event),
    config_ rd = cfg ->
    d = Z.to_nat (max_retries cfg + 1 - retry) ->
    (S d <= fuel)%nat ->
    exists r rd' n,
      retry_loop env fuel retry rd last_result log =
        Some (r, rd', log ++ events_run cfg retry n) /\
      config_ rd' = cfg /\
      LoopOutcome cfg env retry last_result r n.
Proof.
  induction d as [| d IH]; intros fuel retry rd last_result log Hcfg Hd Hfuel;
    (destruct fuel as [| fuel]; [lia |]).
  - exists last_result, rd, 0%nat. split; [| split; [exact Hcfg |]].
    + rewrite retry_loop_exit by (rewrite Hcfg; lia).
      cbn [events_run]. now rewrite app_nil_r.
    + eapply LoopOutcome_eq.
      * apply (Exhausted cfg env retry last_result). intros j Hj. lia.
      * destruct (Z.leb_spec retry (max_retries cfg)); [lia | reflexivity].
      * lia.
  - assert (retry <= max_retries cfg) as Hle by lia.
    destruct (attempt_succeeds (env retry)) eqn:Hs.
    + apply attempt_succeeds_inv in Hs as (fs & dur & Henv).
      destruct (retry_loop_success env fuel retry rd last_result log fs dur)
        as (rd1 & Hcfg1 & Heq); [rewrite Hcfg; exact Hle | exact Henv |].
      exists (success_result fs retry), rd1, 1%nat.
      split; [| split; [congruence |]].
      * rewrite Heq, Hcfg. cbn [events_run]. now rewrite app_nil_r.
      * eapply LoopOutcome_eq.
        -- apply (FirstSuccess cfg env retry last_result 0 fs dur).
           ++ intros j Hj. lia.
           ++ rewrite <- Henv. f_equal. lia.
           ++ lia.
        -- f_equal. lia.
        -- reflexivity.
    + destruct (retry_loop_failure env fuel retry rd last_result log)
        as (rd1 & Hcfg1 & Heq); [rewrite Hcfg; exact Hle | exact Hs |].
      destruct (IH fuel (retry + 1) rd1
                   (failure_result cfg retry (env retry))
                   (log ++ attempt_events cfg retry))
        as (r & rd' & n & Hrun & Hcfg' & Hout); [congruence | lia | lia |].
      exists r, rd', (S n). split; [| split; [exact Hcfg' |]].
      * rewrite Heq, Hcfg, Hrun. cbn [events_run]. now rewrite <- app_assoc.
      * now apply LoopOutcome_step.
Qed.

(** [ReadWithRetry] returns on every input. *)
Lemma ReadWithRetry_outcome (env : Z -> Attempt) (rd : Reader) (uninit : IOResult) :
  exists r rd' n,
    ReadWithRetry env rd uninit = Some (r, rd', events_run (config_ rd) 0 n) /\
    config_ rd' = config_ rd /\
    LoopOutcome (config_ rd) env 0 uninit r n.
Proof.
  unfold ReadWithRetry, retry_fuel.
  destruct (retry_loop_outcome (config_ rd) env
              (Z.to_nat (max_retries (config_ rd) + 1 - 0))
              (S (Z.to_nat (max_retries (config_ rd) + 1 - 0))) 0 rd uninit [])
    as (r & rd' & n & Hrun & Hcfg & Hout); try reflexivity.
  now exists r, rd', n.
Qed.

Lemma LoopOutcome_attempts cfg env last_result r n :
  -1 <= max_retries cfg ->
  LoopOutcome cfg env 0 last_result r n ->
  Z.of_nat n <= max_retries cfg + 1.
Proof.
  intros Hmax [m fs d _ _ Hm | _]; lia.
Qed.

(** The outcome is determined by the position of the first success. *)
Lemma LoopOutcome_first_success cfg env last_result r n k fs d :
  LoopOutcome cfg env 0 last_result r n ->
  0 <= k <= max_retries cfg ->
  (forall j, 0 <= j < k -> attempt_succeeds (env j) = false) ->
  env k = Reads fs d false fs ->
  r = success_result fs k /\ n = S (Z.to_nat k).
Proof.
  intros Hout Hk Hfails Henv.
  assert (attempt_succeeds (env k) = true) as Hsk.
  { rewrite Henv. cbn. now rewrite Z.eqb_refl. }
  destruct Hout as [m fs' d' Hfails' Henv' Hm | Hfails'].
  - assert (0 + Z.of_nat m = k) as Hmk.
    { destruct (Z.lt_trichotomy (0 + Z.of_nat m) k) as [Hlt | [Heq | Hgt]];
        [| exact Heq |].
      - specialize (Hfails (0 + Z.of_nat m) ltac:(lia)).
        rewrite Henv' in Hfails. cbn in Hfails.
        rewrite Z.eqb_refl in Hfails. discriminate.
      - specialize (Hfails' k ltac:(lia)). congruence. }
    rewrite Hmk in *. rewrite Henv in Henv'. injection Henv' as <- _.
    split; [reflexivity | lia].
  - specialize (Hfails' k ltac:(lia)). congruence.
Qed.

Lemma LoopOutcome_all_fail cfg env last_result r n :
  LoopOutcome cfg env 0 last_result r n ->
  0 <= max_retries cfg ->
  (forall j, 0 <= j <= max_retries cfg -> attempt_succeeds (env j) = false) ->
  r = failure_result cfg (max_retries cfg) (env (max_retries cfg)) /\
  n = Z.to_nat (max_retries cfg + 1).
Proof.
  intros Hout Hmax Hfails.
  destruct Hout as [m fs' d' Hfails' Henv' Hm | Hfails'].
  - specialize (Hfails (0 + Z.of_nat m) ltac:(lia)).
    rewrite Henv' in Hfails. cbn in Hfails.
    rewrite Z.eqb_refl in Hfails. discriminate.
  - destruct (Z.leb_spec 0 (max_retries cfg)); [| lia].
    split; [reflexivity | f_equal; lia].
Qed.

(** C7, with the domain of the delay formula explicit.  With
    [max_retries >= 0], [ReadWithRetry] returns after at most
    [max_retries + 1] attempts.  Its log is that of [n] consecutive
    attempts: the first is made at once, every later one after a sleep of
    [WaitBeforeRetry] milliseconds.  Without exponential backoff that is
    [retry_delay_ms], for every retry.  With backoff it is
    [retry_delay_ms * 2^(retry-1)] capped at 5000 as long as
    [retry <= 31] and the product fits an [int]; that holds for every
    retry of a loop with [max_retries <= 31], a non-negative delay and
    [retry_delay_ms * 2^(max_retries-1) < 2^31], the default
    configuration among them.  Outside that domain the code departs from
    the cap it intends ("Max 5 seconds"): the product is formed in [int]
    before [std::min] is applied, and once it passes [INT_MAX] (up to
    [2^32]) the value handed to [sleep_for] is the wrapped, negative
    product, not 5000.  If the first [k] attempts fail and attempt [k]
    succeeds, the result is Success with [retry_count = k] and
    [recovered] true exactly when [k > 0], and no further attempt is
    made.  If every attempt fails, the result is the one of the last
    attempt. *)
Theorem ReadWithRetry_contract (env : Z -> Attempt) (rd : Reader)
    (uninit : IOResult) :
  0 <= max_retries (config_ rd) ->
  (exists r rd' n,
     ReadWithRetry env rd uninit = Some (r, rd', events_run (config_ rd) 0 n) /\
     count_attempts (events_run (config_ rd) 0 n) = n /\
     Z.of_nat n <= max_retries (config_ rd) + 1) /\
  (forall r n,
     events_run (config_ rd) r (S n) =
       (if 0 <? r then [EvSleep (WaitBeforeRetry (config_ rd) r)] else [])
       ++ EvAttempt r :: events_run (config_ rd) (r + 1) n) /\
  (exponential_backoff (config_ rd) = false ->
   forall r, WaitBeforeRetry (config_ rd) r = retry_delay_ms (config_ rd)) /\
  (exponential_backoff (config_ rd) = true ->
   forall r,
     1 <= r <= 31 ->
     - 2 ^ 31 <= retry_delay_ms (config_ rd) * 2 ^ (r - 1) < 2 ^ 31 ->
     WaitBeforeRetry (config_ rd) r =
     Z.min (retry_delay_ms (config_ rd) * 2 ^ (r - 1)) 5000) /\
  (exponential_backoff (config_ rd) = true ->
   max_retries (config_ rd) <= 31 ->
   0 <= retry_delay_ms (config_ rd) ->
   retry_delay_ms (config_ rd) * 2 ^ (max_retries (config_ rd) - 1) < 2 ^ 31 ->
   forall r,
     1 <= r <= max_retries (config_ rd) ->
     WaitBeforeRetry (config_ rd) r =
     Z.min (retry_delay_ms (config_ rd) * 2 ^ (r - 1)) 5000) /\
  (exponential_backoff (config_ rd) = true ->
   forall r,
     1 <= r <= 31 ->
     2 ^ 31 <= retry_delay_ms (config_ rd) * 2 ^ (r - 1) < 2 ^ 32 ->
     WaitBeforeRetry (config_ rd) r =
       retry_delay_ms (config_ rd) * 2 ^ (r - 1) - 2 ^ 32 /\
     WaitBeforeRetry (config_ rd) r < 0 /\
     Z.min (retry_delay_ms (config_ rd) * 2 ^ (r - 1)) 5000 = 5000) /\
  (forall k file_size duration,
     0 <= k <= max_retries (config_ rd) ->
     (forall j, 0 <= j < k -> attempt_succeeds (env j) = false) ->
     env k = Reads file_size duration false file_size ->
     exists rd',
       ReadWithRetry env rd uninit =
         Some (mkIOResult Success (Text "File read successfully")
                          file_size k (0 <? k),
               rd', events_run (config_ rd) 0 (S (Z.to_nat k)))) /\
  ((forall j, 0 <= j <= max_retries (config_ rd) ->
      attempt_succeeds (env j) = false) ->
   exists rd',
     ReadWithRetry env rd uninit =
       Some (failure_result (config_ rd) (max_retries (config_ rd))
                            (env (max_retries (config_ rd))),
             rd',
             events_run (config_ rd) 0 (Z.to_nat (max_retries (config_ rd) + 1)))).
Proof.
  intros Hmax.
  destruct (ReadWithRetry_outcome env rd uninit)
    as (r & rd' & n & Hrun & _ & Hout).
  split; [| split; [| split; [| split; [| split; [| split; [| split]]]]]].
  - exists r, rd', n. split; [exact Hrun | split].
    + apply count_attempts_events_run.
    + eapply LoopOutcome_attempts; [| exact Hout]. lia.
  - intros r0 n0. cbn [events_run]. unfold attempt_events.
    now rewrite <- app_assoc.
  - intros Hoff r0. unfold WaitBeforeRetry. now rewrite Hoff.
  - intros Hon r0 Hr0 Hfit.
    rewrite WaitBeforeRetry_formula by assumption. now rewrite Hon.
  - intros Hon Hcap Hdelay Hfit r0 Hr0.
    assert (0 < 2 ^ (r0 - 1) <= 2 ^ (max_retries (config_ rd) - 1)) as Hpow.
    { split; [apply Z.pow_pos_nonneg; lia | apply Z.pow_le_mono_r; lia]. }
    rewrite WaitBeforeRetry_formula; [now rewrite Hon | lia | nia].
  - intros Hon r0 Hr0 Hover.
    assert (WaitBeforeRetry (config_ rd) r0 =
            retry_delay_ms (config_ rd) * 2 ^ (r0 - 1) - 2 ^ 32) as Hwrap.
    { unfold WaitBeforeRetry. rewrite Hon, Z.shiftl_1_l.
      assert (0 < 2 ^ (r0 - 1) <= 2 ^ 30) as Hp.
      { split; [apply Z.pow_pos_nonneg; lia | apply Z.pow_le_mono_r; lia]. }
      rewrite (wrap_int_small (2 ^ (r0 - 1))) by lia.
      unfold wrap_int.
      replace (retry_delay_ms (config_ rd) * 2 ^ (r0 - 1) + 2 ^ 31)
        with (retry_delay_ms (config_ rd) * 2 ^ (r0 - 1) - 2 ^ 31 + 1 * 2 ^ 32)
        by lia.
      rewrite Z.mod_add by lia. rewrite Z.mod_small by lia. lia. }
    split; [exact Hwrap |]. split; lia.
  - intros k fs d Hk Hfails Henv.
    destruct (LoopOutcome_first_success _ _ _ _ _ k fs d Hout Hk Hfails Henv)
      as [-> ->].
    now exists rd'.
  - intros Hfails.
    destruct (LoopOutcome_all_fail _ _ _ _ _ Hout Hmax Hfails) as [-> ->].
    now exists rd'.
Qed.

(** The flaky source of the specification's test: two failures, then a
    complete read of seven bytes. *)
Definition flaky_source (retry : Z) : Attempt :=
  if retry <? 2 then Reads 7 1 true 0 else Reads 7 1 false 7.

(** Some content for the uninitialised [last_result]. *)
Definition stale_result : IOResult := mkIOResult Unknown (Text "") 0 0 false.

Lemma ReadWithRetry_contract_witness :
  exists rd',
    ReadWithRetry flaky_source (new_reader default_config) stale_result =
    Some (mkIOResult Success (Text "File read successfully") 7 2 true, rd',
          [EvAttempt 0; EvSleep 100; EvAttempt 1; EvSleep 200; EvAttempt 2]).
Proof.
  destruct (ReadWithRetry_contract flaky_source (new_reader default_config)
              stale_result) as (_ & _ & _ & _ & _ & _ & Hfirst & _).
  - cbn. lia.
  - apply (Hfirst 2 7 1).
    + cbn. lia.
    + intros j Hj. unfold flaky_source.
      destruct (Z.ltb_spec j 2); [reflexivity | lia].
    + reflexivity.
Defined.

(** The default configuration with [max_retries] raised to 26. *)
Definition patient_config : RobustIOConfig :=
  mkConfig 26 (retry_delay_ms default_config)
           (exponential_backoff default_config)
           (verify_checksum default_config) (verify_file_size default_config)
           (read_chunk_size default_config) (buffer_size default_config)
           (detect_interference default_config)
           (interference_threshold_ms default_config)
           (fail_fast default_config) (log_errors default_config).

(** Where the cap is missed: with a delay of 100 ms the product for
    retry 26 is [100 * 2^25 = 3355443200], past [INT_MAX].  A file that
    never opens is tried 27 times; the sleeps before retries 6 to 25 are
    5000 ms, the one before retry 26 is the wrapped product. *)
Example backoff_overflows_at_retry_26 :
  WaitBeforeRetry patient_config 25 = 5000 /\
  WaitBeforeRetry patient_config 26 = -939524096 /\
  Z.min (retry_delay_ms patient_config * 2 ^ (26 - 1)) 5000 = 5000 /\
  exists r rd' log,
    ReadWithRetry (fun _ => OpenFails) (new_reader patient_config) stale_result
      = Some (r, rd', log ++ [EvSleep (-939524096); EvAttempt 26]) /\
    count_attempts log = 26%nat.
Proof.
  split; [vm_compute; reflexivity |]. split; [vm_compute; reflexivity |].
  split; [vm_compute; reflexivity |].
  eexists _, _, (events_run patient_config 0 26). split.
  - vm_compute. reflexivity.
  - apply count_attempts_events_run.
Qed.

(** C6, as the code has it.  In [ReadWithRetry] a failed attempt of any
    kind is followed by another attempt as long as the loop counter is
    below [max_retries]: the loop never looks at the kind of the failure
    ([RequiresRetry] is not called).  The kinds an attempt can fail with
    are FileNotFound (the file does not open), ReadError,
    InterferenceDetected, PartialRead and Unknown (an exception);
    AccessDenied, ChecksumMismatch and CorruptedData never arise in the
    loop.  Only [ReadFile] stops without any attempt, when
    [VerifyFileAccess] fails beforehand. *)
Theorem failed_attempt_is_retried (env : Z -> Attempt) (rd : Reader)
    (uninit : IOResult) :
  (forall k,
     0 <= k < max_retries (config_ rd) ->
     (forall j, 0 <= j <= k -> attempt_succeeds (env j) = false) ->
     exists r rd' log,
       ReadWithRetry env rd uninit = Some (r, rd', log) /\
       In (EvAttempt (k + 1)) log /\
       In (EvSleep (WaitBeforeRetry (config_ rd) (k + 1))) log) /\
  (forall retry a,
     attempt_succeeds a = false ->
     In (error (failure_result (config_ rd) retry a))
        [FileNotFound; ReadError; InterferenceDetected; PartialRead; Unknown]) /\
  (forall a,
     a <> Accessible ->
     ReadFile a env rd uninit = Some (VerifyFileAccess a, rd, []) /\
     In (error (VerifyFileAccess a)) [FileNotFound; AccessDenied; DeviceNotReady]).
Proof.
  split; [| split].
  - intros k Hk Hfails.
    destruct (ReadWithRetry_outcome env rd uninit)
      as (r & rd' & n & Hrun & _ & Hout).
    exists r, rd', (events_run (config_ rd) 0 n).
    assert (k + 1 < Z.of_nat n) as Hn.
    { destruct Hout as [m fs d _ Henv _ | _]; [| lia].
      destruct (Z_lt_le_dec k (0 + Z.of_nat m)) as [Hlt | Hge]; [lia |].
      specialize (Hfails (0 + Z.of_nat m) ltac:(lia)).
      rewrite Henv in Hfails. cbn in Hfails.
      rewrite Z.eqb_refl in Hfails. discriminate. }
    split; [exact Hrun | split].
    + apply In_events_run_attempt. lia.
    + apply In_events_run_sleep; lia.
  - intros retry a Hfail.
    destruct a as [| w | fs d failed g]; cbn.
    + now left.
    + do 4 right. now left.
    + destruct failed; cbn.
      * destruct (DetectInterference (config_ rd) d fs); cbn; tauto.
      * tauto.
  - intros a Ha. unfold ReadFile.
    destruct a; cbn; tauto.
Qed.

(** A source whose file does not open at first, then throws, then reads
    four bytes. *)
Definition reluctant_source (retry : Z) : Attempt :=
  if retry =? 0 then OpenFails
  else if retry =? 1 then Throws "bad_alloc"
  else Reads 4 1 false 4.

Lemma failed_attempt_is_retried_witness :
  exists r rd' log,
    ReadWithRetry reluctant_source (new_reader default_config) stale_result =
      Some (r, rd', log) /\
    In (EvAttempt 2) log /\
    In (EvSleep (WaitBeforeRetry default_config 2)) log.
Proof.
  apply (proj1 (failed_attempt_is_retried reluctant_source
                  (new_reader default_config) stale_result) 1).
  - cbn. lia.
  - intros j Hj. unfold reluctant_source.
    destruct (Z.eqb_spec j 0); [reflexivity |].
    destruct (Z.eqb_spec j 1); [reflexivity | lia].
Defined.

(** C6, as the specification states it, fails: the attempts with
    counters 0 and 1 fail with FileNotFound and Unknown, both listed as
    non-retryable, and each is followed by a sleep and a further
    attempt; the third attempt succeeds. *)
Lemma non_retryable_kinds_are_retried :
  non_retryable (error (failure_result default_config 0 (reluctant_source 0))) = true /\
  non_retryable (error (failure_result default_config 1 (reluctant_source 1))) = true /\
  RequiresRetry (failure_result default_config 0 (reluctant_source 0)) = false /\
  RequiresRetry (failure_result default_config 1 (reluctant_source 1)) = false /\
  ReadWithRetry reluctant_source (new_reader default_config) stale_result =
    Some (mkIOResult Success (Text "File read successfully") 4 2 true,
          mkReader default_config 2 0 1,
          [EvAttempt 0; EvSleep 100; EvAttempt 1; EvSleep 200; EvAttempt 2]).
Proof.
  repeat split; vm_compute; reflexivity.
Qed.

(** ** Properties of the chunked reader *)

(** A read of the chunk loop that did not fail: the clock value, the
    duration and the number of bytes delivered. *)
Record GoodChunk : Set := mkGood {
  gc_now : Z;
  gc_duration : Z;
  gc_gcount : Z
}.

(** The condition under which the loop hands a chunk to the detector. *)
Definition chunk_flagged (cfg : RobustIOConfig) (duration to_read : Z) : bool :=
  detect_interference cfg && DetectInterference cfg duration to_read.

(** The events of the successful reads [cs], the first at offset
    [bytes_read]. *)
Fixpoint chunk_events (cfg : RobustIOConfig) (has_cb : bool) (file_size : Z)
    (cs : list GoodChunk) (bytes_read : Z) : list ChunkEvent :=
  match cs with
  | [] => []
  | c :: rest =>
    let to_read := Z.min (read_chunk_size cfg) (file_size - bytes_read) in
    [EvRead bytes_read to_read]
    ++ (if has_cb then [EvProgress (bytes_read + gc_gcount c) file_size] else [])
    ++ (if chunk_flagged cfg (gc_duration c) to_read
        then [EvRecord (gc_duration c) to_read] else [])
    ++ chunk_events cfg has_cb file_size rest (bytes_read + gc_gcount c)
  end.

(** The detector after the successful reads [cs]. *)
Fixpoint feed_detector (cfg : RobustIOConfig) (file_size : Z)
    (cs : list GoodChunk) (bytes_read : Z) (det : InterferenceDetector)
  : InterferenceDetector :=
  match cs with
  | [] => det
  | c :: rest =>
    let to_read := Z.min (read_chunk_size cfg) (file_size - bytes_read) in
    feed_detector cfg file_size rest (bytes_read + gc_gcount c)
      (if chunk_flagged cfg (gc_duration c) to_read
       then RecordIOTiming det (gc_now c) (gc_duration c) to_read
       else det)
  end.

(** The cumulative byte count after the reads [cs]. *)
Fixpoint bytes_after (cs : list GoodChunk) (bytes_read : Z) : Z :=
  match cs with
  | [] => bytes_read
  | c :: rest => bytes_after rest (bytes_read + gc_gcount c)
  end.

(** The loop condition holds before each of the reads [cs]. *)
Fixpoint in_progress (file_size : Z) (cs : list GoodChunk) (bytes_read : Z)
  : Prop :=
  match cs with
  | [] => True
  | c :: rest =>
    bytes_read < file_size /\ in_progress file_size rest (bytes_read + gc_gcount c)
  end.

(** The reads numbered [i], [i+1], ... of the source are the successful
    reads [cs]. *)
Definition plays (env : nat -> ChunkRead) (i : nat) (cs : list GoodChunk) : Prop :=
  forall k c, nth_error cs k = Some c ->
    env (i + k)%nat = Chunk (gc_now c) (gc_duration c) false (gc_gcount c).

Lemma plays_tail env i c rest :
  plays env i (c :: rest) -> plays env (S i) rest.
Proof.
  intros Hp k c' Hk. replace (S i + k)%nat with (i + S k)%nat by lia.
  now apply Hp.
Qed.

(** The loop, run over successful reads, is the fold of [chunk_events]
    and [feed_detector]. *)
Lemma chunk_loop_run (env : nat -> ChunkRead) (has_cb : bool) (file_size : Z)
    (cs : list GoodChunk) :
  forall (fuel i : nat) (bytes_read : Z) (s : ChunkState),
    plays env i cs ->
    in_progress file_size cs bytes_read ->
    exists rd',
      config_ rd' = config_ (cs_reader s) /\
      chunk_loop env has_cb file_size (List.length cs + fuel) i bytes_read s =
      chunk_loop env has_cb file_size fuel (i + List.length cs)
        (bytes_after cs bytes_read)
        (mkChunkState rd'
           (feed_detector (config_ (cs_reader s)) file_size cs bytes_read
                          (cs_detector s))
           (cs_log s
            ++ chunk_events (config_ (cs_reader s)) has_cb file_size cs
                            bytes_read)).
Proof.
  induction cs as [| c rest IH]; intros fuel i bytes_read s Hplays Hprog.
  - exists (cs_reader s). split; [reflexivity |].
    cbn. rewrite app_nil_r, Nat.add_0_r. now destruct s.
  - destruct Hprog as [Hlt Hprog].
    pose proof (Hplays 0%nat c eq_refl) as Henv. rewrite Nat.add_0_r in Henv.
    apply plays_tail in Hplays.
    cbn [List.length Nat.add chunk_loop].
    apply Z.ltb_lt in Hlt. rewrite Hlt, Henv.
    cbn [log_chunk cs_reader cs_detector cs_log config_].
    set (cfg := config_ (cs_reader s)).
    set (to_read := Z.min (read_chunk_size cfg) (file_size - bytes_read)).
    cbn [chunk_events feed_detector bytes_after]. fold cfg to_read.
    unfold chunk_flagged.
    match goal with
    | |- context [chunk_loop env has_cb file_size (List.length rest + fuel)
                    (S i) _ ?s1] =>
      destruct (IH fuel (S i) (bytes_read + gc_gcount c) s1 Hplays Hprog)
        as (rd' & Hcfg & Heq)
    end.
    exists rd'.
    destruct has_cb;
      destruct (detect_interference cfg && DetectInterference cfg (gc_duration c) to_read);
      cbn [log_chunk cs_reader cs_detector cs_log config_ count_interference] in *;
      (split; [exact Hcfg |]);
      rewrite Heq; fold cfg;
      replace (S i + List.length rest)%nat with (i + S (List.length rest))%nat by lia;
      rewrite <- ?app_assoc; reflexivity.
Qed.

(** C8, as the code has it.  Let the first reads of the source be the
    successful reads [cs], none of which ends the loop early.  Every read
    asks for [min (read_chunk_size, file_size - bytes_read)] bytes at the
    current offset; after each one the callback, if any, receives the
    cumulative count; and a chunk's (duration, size) goes to the
    detector only when that chunk is flagged by [DetectInterference]
    ([chunk_flagged]), not for every chunk.  If the reads [cs] cover the
    file the result is Success.  If the read after them fails, the result
    is ReadError with [bytes_processed] the count reached before it, and
    the failed read is the last event: it is not retried. *)
Theorem ReadFileChunked_contract (env : nat -> ChunkRead) (has_cb : bool)
    (file_size : Z) (cs : list GoodChunk) (fuel : nat) (s : ChunkState) :
  plays env 0 cs ->
  in_progress file_size cs 0 ->
  (List.length cs < fuel)%nat ->
  (file_size <= bytes_after cs 0 ->
   exists rd',
     ReadFileChunked (Opened file_size) env has_cb fuel s =
     Some (mkIOResult Success (Text "File read successfully")
                      (bytes_after cs 0) 0 false,
           mkChunkState rd'
             (feed_detector (config_ (cs_reader s)) file_size cs 0 (cs_detector s))
             (cs_log s
              ++ chunk_events (config_ (cs_reader s)) has_cb file_size cs 0))) /\
  (bytes_after cs 0 < file_size ->
   forall now duration gcount,
     env (List.length cs) = Chunk now duration true gcount ->
     exists rd',
       ReadFileChunked (Opened file_size) env has_cb fuel s =
       Some (mkIOResult ReadError
               (Format "Read failed at offset {}" [bytes_after cs 0])
               (bytes_after cs 0) 0 false,
             mkChunkState rd'
               (feed_detector (config_ (cs_reader s)) file_size cs 0
                              (cs_detector s))
               (cs_log s
                ++ chunk_events (config_ (cs_reader s)) has_cb file_size cs 0
                ++ [EvRead (bytes_after cs 0)
                           (Z.min (read_chunk_size (config_ (cs_reader s)))
                                  (file_size - bytes_after cs 0))]))).
Proof.
  intros Hplays Hprog Hfuel. cbn [ReadFileChunked].
  destruct (chunk_loop_run env has_cb file_size cs
              (fuel - List.length cs) 0 0 s Hplays Hprog)
    as (rd' & Hcfg & Heq).
  replace (List.length cs + (fuel - List.length cs))%nat with fuel in Heq by lia.
  rewrite Heq. cbn [Nat.add].
  destruct (fuel - List.length cs)%nat as [| f] eqn:Hf; [lia |].
  split.
  - intros Hdone. exists rd'. cbn [chunk_loop].
    apply Z.ltb_ge in Hdone. now rewrite Hdone.
  - intros Hmore now duration gcount Henv. cbn [chunk_loop].
    apply Z.ltb_lt in Hmore. rewrite Hmore, Henv.
    unfold log_chunk. cbn [cs_reader cs_detector cs_log]. rewrite Hcfg.
    destruct (DetectInterference (config_ (cs_reader s)) duration _);
      eexists; rewrite <- app_assoc; reflexivity.
Qed.

(** A 2500-byte file read in chunks of 1024 bytes; the second read is
    slow (700 ms). *)
Definition small_chunks : RobustIOConfig :=
  mkConfig 5 100 true true true 1024 (4096 * 1024) true 500 false true.

Definition three_reads : list GoodChunk :=
  [mkGood 10 1 1024; mkGood 20 700 1024; mkGood 30 1 452].

Definition three_reads_source (i : nat) : ChunkRead :=
  match nth_error three_reads i with
  | Some c => Chunk (gc_now c) (gc_duration c) false (gc_gcount c)
  | None => ChunkThrows "end"
  end.

Lemma ReadFileChunked_contract_witness :
  exists rd',
    ReadFileChunked (Opened 2500) three_reads_source true 4
      (mkChunkState (new_reader small_chunks) detector_init []) =
    Some (mkIOResult Success (Text "File read successfully") 2500 0 false,
          mkChunkState rd'
            (RecordIOTiming detector_init 20 700 1024)
            [EvRead 0 1024; EvProgress 1024 2500;
             EvRead 1024 1024; EvProgress 2048 2500; EvRecord 700 1024;
             EvRead 2048 452; EvProgress 2500 2500]).
Proof.
  apply (proj1 (ReadFileChunked_contract three_reads_source true 2500
                  three_reads 4
                  (mkChunkState (new_reader small_chunks) detector_init [])
                  ltac:(intros k c Hk; unfold three_reads_source;
                        cbn [Nat.add]; now rewrite Hk)
                  ltac:(cbn; lia)
                  ltac:(cbn; lia))).
  cbn. lia.
Defined.

(** C8, as the specification states it, fails: with interference
    detection enabled, a 10-byte file read in one chunk in 1 ms leaves
    the detector as it was; the chunk's timing is not recorded. *)
Lemma fast_chunk_is_not_recorded :
  detect_interference default_config = true /\
  ReadFileChunked (Opened 10) (fun _ => Chunk 0 1 false 10) true 2
    (mkChunkState (new_reader default_config) detector_init []) =
  Some (mkIOResult Success (Text "File read successfully") 10 0 false,
        mkChunkState (new_reader default_config) detector_init
          [EvRead 0 10; EvProgress 10 10]).
Proof.
  split; vm_compute; reflexivity.
Qed.

(** ** The reader's statistics *)

(** A failed read that [DetectInterference] flags. *)
Definition attempt_flagged (cfg : RobustIOConfig) (a : Attempt) : bool :=
  match a with
  | Reads file_size duration true _ => DetectInterference cfg duration file_size
  | _ => false
  end.

(** How many of the [n] attempts from counter [r] on are flagged. *)
Fixpoint flagged_run (cfg : RobustIOConfig) (env : Z -> Attempt) (r : Z)
    (n : nat) : Z :=
  match n with
  | O => 0
  | S n' =>
    (if attempt_flagged cfg (env r) then 1 else 0) + flagged_run cfg env (r + 1) n'
  end.

(** How many of the [n] attempts from counter [r] on come after a sleep. *)
Fixpoint sleeps_run (r : Z) (n : nat) : Z :=
  match n with
  | O => 0
  | S n' => (if 0 <? r then 1 else 0) + sleeps_run (r + 1) n'
  end.

(** The reader with its three counters advanced. *)
Definition reader_add (rd : Reader) (retries flagged recovered_ : Z) : Reader :=
  mkReader (config_ rd) (total_retries_ rd + retries)
           (interference_count_ rd + flagged) (recovered_errors_ rd + recovered_).

(** The milliseconds slept in a log. *)
Fixpoint total_sleep (log : list Event) : Z :=
  match log with
  | [] => 0
  | EvSleep ms :: rest => ms + total_sleep rest
  | EvAttempt _ :: rest => total_sleep rest
  end.

Lemma reader_add_add (rd : Reader) (a b c a' b' c' : Z) :
  reader_add (reader_add rd a b c) a' b' c' =
  reader_add rd (a + a') (b + b') (c + c').
Proof. unfold reader_add. cbn. f_equal; lia. Qed.

Lemma sleeps_run_pos (r : Z) (n : nat) :
  0 < r -> sleeps_run r n = Z.of_nat n.
Proof.
  revert r. induction n as [| n IH]; intros r Hr; [reflexivity |].
  cbn [sleeps_run]. rewrite IH by lia.
  destruct (Z.ltb_spec 0 r); lia.
Qed.

Lemma sleeps_run_0 (n : nat) : sleeps_run 0 (S n) = Z.of_nat n.
Proof. cbn [sleeps_run]. rewrite sleeps_run_pos by lia. reflexivity. Qed.

Lemma flagged_run_snoc (cfg : RobustIOConfig) (env : Z -> Attempt) (r : Z)
    (n : nat) :
  flagged_run cfg env r (S n) =
  flagged_run cfg env r n
  + (if attempt_flagged cfg (env (r + Z.of_nat n)) then 1 else 0).
Proof.
  revert r. induction n as [| n IH]; intros r.
  - cbn [flagged_run]. replace (r + Z.of_nat 0) with r by lia. lia.
  - change (flagged_run cfg env r (S (S n)))
      with ((if attempt_flagged cfg (env r) then 1 else 0)
            + flagged_run cfg env (r + 1) (S n)).
    rewrite IH. cbn [flagged_run].
    replace (r + 1 + Z.of_nat n) with (r + Z.of_nat (S n)) by lia. lia.
Qed.

Lemma flagged_run_range (cfg : RobustIOConfig) (env : Z -> Attempt) (r : Z)
    (n : nat) :
  0 <= flagged_run cfg env r n <= Z.of_nat n.
Proof.
  revert r. induction n as [| n IH]; intros r; [cbn; lia |].
  cbn [flagged_run]. specialize (IH (r + 1)).
  destruct (attempt_flagged cfg (env r)); lia.
Qed.

Lemma attempt_flagged_success (cfg : RobustIOConfig) (a : Attempt) :
  attempt_succeeds a = true -> attempt_flagged cfg a = false.
Proof.
  destruct a as [| w | fs d failed g]; cbn; try reflexivity.
  now destruct failed.
Qed.

(** One turn of the loop after a failed attempt, with the counters. *)
Lemma retry_loop_failure_reader (env : Z -> Attempt) (fuel : nat) (retry : Z)
    (rd : Reader) (last_result : IOResult) (log : list Event) :
  retry <= max_retries (config_ rd) ->
  attempt_succeeds (env retry) = false ->
  retry_loop env (S fuel) retry rd last_result log =
  retry_loop env fuel (retry + 1)
    (reader_add rd (if 0 <? retry then 1 else 0)
                (if attempt_flagged (config_ rd) (env retry) then 1 else 0) 0)
    (failure_result (config_ rd) retry (env retry))
    (log ++ attempt_events (config_ rd) retry).
Proof.
  intros Hle Hfail. cbn [retry_loop].
  apply Z.leb_le in Hle. rewrite Hle.
  unfold attempt_events, failure_result, reader_add, attempt_flagged.
  destruct rd as [cfg t i rc]. cbn [config_ total_retries_ interference_count_
                                    recovered_errors_] in *.
  destruct (0 <? retry); destruct (env retry) as [| w | fs d failed g];
    cbn [config_ count_retry total_retries_ interference_count_
         recovered_errors_];
    rewrite <- ?app_assoc; cbn [app]; rewrite ?Z.add_0_r; try reflexivity.
  all: destruct failed; cbn in Hfail |- *.
  all: try (destruct (DetectInterference cfg d fs);
            cbn [count_interference config_ total_retries_ interference_count_
                 recovered_errors_];
            rewrite ?Z.add_0_r; reflexivity).
  all: rewrite Hfail; cbn; rewrite ?Z.add_0_r; reflexivity.
Qed.

(** One turn of the loop at a successful attempt, with the counters. *)
Lemma retry_loop_success_reader (env : Z -> Attempt) (fuel : nat) (retry : Z)
    (rd : Reader) (last_result : IOResult) (log : list Event)
    (file_size duration : Z) :
  retry <= max_retries (config_ rd) ->
  env retry = Reads file_size duration false file_size ->
  retry_loop env (S fuel) retry rd last_result log =
  Some (success_result file_size retry,
        reader_add rd (if 0 <? retry then 1 else 0) 0
                   (if 0 <? retry then 1 else 0),
        log ++ attempt_events (config_ rd) retry).
Proof.
  intros Hle Henv. cbn [retry_loop].
  apply Z.leb_le in Hle. rewrite Hle, Henv.
  unfold attempt_events, success_result, reader_add. rewrite Z.eqb_refl.
  cbn [negb]. destruct rd as [cfg t i rc].
  destruct (0 <? retry);
    cbn [config_ count_retry count_recovered total_retries_
         interference_count_ recovered_errors_];
    rewrite <- ?app_assoc; cbn [app]; rewrite ?Z.add_0_r; reflexivity.
Qed.

Lemma failure_result_fields (cfg : RobustIOConfig) (retry : Z) (a : Attempt) :
  IsSuccess (failure_result cfg retry a) = false /\
  retry_count (failure_result cfg retry a) = retry /\
  recovered (failure_result cfg retry a) = false.
Proof.
  destruct a as [| w | fs d failed g]; cbn; try tauto.
  destruct failed; cbn; [| tauto].
  destruct (DetectInterference cfg d fs); cbn; tauto.
Qed.

(** The loop with its counters: the reader it leaves is the one it
    found, advanced by the sleeps, the flagged failures and the
    recovery. *)
Lemma retry_loop_reader (cfg : RobustIOConfig) (env : Z -> Attempt) (d : nat) :
  forall (fuel : nat) (retry : Z) (rd : Reader) (last_result : IOResult)
         (log : list Event),
    config_ rd = cfg ->
    d = Z.to_nat (max_retries cfg + 1 - retry) ->
    (S d <= fuel)%nat ->
    retry <= max_retries cfg \/ recovered last_result = false ->
    exists r n,
      retry_loop env fuel retry rd last_result log =
        Some (r,
              reader_add rd (sleeps_run retry n) (flagged_run cfg env retry n)
                         (if recovered r then 1 else 0),
              log ++ events_run cfg retry n) /\
      LoopOutcome cfg env retry last_result r n.
Proof.
  induction d as [| d IH];
    intros fuel retry rd last_result log Hcfg Hd Hfuel Hlast;
    (destruct fuel as [| fuel]; [lia |]).
  - exists last_result, 0%nat. split.
    + rewrite retry_loop_exit by (rewrite Hcfg; lia).
      destruct Hlast as [Hle | ->]; [lia |].
      cbn [events_run sleeps_run flagged_run]. rewrite app_nil_r.
      unfold reader_add. rewrite !Z.add_0_r. now destruct rd.
    + eapply LoopOutcome_eq.
      * apply (Exhausted cfg env retry last_result). intros j Hj. lia.
      * destruct (Z.leb_spec retry (max_retries cfg)); [lia | reflexivity].
      * lia.
  - assert (retry <= max_retries cfg) as Hle by lia.
    destruct (attempt_succeeds (env retry)) eqn:Hs.
    + pose proof (attempt_flagged_success cfg _ Hs) as Hnf.
      apply attempt_succeeds_inv in Hs as (fs & dur & Henv).
      exists (success_result fs retry), 1%nat. split.
      * rewrite (retry_loop_success_reader env fuel retry rd last_result log
                   fs dur) by (rewrite ?Hcfg; assumption).
        rewrite Hcfg. cbn [events_run sleeps_run flagged_run].
        rewrite Hnf, app_nil_r, !Z.add_0_r. cbn [success_result recovered].
        reflexivity.
      * eapply LoopOutcome_eq.
        -- apply (FirstSuccess cfg env retry last_result 0 fs dur).
           ++ intros j Hj. lia.
           ++ rewrite <- Henv. f_equal. lia.
           ++ lia.
        -- f_equal. lia.
        -- reflexivity.
    + rewrite (retry_loop_failure_reader env fuel retry rd last_result log)
        by (rewrite ?Hcfg; assumption).
      rewrite Hcfg.
      destruct (IH fuel (retry + 1)
                   (reader_add rd (if 0 <? retry then 1 else 0)
                      (if attempt_flagged cfg (env retry) then 1 else 0) 0)
                   (failure_result cfg retry (env retry))
                   (log ++ attempt_events cfg retry))
        as (r & n & Hrun & Hout);
        [exact Hcfg | lia | lia
         | right; apply failure_result_fields |].
      exists r, (S n). split.
      * rewrite Hrun, reader_add_add. cbn [events_run sleeps_run flagged_run].
        rewrite <- app_assoc. now rewrite Z.add_0_l.
      * now apply LoopOutcome_step.
Qed.

Lemma ReadWithRetry_reader (env : Z -> Attempt) (rd : Reader)
    (uninit : IOResult) :
  0 <= max_retries (config_ rd) ->
  exists r n,
    ReadWithRetry env rd uninit =
      Some (r,
            reader_add rd (sleeps_run 0 n) (flagged_run (config_ rd) env 0 n)
                       (if recovered r then 1 else 0),
            events_run (config_ rd) 0 n) /\
    LoopOutcome (config_ rd) env 0 uninit r n.
Proof.
  intros Hmax. unfold ReadWithRetry, retry_fuel.
  destruct (retry_loop_reader (config_ rd) env
              (Z.to_nat (max_retries (config_ rd) + 1 - 0))
              (S (Z.to_nat (max_retries (config_ rd) + 1 - 0))) 0 rd uninit [])
    as (r & n & Hrun & Hout); try reflexivity; [now left |].
  now exists r, n.
Qed.

(** What the two ways the loop ends say about the result. *)
Lemma LoopOutcome_result (cfg : RobustIOConfig) (env : Z -> Attempt)
    (uninit r : IOResult) (n : nat) :
  0 <= max_retries cfg ->
  LoopOutcome cfg env 0 uninit r n ->
  1 <= Z.of_nat n <= max_retries cfg + 1 /\
  retry_count r = Z.of_nat n - 1 /\
  recovered r = IsSuccess r && (0 <? retry_count r) /\
  (IsSuccess r = true <->
   exists k, 0 <= k <= max_retries cfg /\ attempt_succeeds (env k) = true) /\
  (IsSuccess r = true ->
   attempt_succeeds (env (Z.of_nat n - 1)) = true).
Proof.
  intros Hmax [m fs d Hfails Henv Hm | Hfails].
  - assert (attempt_succeeds (env (0 + Z.of_nat m)) = true) as Hs
      by (rewrite Henv; cbn; now rewrite Z.eqb_refl).
    cbn [success_result retry_count recovered IsSuccess error IOErrorType_eqb
         andb].
    split; [lia |]. split; [lia |]. split; [reflexivity |]. split; [split |].
    + intros _. exists (0 + Z.of_nat m). split; [lia | exact Hs].
    + reflexivity.
    + intros _. replace (Z.of_nat (S m) - 1) with (0 + Z.of_nat m) by lia.
      exact Hs.
  - destruct (Z.leb_spec 0 (max_retries cfg)); [| lia].
    destruct (failure_result_fields cfg (max_retries cfg)
                (env (max_retries cfg))) as (Hns & Hrc & Hrec).
    rewrite Hns, Hrc, Hrec. cbn [andb].
    split; [lia |]. split; [lia |]. split; [reflexivity |]. split; [split |].
    + discriminate.
    + intros (k & Hk & Hsk). rewrite Hfails in Hsk by lia. discriminate.
    + discriminate.
Qed.

(** X2. The bookkeeping of [ReadWithRetry] (for [max_retries >= 0]):
    the result's [retry_count] is the number of attempts made minus one,
    and [total_retries_] grows by exactly that; [recovered] is set
    exactly on a success after at least one retry, and
    [recovered_errors_] grows by one exactly then; [interference_count_]
    grows by the number of failed attempts [DetectInterference] flagged,
    which a successful attempt never is; the configuration is left as it
    was. *)
Theorem ReadWithRetry_statistics (env : Z -> Attempt) (rd rd' : Reader)
    (uninit r : IOResult) (log : list Event) :
  0 <= max_retries (config_ rd) ->
  ReadWithRetry env rd uninit = Some (r, rd', log) ->
  let n := Z.of_nat (count_attempts log) in
  1 <= n <= max_retries (config_ rd) + 1 /\
  config_ rd' = config_ rd /\
  retry_count r = n - 1 /\
  total_retries_ rd' = total_retries_ rd + (n - 1) /\
  recovered r = IsSuccess r && (0 <? retry_count r) /\
  recovered_errors_ rd' = recovered_errors_ rd + (if recovered r then 1 else 0) /\
  interference_count_ rd' =
    interference_count_ rd
    + flagged_run (config_ rd) env 0 (count_attempts log) /\
  0 <= interference_count_ rd' - interference_count_ rd
    <= n - (if IsSuccess r then 1 else 0).
Proof.
  intros Hmax Hrun.
  destruct (ReadWithRetry_reader env rd uninit Hmax) as (r0 & n0 & Hrun0 & Hout).
  rewrite Hrun in Hrun0. injection Hrun0 as -> -> ->.
  rewrite count_attempts_events_run. cbn zeta.
  destruct (LoopOutcome_result _ _ _ _ _ Hmax Hout)
    as (Hn & Hrc & Hrec & _ & Hlast).
  cbn [reader_add config_ total_retries_ interference_count_ recovered_errors_].
  destruct n0 as [| n0]; [cbn in Hn; lia |].
  rewrite sleeps_run_0.
  repeat split; try lia; try assumption.
  - pose proof (flagged_run_range (config_ rd) env 0 (S n0)). lia.
  - pose proof (flagged_run_range (config_ rd) env 0 n0) as Hrange.
    rewrite flagged_run_snoc.
    destruct (IsSuccess r0) eqn:Hs.
    + specialize (Hlast eq_refl).
      replace (Z.of_nat (S n0) - 1) with (0 + Z.of_nat n0) in Hlast by lia.
      rewrite (attempt_flagged_success _ _ Hlast). lia.
    + destruct (attempt_flagged _ _); lia.
Qed.

Lemma ReadWithRetry_statistics_witness :
  1 <= Z.of_nat (count_attempts
                   [EvAttempt 0; EvSleep 100; EvAttempt 1; EvSleep 200;
                    EvAttempt 2]) <= max_retries default_config + 1 /\
  config_ (mkReader default_config 2 2 1) = default_config /\
  retry_count (success_result 7 2) = 3 - 1 /\
  total_retries_ (mkReader default_config 2 2 1) = 0 + (3 - 1) /\
  recovered (success_result 7 2) =
    IsSuccess (success_result 7 2) && (0 <? retry_count (success_result 7 2)) /\
  recovered_errors_ (mkReader default_config 2 2 1) =
    0 + (if recovered (success_result 7 2) then 1 else 0) /\
  interference_count_ (mkReader default_config 2 2 1) =
    0 + flagged_run default_config
          (fun retry => if retry <? 2 then Reads 7 900 true 0 else Reads 7 1 false 7)
          0 3 /\
  0 <= interference_count_ (mkReader default_config 2 2 1) - 0
    <= 3 - (if IsSuccess (success_result 7 2) then 1 else 0).
Proof.
  apply (ReadWithRetry_statistics
           (fun retry => if retry <? 2 then Reads 7 900 true 0 else Reads 7 1 false 7)
           (new_reader default_config) (mkReader default_config 2 2 1)
           stale_result (success_result 7 2)
           [EvAttempt 0; EvSleep 100; EvAttempt 1; EvSleep 200; EvAttempt 2]).
  - cbn. lia.
  - vm_compute. reflexivity.
Defined.

(** ** When [ReadFile] succeeds; the time it sleeps *)

(** The counters of the first [n] attempts. *)
Definition first_attempts (n : nat) : list Z := map Z.of_nat (seq 0 n).

(** [VerifyFileAccess] lets the read go ahead. *)
Definition accessible (a : Access) : bool :=
  match a with Accessible => true | _ => false end.

(** One of the attempts the configuration allows succeeds. *)
Definition some_attempt_succeeds (cfg : RobustIOConfig) (env : Z -> Attempt)
  : bool :=
  existsb (fun k => attempt_succeeds (env k))
          (first_attempts (Z.to_nat (max_retries cfg + 1))).

Lemma some_attempt_succeeds_spec (cfg : RobustIOConfig) (env : Z -> Attempt) :
  some_attempt_succeeds cfg env = true <->
  exists k, 0 <= k <= max_retries cfg /\ attempt_succeeds (env k) = true.
Proof.
  unfold some_attempt_succeeds, first_attempts. rewrite existsb_exists. split.
  - intros (k & Hin & Hk). apply in_map_iff in Hin as (i & <- & Hi).
    apply in_seq in Hi. exists (Z.of_nat i). split; [lia | exact Hk].
  - intros (k & Hk & Hs). exists k. split; [| exact Hs].
    apply in_map_iff. exists (Z.to_nat k). split; [lia |]. apply in_seq. lia.
Qed.

Lemma accessible_spec (a : Access) :
  accessible a = IsSuccess (VerifyFileAccess a).
Proof. now destruct a. Qed.

Lemma ReadFile_not_accessible (a : Access) (env : Z -> Attempt) (rd : Reader)
    (uninit : IOResult) :
  accessible a = false ->
  ReadFile a env rd uninit = Some (VerifyFileAccess a, rd, []).
Proof. unfold ReadFile. now destruct a. Qed.

Lemma ReadFile_accessible (a : Access) (env : Z -> Attempt) (rd : Reader)
    (uninit : IOResult) :
  accessible a = true ->
  ReadFile a env rd uninit = ReadWithRetry env rd uninit.
Proof. unfold ReadFile. now destruct a. Qed.

(** [ReadFile] always returns; it succeeds exactly when the file is
    accessible and one of the attempts allowed succeeds. *)
Lemma ReadFile_result (a : Access) (env : Z -> Attempt) (rd : Reader)
    (uninit : IOResult) :
  0 <= max_retries (config_ rd) ->
  exists r rd' n,
    ReadFile a env rd uninit = Some (r, rd', events_run (config_ rd) 0 n) /\
    Z.of_nat n <= max_retries (config_ rd) + 1 /\
    retry_count r = Z.max (Z.of_nat n - 1) 0 /\
    IsSuccess r = accessible a && some_attempt_succeeds (config_ rd) env.
Proof.
  intros Hmax. destruct (accessible a) eqn:Ha.
  - rewrite ReadFile_accessible by exact Ha.
    destruct (ReadWithRetry_reader env rd uninit Hmax) as (r & n & -> & Hout).
    destruct (LoopOutcome_result _ _ _ _ _ Hmax Hout)
      as (Hn & Hrc & _ & Hiff & _).
    eexists r, _, n. split; [reflexivity |]. split; [lia |]. split; [lia |].
    cbn [andb]. apply eq_true_iff_eq.
    now rewrite Hiff, some_attempt_succeeds_spec.
  - rewrite ReadFile_not_accessible by exact Ha.
    exists (VerifyFileAccess a), rd, 0%nat. split; [reflexivity |].
    split; [cbn; lia |]. split; [now destruct a |].
    now rewrite <- accessible_spec, Ha.
Qed.

(** X3. [ReadFile] returns on every input and, for [max_retries >= 0],
    succeeds exactly when [VerifyFileAccess] passes and one of the
    attempts with counters [0 .. max_retries] reads the whole file; a
    file that would have been readable at a later attempt is given
    up. *)
Theorem ReadFile_success_iff (a : Access) (env : Z -> Attempt) (rd : Reader)
    (uninit : IOResult) :
  0 <= max_retries (config_ rd) ->
  exists r rd' log,
    ReadFile a env rd uninit = Some (r, rd', log) /\
    (IsSuccess r = true <->
     a = Accessible /\
     exists k, 0 <= k <= max_retries (config_ rd) /\
               attempt_succeeds (env k) = true).
Proof.
  intros Hmax.
  destruct (ReadFile_result a env rd uninit Hmax)
    as (r & rd' & n & Hrun & _ & _ & Hs).
  exists r, rd', (events_run (config_ rd) 0 n). split; [exact Hrun |].
  rewrite Hs, andb_true_iff, some_attempt_succeeds_spec.
  assert (accessible a = true <-> a = Accessible) as ->
    by (destruct a; cbn; split; congruence).
  reflexivity.
Qed.

Lemma ReadFile_success_iff_witness :
  exists r rd' log,
    ReadFile Accessible flaky_source (new_reader default_config) stale_result
      = Some (r, rd', log) /\
    (IsSuccess r = true <->
     Accessible = Accessible /\
     exists k, 0 <= k <= max_retries (config_ (new_reader default_config)) /\
               attempt_succeeds (flaky_source k) = true).
Proof.
  apply (ReadFile_success_iff Accessible flaky_source
           (new_reader default_config) stale_result).
  cbn. lia.
Defined.

Lemma total_sleep_app (l1 l2 : list Event) :
  total_sleep (l1 ++ l2) = total_sleep l1 + total_sleep l2.
Proof.
  induction l1 as [| [ms | r] l1 IH]; cbn [app total_sleep]; lia.
Qed.

Lemma WaitBeforeRetry_cap (cfg : RobustIOConfig) (r : Z) :
  if exponential_backoff cfg
  then WaitBeforeRetry cfg r <= 5000
  else WaitBeforeRetry cfg r = retry_delay_ms cfg.
Proof.
  unfold WaitBeforeRetry. destruct (exponential_backoff cfg); lia.
Qed.

Lemma total_sleep_events_run (cfg : RobustIOConfig) (r : Z) (n : nat) :
  if exponential_backoff cfg
  then total_sleep (events_run cfg r n) <= 5000 * sleeps_run r n
  else total_sleep (events_run cfg r n) = retry_delay_ms cfg * sleeps_run r n.
Proof.
  pose proof (WaitBeforeRetry_cap cfg) as Hcap.
  destruct (exponential_backoff cfg); revert r;
    (induction n as [| n IH]; intros r; [cbn; lia |]);
    cbn [events_run sleeps_run]; rewrite total_sleep_app;
    specialize (IH (r + 1)); specialize (Hcap r);
    unfold attempt_events; destruct (0 <? r); cbn [app total_sleep]; lia.
Qed.

(** X4. The time [ReadWithRetry] spends sleeping (for
    [max_retries >= 0]): under exponential backoff no sleep is longer
    than 5000 ms, so the total is at most 5000 ms for each retry made;
    without backoff it is exactly [retry_delay_ms] for each retry
    made. *)
Theorem ReadWithRetry_sleep_budget (env : Z -> Attempt) (rd rd' : Reader)
    (uninit r : IOResult) (log : list Event) :
  0 <= max_retries (config_ rd) ->
  ReadWithRetry env rd uninit = Some (r, rd', log) ->
  (forall ms, In (EvSleep ms) log ->
     if exponential_backoff (config_ rd) then ms <= 5000
     else ms = retry_delay_ms (config_ rd)) /\
  (if exponential_backoff (config_ rd)
   then total_sleep log <= 5000 * retry_count r
   else total_sleep log = retry_delay_ms (config_ rd) * retry_count r) /\
  retry_count r <= max_retries (config_ rd).
Proof.
  intros Hmax Hrun.
  destruct (ReadWithRetry_reader env rd uninit Hmax) as (r0 & n0 & Hrun0 & Hout).
  rewrite Hrun in Hrun0. injection Hrun0 as -> _ ->.
  destruct (LoopOutcome_result _ _ _ _ _ Hmax Hout) as (Hn & Hrc & _).
  split; [| split; [| lia]].
  - intros ms Hin. clear - Hin.
    revert Hin. generalize 0 as r. induction n0 as [| n IH]; intros r Hin;
      [destruct Hin |].
    cbn [events_run] in Hin. apply in_app_or in Hin as [Hin | Hin];
      [| exact (IH _ Hin)].
    unfold attempt_events in Hin. pose proof (WaitBeforeRetry_cap (config_ rd) r).
    destruct (0 <? r); cbn in Hin.
    + destruct Hin as [[= <-] | [[=] | []]]. assumption.
    + destruct Hin as [[=] | []].
  - pose proof (total_sleep_events_run (config_ rd) 0 n0) as Hsum.
    destruct n0 as [| n0]; [cbn in Hn; lia |].
    rewrite sleeps_run_0 in Hsum.
    replace (retry_count r0) with (Z.of_nat n0) by lia. exact Hsum.
Qed.

Lemma ReadWithRetry_sleep_budget_witness :
  (forall ms,
     In (EvSleep ms)
        [EvAttempt 0; EvSleep 100; EvAttempt 1; EvSleep 200; EvAttempt 2] ->
     if exponential_backoff (config_ (new_reader default_config))
     then ms <= 5000
     else ms = retry_delay_ms (config_ (new_reader default_config))) /\
  (if exponential_backoff (config_ (new_reader default_config))
   then total_sleep
          [EvAttempt 0; EvSleep 100; EvAttempt 1; EvSleep 200; EvAttempt 2]
        <= 5000 * retry_count (success_result 7 2)
   else total_sleep
          [EvAttempt 0; EvSleep 100; EvAttempt 1; EvSleep 200; EvAttempt 2]
        = retry_delay_ms (config_ (new_reader default_config))
          * retry_count (success_result 7 2)) /\
  retry_count (success_result 7 2)
    <= max_retries (config_ (new_reader default_config)).
Proof.
  apply (ReadWithRetry_sleep_budget flaky_source (new_reader default_config)
           (mkReader default_config 2 0 1) stale_result (success_result 7 2)
           [EvAttempt 0; EvSleep 100; EvAttempt 1; EvSleep 200; EvAttempt 2]).
  - cbn. lia.
  - vm_compute. reflexivity.
Defined.

(** ** The helpers that read a whole file *)

(** [helpers::IsFileCorrupted]: a [RobustFileReader] with the default
    configuration reads the file; the answer is [!result.IsSuccess()]. *)
Definition IsFileCorrupted (a : Access) (env : Z -> Attempt)
    (uninit : IOResult) : option bool :=
  match ReadFile a env (new_reader default_config) uninit with
  | None => None
  | Some (result, _, _) => Some (negb (IsSuccess result))
  end.

(** The configuration [helpers::RepairFile] builds: the defaults with
    [max_retries = 10], [retry_delay_ms = 200] and
    [exponential_backoff = true]. *)
Definition repair_config : RobustIOConfig :=
  mkConfig 10 200 true
           (verify_checksum default_config) (verify_file_size default_config)
           (read_chunk_size default_config) (buffer_size default_config)
           (detect_interference default_config)
           (interference_threshold_ms default_config)
           (fail_fast default_config) (log_errors default_config).

(** [helpers::RepairFile]: the result of [ReadFile]; the reader and the
    events are kept beside it for the properties below. *)
Definition RepairFile (a : Access) (env : Z -> Attempt) (uninit : IOResult)
  : option (IOResult * Reader * list Event) :=
  ReadFile a env (new_reader repair_config) uninit.

Lemma total_sleep_default (n : nat) :
  (n <= 6)%nat -> 0 <= total_sleep (events_run default_config 0 n) <= 3100.
Proof.
  intros Hn. do 7 (destruct n as [| n]; [vm_compute; split; discriminate |]).
  lia.
Qed.

Lemma total_sleep_repair (n : nat) :
  (n <= 11)%nat -> 0 <= total_sleep (events_run repair_config 0 n) <= 31200.
Proof.
  intros Hn. do 12 (destruct n as [| n]; [vm_compute; split; discriminate |]).
  lia.
Qed.

(** X5. [IsFileCorrupted] answers false exactly when the file is
    accessible and one of six attempts reads it completely: a missing or
    locked file, and a file that stays unreadable for six attempts, are
    all reported as corrupted.  [RepairFile] repairs nothing: it is
    [ReadFile] with up to eleven attempts, succeeds exactly when the
    file is accessible and one of them reads it, and sleeps between 0
    and 31200 ms (200, 400, 800, 1600, 3200, then 5000 five times) in
    total. *)
Theorem helpers_read_whole_file (a : Access) (env : Z -> Attempt)
    (uninit : IOResult) :
  IsFileCorrupted a env uninit =
    Some (negb (accessible a
                && existsb (fun k => attempt_succeeds (env k)) (first_attempts 6))) /\
  (accessible a = false -> IsFileCorrupted a env uninit = Some true) /\
  exists r rd' log,
    RepairFile a env uninit = Some (r, rd', log) /\
    IsSuccess r =
      accessible a
      && existsb (fun k => attempt_succeeds (env k)) (first_attempts 11) /\
    (count_attempts log <= 11)%nat /\
    0 <= total_sleep log <= 31200.
Proof.
  assert (IsFileCorrupted a env uninit =
          Some (negb (accessible a
                      && existsb (fun k => attempt_succeeds (env k))
                                 (first_attempts 6)))) as Hcorrupt.
  { unfold IsFileCorrupted.
    destruct (ReadFile_result a env (new_reader default_config) uninit)
      as (r & rd' & n & -> & _ & _ & ->); [cbn; lia |].
    reflexivity. }
  split; [exact Hcorrupt |]. split.
  - intros Ha. now rewrite Hcorrupt, Ha.
  - unfold RepairFile.
    destruct (ReadFile_result a env (new_reader repair_config) uninit)
      as (r & rd' & n & -> & Hn & _ & Hs); [cbn; lia |].
    exists r, rd', (events_run repair_config 0 n).
    split; [reflexivity |]. split; [exact Hs |].
    cbn in Hn. split.
    + rewrite count_attempts_events_run. lia.
    + apply total_sleep_repair. lia.
Qed.

(** ** Reading with a checksum *)

(** [RobustFileReader::ReadFileVerified].  [data] is the content of the
    vector when [ReadFile] returns. *)
Definition ReadFileVerified (a : Access) (env : Z -> Attempt)
    (data : list byte) (expected_crc : Z) (rd : Reader) (uninit : IOResult)
  : option (IOResult * Reader * list Event) :=
  match ReadFile a env rd uninit with
  | None => None
  | Some (result, rd, log) =>
    if negb (IsSuccess result) then Some (result, rd, log)
    else
      (* Verify CRC *)
      let actual_crc := Crc32.CalculateCRC32 data in
      if negb (actual_crc =? expected_crc) then
        Some (mkIOResult ChecksumMismatch
                (Format "CRC mismatch: expected {:08X}, got {:08X}"
                        [expected_crc; actual_crc])
                (Z.of_nat (List.length data)) 0 false,
              rd, log)
      else Some (result, rd, log)
  end.

(** X6. [ReadFileVerified] is [ReadFile] followed by one comparison of
    checksums: a failed read is passed on as it is; a read that succeeds
    is passed on when the CRC-32/ISO-HDLC of the data equals
    [expected_crc], and otherwise replaced by ChecksumMismatch with the
    size of the data, [retry_count] 0 and [recovered] false, whatever
    the read reported.  The reader and the events are those of
    [ReadFile]: a mismatch is never read again.  In particular, data
    that differs from the expected content within four consecutive bytes
    is always rejected. *)
Theorem ReadFileVerified_contract (a : Access) (env : Z -> Attempt)
    (data : list byte) (expected_crc : Z) (rd : Reader) (uninit : IOResult) :
  (forall result rd' log,
     ReadFile a env rd uninit = Some (result, rd', log) ->
     IsSuccess result = false ->
     ReadFileVerified a env data expected_crc rd uninit =
     Some (result, rd', log)) /\
  (forall result rd' log,
     ReadFile a env rd uninit = Some (result, rd', log) ->
     IsSuccess result = true ->
     Crc32.crc32_iso_hdlc data = expected_crc ->
     ReadFileVerified a env data expected_crc rd uninit =
     Some (result, rd', log)) /\
  (forall result rd' log,
     ReadFile a env rd uninit = Some (result, rd', log) ->
     IsSuccess result = true ->
     Crc32.crc32_iso_hdlc data <> expected_crc ->
     ReadFileVerified a env data expected_crc rd uninit =
     Some (mkIOResult ChecksumMismatch
             (Format "CRC mismatch: expected {:08X}, got {:08X}"
                     [expected_crc; Crc32.crc32_iso_hdlc data])
             (Z.of_nat (List.length data)) 0 false,
           rd', log)) /\
  (forall pre mid mid' suf result rd' log,
     data = pre ++ mid' ++ suf ->
     expected_crc = Crc32.CalculateCRC32 (pre ++ mid ++ suf) ->
     List.length mid = List.length mid' ->
     (List.length mid <= 4)%nat ->
     mid <> mid' ->
     ReadFileVerified a env data expected_crc rd uninit =
       Some (result, rd', log) ->
     IsSuccess result = false).
Proof.
  unfold ReadFileVerified. rewrite <- Crc32.CalculateCRC32_reference.
  split; [| split; [| split]].
  - intros result rd' log -> Hs. now rewrite Hs.
  - intros result rd' log -> Hs <-. now rewrite Hs, Z.eqb_refl.
  - intros result rd' log -> Hs Hne. rewrite Hs. cbn [negb].
    apply Z.eqb_neq in Hne. now rewrite Hne.
  - intros pre mid mid' suf result rd' log -> -> Hlen Hshort Hne.
    pose proof (Crc32.CalculateCRC32_burst pre mid mid' suf Hlen Hshort Hne)
      as Hcrc.
    destruct (ReadFile a env rd uninit) as [[[r0 rd0] log0] |]; [| discriminate].
    destruct (IsSuccess r0) eqn:Hs; cbn [negb].
    + destruct (Z.eqb_spec (Crc32.CalculateCRC32 (pre ++ mid' ++ suf))
                  (Crc32.CalculateCRC32 (pre ++ mid ++ suf))) as [Heq | _];
        [congruence |].
      cbn [negb]. now intros [= <- _ _].
    + now intros [= <- _ _].
Qed.

(** ** The interference detector *)

(** The last [n] elements of a list. *)
Definition last_n {A} (n : nat) (l : list A) : list A :=
  skipn (List.length l - n) l.

(** One timing handed to [RecordIOTiming]: the clock value at the call,
    the duration and the size. *)
Definition record_sample (d : InterferenceDetector) (s : IOSample)
  : InterferenceDetector :=
  RecordIOTiming d (timestamp s) (duration_ms s) (bytes s).

(** The sum of the durations, as a mathematical integer. *)
Fixpoint sum_durations (samples : list IOSample) : Z :=
  match samples with
  | [] => 0
  | s :: rest => duration_ms s + sum_durations rest
  end.

(** The level for a mean duration, as [DetectCurrentLevel] has it. *)
Definition level_of_mean (avg : Z) : InterferenceLevel :=
  if avg <? 100 then None_
  else if avg <? 300 then Low
  else if avg <? 1000 then Medium
  else if avg <? 3000 then High
  else Critical.

Lemma DetectCurrentLevel_samples (d : InterferenceDetector) :
  recent_samples_ (snd (DetectCurrentLevel d)) = recent_samples_ d.
Proof.
  unfold DetectCurrentLevel.
  destruct (recent_samples_ d) eqn:Hs; cbn; [exact Hs | reflexivity].
Qed.

Lemma RecordIOTiming_samples (d : InterferenceDetector) (now duration bytes_ : Z) :
  recent_samples_ (RecordIOTiming d now duration bytes_) =
  let samples := recent_samples_ d ++ [mkSample now duration bytes_] in
  if (20 <? Z.of_nat (List.length samples)) then tl samples else samples.
Proof.
  unfold RecordIOTiming. now rewrite DetectCurrentLevel_samples.
Qed.

Lemma last_n_all {A} (n : nat) (l : list A) :
  (List.length l <= n)%nat -> last_n n l = l.
Proof.
  intros Hlen. unfold last_n.
  now replace (List.length l - n)%nat with 0%nat by lia.
Qed.

Lemma last_n_length {A} (n : nat) (l : list A) :
  List.length (last_n n l) = Nat.min (List.length l) n.
Proof. unfold last_n. rewrite length_skipn. lia. Qed.

Lemma tl_skipn_snoc {A} (k : nat) (l : list A) (x : A) :
  (k < List.length l)%nat ->
  tl (skipn k l ++ [x]) = skipn (S k) (l ++ [x]).
Proof.
  revert l. induction k as [| k IH]; intros [| y l] Hk; cbn in Hk; try lia.
  - reflexivity.
  - cbn [skipn app]. rewrite IH by lia. reflexivity.
Qed.

(** Recording on a window of at most 20 samples keeps the last 20 of
    the window and the new sample. *)
Lemma record_sample_window (d : InterferenceDetector) (s : IOSample)
    (l : list IOSample) :
  recent_samples_ d = last_n 20 l ->
  recent_samples_ (record_sample d s) = last_n 20 (l ++ [s]).
Proof.
  intros Hd. unfold record_sample. rewrite RecordIOTiming_samples. cbn zeta.
  replace (mkSample (timestamp s) (duration_ms s) (bytes s)) with s
    by now destruct s.
  rewrite Hd, length_app, last_n_length. cbn [List.length].
  destruct (Nat.le_gt_cases 20 (List.length l)) as [Hfull | Hroom].
  - rewrite Nat.min_r by lia.
    destruct (Z.ltb_spec 20 (Z.of_nat (20 + 1))) as [_ | Hbad]; [| lia].
    unfold last_n. rewrite tl_skipn_snoc by lia.
    rewrite length_app. cbn [List.length]. f_equal. lia.
  - rewrite Nat.min_l by lia.
    destruct (Z.ltb_spec 20 (Z.of_nat (List.length l + 1))) as [Hbad | _];
      [lia |].
    rewrite !last_n_all; [reflexivity | | lia].
    rewrite length_app. cbn [List.length]. lia.
Qed.

Lemma record_samples_window (samples : list IOSample) :
  forall (d : InterferenceDetector) (l : list IOSample),
    recent_samples_ d = last_n 20 l ->
    recent_samples_ (fold_left record_sample samples d) =
    last_n 20 (l ++ samples).
Proof.
  induction samples as [| s samples IH]; intros d l Hd; cbn [fold_left].
  - now rewrite app_nil_r.
  - rewrite (IH _ (l ++ [s])); [now rewrite <- app_assoc |].
    now apply record_sample_window.
Qed.

(** The [uint64_t] accumulation of [DetectCurrentLevel] is the plain
    sum as long as that stays below [2 ^ 64]. *)
Lemma sum_durations_nonneg (samples : list IOSample) :
  Forall (fun s => 0 <= duration_ms s) samples -> 0 <= sum_durations samples.
Proof.
  induction 1 as [| s l Hs _ IH]; cbn [sum_durations]; lia.
Qed.

Lemma fold_durations_sum (samples : list IOSample) (acc : Z) :
  Forall (fun s => 0 <= duration_ms s) samples ->
  0 <= acc ->
  acc + sum_durations samples < 2 ^ 64 ->
  fold_left (fun acc s => to_uint64 (acc + duration_ms s)) samples acc =
  acc + sum_durations samples.
Proof.
  revert acc. induction samples as [| s samples IH]; intros acc Hnn Hacc Hsum;
    cbn [fold_left sum_durations] in *; [lia |].
  inversion Hnn as [| ? ? Hs Hrest]; subst. cbn beta in Hs.
  pose proof (sum_durations_nonneg samples Hrest) as Htail.
  replace (to_uint64 (acc + duration_ms s)) with (acc + duration_ms s)
    by (unfold to_uint64; rewrite Z.mod_small; lia).
  rewrite IH by (assumption || lia). lia.
Qed.

Lemma DetectCurrentLevel_mean (d : InterferenceDetector) :
  recent_samples_ d <> [] ->
  Forall (fun s => 0 <= duration_ms s) (recent_samples_ d) ->
  sum_durations (recent_samples_ d) < 2 ^ 64 ->
  let avg :=
    sum_durations (recent_samples_ d) / Z.of_nat (List.length (recent_samples_ d)) in
  DetectCurrentLevel d =
  (level_of_mean avg,
   mkDetector (recent_samples_ d) avg (det_interference_count_ d)
              (level_of_mean avg)).
Proof.
  intros Hne Hnn Hsum. unfold DetectCurrentLevel.
  destruct (recent_samples_ d) as [| s0 rest] eqn:Hs; [contradiction |].
  rewrite fold_durations_sum by (assumption || lia).
  reflexivity.
Qed.

(** X7. The detector's window: after any sequence of recorded timings,
    starting from the detector as constructed, [recent_samples_] holds
    exactly the last 20 of them (all of them while there are fewer), in
    order; it is never longer than 20, and never empty once a timing has
    been recorded. *)
Theorem detector_keeps_last_20 (samples : list IOSample) :
  let d := fold_left record_sample samples detector_init in
  recent_samples_ d = last_n 20 samples /\
  List.length (recent_samples_ d) = Nat.min (List.length samples) 20 /\
  (forall s rest, samples = rest ++ [s] -> List.last (recent_samples_ d) s = s /\
                  recent_samples_ d <> []).
Proof.
  cbn zeta.
  assert (recent_samples_ (fold_left record_sample samples detector_init) =
          last_n 20 samples) as Hwin.
  { now rewrite (record_samples_window samples detector_init []). }
  split; [exact Hwin |]. rewrite Hwin. split; [apply last_n_length |].
  intros s rest ->. unfold last_n. rewrite length_app. cbn [List.length].
  rewrite skipn_app.
  replace (List.length rest + 1 - 20 - List.length rest)%nat with 0%nat by lia.
  cbn [skipn]. split.
  - now rewrite List.last_last.
  - now destruct (skipn _ rest).
Qed.

(** The detector after a timing is recorded, in terms of the mean of its
    window. *)
Lemma RecordIOTiming_detect (d : InterferenceDetector)
    (now duration bytes_ : Z) :
  let d' := RecordIOTiming d now duration bytes_ in
  let window := recent_samples_ d' in
  let avg := sum_durations window / Z.of_nat (List.length window) in
  Forall (fun s => 0 <= duration_ms s) window ->
  sum_durations window < 2 ^ 64 ->
  window <> [] /\
  d' = mkDetector window avg (det_interference_count_ d) (level_of_mean avg).
Proof.
  cbn zeta. rewrite RecordIOTiming_samples. cbn zeta. unfold RecordIOTiming.
  set (appended := recent_samples_ d ++ [mkSample now duration bytes_]).
  set (window := if 20 <? Z.of_nat (List.length appended)
                 then tl appended else appended).
  intros Hnn Hsum.
  assert (window <> []) as Hne.
  { unfold window, appended. rewrite length_app. cbn [List.length].
    destruct (Z.ltb_spec 20 (Z.of_nat (List.length (recent_samples_ d) + 1)))
      as [Hlong | _].
    - destruct (recent_samples_ d) as [| s0 [| s1 rest]]; cbn in Hlong |- *;
        [lia | lia | discriminate].
    - now destruct (recent_samples_ d). }
  split; [exact Hne |].
  now rewrite DetectCurrentLevel_mean by assumption.
Qed.

Lemma level_of_mean_active (avg : Z) :
  300 <= avg -> (level_rank Medium <=? level_rank (level_of_mean avg)) = true.
Proof.
  intros Havg. unfold level_of_mean.
  destruct (Z.ltb_spec avg 100); [lia |].
  destruct (Z.ltb_spec avg 300); [lia |].
  destruct (avg <? 1000); [reflexivity |].
  destruct (avg <? 3000); reflexivity.
Qed.

(** X8. The level the detector reports after a timing is recorded
    depends only on the durations in its window: with their sum below
    [2 ^ 64], [avg_io_time_ms_] is the truncated mean, the level is None
    below 100 ms, Low below 300, Medium below 1000, High below 3000 and
    Critical from there on, and [IsInterferenceActive] holds exactly
    when the mean is at least 300 ms, that is when the sum of the
    durations is at least 300 times their number. *)
Theorem detector_level_by_mean (d : InterferenceDetector)
    (now duration bytes_ : Z) :
  let d' := RecordIOTiming d now duration bytes_ in
  let window := recent_samples_ d' in
  let n := Z.of_nat (List.length window) in
  Forall (fun s => 0 <= duration_ms s) window ->
  sum_durations window < 2 ^ 64 ->
  0 < n /\
  avg_io_time_ms_ d' = sum_durations window / n /\
  current_level_ d' = level_of_mean (sum_durations window / n) /\
  (IsInterferenceActive d' = true <-> 300 * n <= sum_durations window) /\
  (current_level_ d' = None_ <-> sum_durations window < 100 * n) /\
  (current_level_ d' = Critical <-> 3000 * n <= sum_durations window).
Proof.
  cbn zeta. intros Hnn Hsum.
  destruct (RecordIOTiming_detect d now duration bytes_ Hnn Hsum) as [Hne Hd'].
  set (d' := RecordIOTiming d now duration bytes_) in *.
  set (window := recent_samples_ d') in *.
  set (n := Z.of_nat (List.length window)) in *.
  set (total := sum_durations window) in *.
  assert (0 < n) as Hn by (unfold n; destruct window; [contradiction | cbn; lia]).
  assert (forall k, k <= total / n <-> k * n <= total) as Hdiv.
  { intros k. split; intros Hk.
    - pose proof (Z.mul_div_le total n Hn). nia.
    - apply Z.div_le_lower_bound; lia. }
  assert (forall k, total / n < k <-> total < k * n) as Hdiv'.
  { intros k. pose proof (Hdiv k). lia. }
  unfold IsInterferenceActive. rewrite Hd'.
  cbn [avg_io_time_ms_ current_level_].
  split; [exact Hn |]. split; [reflexivity |]. split; [reflexivity |].
  unfold level_of_mean.
  pose proof (Hdiv 300) as H300. pose proof (Hdiv' 100) as H100.
  pose proof (Hdiv 3000) as H3000.
  destruct (Z.ltb_spec (total / n) 100); [cbn; split; [|split]; split;
    intros; try discriminate; try reflexivity; lia |].
  destruct (Z.ltb_spec (total / n) 300); [cbn; split; [|split]; split;
    intros; try discriminate; try reflexivity; lia |].
  destruct (Z.ltb_spec (total / n) 1000); [cbn; split; [|split]; split;
    intros; try discriminate; try reflexivity; lia |].
  destruct (Z.ltb_spec (total / n) 3000); cbn; (split; [|split]); split;
    intros; try discriminate; try reflexivity; lia.
Qed.

Lemma detector_level_by_mean_witness :
  0 < 2 /\
  avg_io_time_ms_ (RecordIOTiming (RecordIOTiming detector_init 5 100 4096)
                                  9 700 4096) = (100 + 700) / 2 /\
  current_level_ (RecordIOTiming (RecordIOTiming detector_init 5 100 4096)
                                 9 700 4096) = level_of_mean ((100 + 700) / 2) /\
  (IsInterferenceActive
     (RecordIOTiming (RecordIOTiming detector_init 5 100 4096) 9 700 4096)
   = true <-> 300 * 2 <= 100 + 700) /\
  (current_level_ (RecordIOTiming (RecordIOTiming detector_init 5 100 4096)
                                  9 700 4096) = None_ <-> 100 + 700 < 100 * 2) /\
  (current_level_ (RecordIOTiming (RecordIOTiming detector_init 5 100 4096)
                                  9 700 4096) = Critical
   <-> 3000 * 2 <= 100 + 700).
Proof.
  apply (detector_level_by_mean (RecordIOTiming detector_init 5 100 4096)
           9 700 4096).
  - repeat constructor; cbn; lia.
  - vm_compute. reflexivity.
Defined.

(** ** The chunked reader: progress, stalls, and what reaches the detector *)

(** The reads [cs] deliver no more than was asked for. *)
Fixpoint within_request (cfg : RobustIOConfig) (file_size : Z)
    (cs : list GoodChunk) (bytes_read : Z) : Prop :=
  match cs with
  | [] => True
  | c :: rest =>
    0 <= gc_gcount c <= Z.min (read_chunk_size cfg) (file_size - bytes_read) /\
    within_request cfg file_size rest (bytes_read + gc_gcount c)
  end.

(** The cumulative counts after each of the reads [cs]. *)
Fixpoint cumulative (cs : list GoodChunk) (bytes_read : Z) : list Z :=
  match cs with
  | [] => []
  | c :: rest => (bytes_read + gc_gcount c) :: cumulative rest (bytes_read + gc_gcount c)
  end.

(** Each element is at least the one before it, the first at least
    [lo]. *)
Fixpoint nondecreasing (lo : Z) (l : list Z) : Prop :=
  match l with
  | [] => True
  | x :: rest => lo <= x /\ nondecreasing x rest
  end.

(** [helpers::LoadGameFile]: [ReadFileChunked] without a callback, on a
    reader whose configuration is the default one with [max_retries],
    [detect_interference] and [verify_file_size] set to the values they
    have by default.  [det] is the process-wide detector. *)
Definition LoadGameFile (o : ChunkedOpen) (env : nat -> ChunkRead)
    (fuel : nat) (det : InterferenceDetector)
  : option (IOResult * ChunkState) :=
  let config :=
    mkConfig 5 (retry_delay_ms default_config)
             (exponential_backoff default_config)
             (verify_checksum default_config) true
             (read_chunk_size default_config) (buffer_size default_config)
             true (interference_threshold_ms default_config)
             (fail_fast default_config) (log_errors default_config) in
  ReadFileChunked o env false fuel (mkChunkState (new_reader config) det []).

(** [static_cast<int>((bytes_read * 100) / total_size)], the
    multiplication in [size_t]. *)
Definition percent_of (bytes_read total_size : Z) : Z :=
  wrap_int (to_uint64 (bytes_read * 100) / total_size).

(** The calls of the user's [progress_cb] that the lambda of
    [LoadGameFileWithProgress] makes, one for each call it receives from
    [ReadFileChunked]; [user_cb] tells whether [progress_cb] is
    non-empty. *)
Definition progress_calls (user_cb : bool) (log : list ChunkEvent) : list Z :=
  flat_map (fun e =>
              match e with
              | EvProgress bytes_read total_size =>
                if user_cb && (0 <? total_size)
                then [percent_of bytes_read total_size] else []
              | _ => []
              end) log.

(** [helpers::LoadGameFileWithProgress]: the result, the state, and the
    percentages handed to [progress_cb]. *)
Definition LoadGameFileWithProgress (o : ChunkedOpen) (env : nat -> ChunkRead)
    (user_cb : bool) (fuel : nat) (det : InterferenceDetector)
  : option (IOResult * ChunkState * list Z) :=
  let config :=
    mkConfig 5 (retry_delay_ms default_config)
             (exponential_backoff default_config)
             (verify_checksum default_config)
             (verify_file_size default_config)
             (read_chunk_size default_config) (buffer_size default_config)
             true (interference_threshold_ms default_config)
             (fail_fast default_config) (log_errors default_config) in
  match ReadFileChunked o env true fuel
          (mkChunkState (new_reader config) det []) with
  | None => None
  | Some (result, s) => Some (result, s, progress_calls user_cb (cs_log s))
  end.

Lemma progress_calls_app (user_cb : bool) (l1 l2 : list ChunkEvent) :
  progress_calls user_cb (l1 ++ l2) =
  progress_calls user_cb l1 ++ progress_calls user_cb l2.
Proof. unfold progress_calls. apply flat_map_app. Qed.

Lemma last_map_default {A B} (f : A -> B) (l : list A) (d : A) :
  List.last (map f l) (f d) = f (List.last l d).
Proof.
  induction l as [| x [| y rest] IH]; [reflexivity | reflexivity |].
  exact IH.
Qed.

Lemma last_cumulative (cs : list GoodChunk) :
  forall bytes_read d,
    List.last (cumulative cs bytes_read) d =
    match cs with [] => d | _ :: _ => bytes_after cs bytes_read end.
Proof.
  induction cs as [| c rest IH]; intros bytes_read d; [reflexivity |].
  destruct rest as [| c' rest']; [reflexivity |].
  change (cumulative (c :: c' :: rest') bytes_read)
    with ((bytes_read + gc_gcount c)
          :: (bytes_read + gc_gcount c + gc_gcount c')
          :: cumulative rest' (bytes_read + gc_gcount c + gc_gcount c')).
  change (List.last (?x :: ?y :: ?l) d) with (List.last (y :: l) d).
  exact (IH (bytes_read + gc_gcount c) d).
Qed.

(** Reads that deliver no more than asked never pass the end of the
    file. *)
Lemma within_request_bound (cfg : RobustIOConfig) (file_size : Z)
    (cs : list GoodChunk) :
  forall bytes_read,
    0 <= bytes_read <= file_size ->
    within_request cfg file_size cs bytes_read ->
    bytes_read <= bytes_after cs bytes_read <= file_size /\
    nondecreasing bytes_read (cumulative cs bytes_read) /\
    Forall (fun b => b <= file_size) (cumulative cs bytes_read).
Proof.
  induction cs as [| c rest IH]; intros bytes_read Hb Hreq;
    cbn [bytes_after cumulative nondecreasing].
  - split; [lia |]. split; [exact I | constructor].
  - destruct Hreq as [Hc Hrest].
    destruct (IH (bytes_read + gc_gcount c) ltac:(lia) Hrest)
      as (Hafter & Hmono & Hall).
    split; [lia |]. split; [split; [lia | exact Hmono] |].
    constructor; [lia | exact Hall].
Qed.

Lemma percent_of_exact (b total : Z) :
  0 <= b <= total -> 0 < total -> total * 100 < 2 ^ 64 ->
  percent_of b total = b * 100 / total /\ 0 <= b * 100 / total <= 100.
Proof.
  intros Hb Htot Hfit. unfold percent_of, to_uint64.
  rewrite Z.mod_small by lia.
  assert (0 <= b * 100 / total <= 100) as Hrange.
  { split; [apply Z.div_pos; lia |].
    apply Z.div_le_upper_bound; lia. }
  split; [apply wrap_int_small; lia | exact Hrange].
Qed.

(** The percentages of a run of reads within their requests. *)
Lemma progress_calls_chunk_events (cfg : RobustIOConfig) (file_size : Z)
    (cs : list GoodChunk) :
  forall bytes_read,
    0 <= bytes_read ->
    file_size * 100 < 2 ^ 64 ->
    in_progress file_size cs bytes_read ->
    within_request cfg file_size cs bytes_read ->
    progress_calls true (chunk_events cfg true file_size cs bytes_read) =
    map (fun b => b * 100 / file_size) (cumulative cs bytes_read).
Proof.
  induction cs as [| c rest IH]; intros bytes_read Hb Hfit Hprog Hreq;
    [reflexivity |].
  destruct Hprog as [Hlt Hprog]. destruct Hreq as [Hc Hreq].
  cbn [chunk_events cumulative map]. rewrite !progress_calls_app.
  rewrite IH by (assumption || lia).
  cbn [progress_calls flat_map app andb].
  destruct (Z.ltb_spec 0 file_size) as [_ | Hbad]; [| lia].
  destruct (percent_of_exact (bytes_read + gc_gcount c) file_size) as [-> _];
    try lia.
  destruct (chunk_flagged cfg _ _); reflexivity.
Qed.

(** X9. [LoadGameFileWithProgress] on a file whose reads each deliver no
    more than was asked for: the cumulative count never passes the file
    size, so a run that ends with Success has read exactly [file_size]
    bytes; the user's callback receives one percentage per read, each
    the cumulative count times 100 divided by the file size (rounded
    down), never decreasing, never outside 0..100, and the last one is
    100. *)
Theorem LoadGameFileWithProgress_percent (env : nat -> ChunkRead)
    (file_size : Z) (cs : list GoodChunk) (fuel : nat)
    (det : InterferenceDetector) :
  plays env 0 cs ->
  in_progress file_size cs 0 ->
  within_request default_config file_size cs 0 ->
  file_size <= bytes_after cs 0 ->
  (List.length cs < fuel)%nat ->
  0 <= file_size ->
  file_size * 100 < 2 ^ 64 ->
  let percents := map (fun b => b * 100 / file_size) (cumulative cs 0) in
  bytes_after cs 0 = file_size /\
  (exists s,
     LoadGameFileWithProgress (Opened file_size) env true fuel det =
     Some (mkIOResult Success (Text "File read successfully") file_size 0 false,
           s, percents)) /\
  List.length percents = List.length cs /\
  nondecreasing 0 percents /\
  Forall (fun p => p <= 100) percents /\
  (cs <> [] -> List.last percents 0 = 100).
Proof.
  intros Hplays Hprog Hreq Hdone Hfuel Hfs Hfit. cbn zeta.
  destruct (within_request_bound default_config file_size cs 0 ltac:(lia) Hreq)
    as (Hafter & Hmono & Hall).
  assert (bytes_after cs 0 = file_size) as Hexact by lia.
  split; [exact Hexact |]. split; [| split; [| split; [| split]]].
  - unfold LoadGameFileWithProgress. cbn [ReadFileChunked].
    match goal with
    | |- context [chunk_loop env true file_size fuel 0 0 ?s0] =>
      destruct (chunk_loop_run env true file_size cs (fuel - List.length cs)
                  0 0 s0 Hplays Hprog) as (rd' & Hcfg & Heq)
    end.
    replace (List.length cs + (fuel - List.length cs))%nat with fuel in Heq
      by lia.
    rewrite Heq. destruct (fuel - List.length cs)%nat as [| f] eqn:Hf; [lia |].
    cbn [chunk_loop].
    destruct (Z.ltb_spec (bytes_after cs 0) file_size) as [Hbad | _]; [lia |].
    eexists. rewrite Hexact. cbn [cs_log cs_reader config_ new_reader app].
    rewrite (progress_calls_chunk_events _ file_size cs 0) by (assumption || lia).
    reflexivity.
  - rewrite length_map. clear. generalize 0.
    induction cs as [| c rest IH]; intros b; cbn [cumulative List.length];
      [reflexivity | now rewrite IH].
  - assert (forall l' lo b, 0 <= lo -> 0 < file_size ->
              nondecreasing lo (cumulative l' b) ->
              nondecreasing (lo * 100 / file_size)
                (map (fun b0 => b0 * 100 / file_size) (cumulative l' b))) as Hgen.
    { clear. induction l' as [| c rest IH]; intros lo b Hlo Hpos Hm; [exact I |].
      cbn [cumulative map nondecreasing] in *. destruct Hm as [Hle Hm].
      split; [apply Z.div_le_mono; lia | apply IH; [lia | lia | exact Hm]]. }
    destruct cs as [| c0 rest0]; [exact I |].
    assert (0 < file_size) as Hpos by (destruct Hprog; lia).
    exact (Hgen (c0 :: rest0) 0 0 ltac:(lia) Hpos Hmono).
  - destruct cs as [| c0 rest0]; [constructor |].
    assert (0 < file_size) as Hpos by (destruct Hprog; lia).
    apply Forall_map. revert Hall. apply List.Forall_impl.
    intros b Hb. apply Z.div_le_upper_bound; lia.
  - intros Hne.
    assert (0 < file_size) as Hpos
      by (destruct cs; [contradiction | destruct Hprog; lia]).
    pose proof (last_cumulative cs 0 0) as Hlast.
    destruct cs as [| c0 rest0]; [contradiction |].
    rewrite Hexact in Hlast.
    pose proof (last_map_default (fun b => b * 100 / file_size)
                  (cumulative (c0 :: rest0) 0) 0) as Hm.
    cbn beta in Hm. rewrite Z.mul_0_l, Zdiv_0_l in Hm.
    rewrite Hm, Hlast, Z.mul_comm. apply Z.div_mul. lia.
Qed.

Lemma LoadGameFileWithProgress_percent_witness :
  bytes_after three_reads 0 = 2500 /\
  (exists s,
     LoadGameFileWithProgress (Opened 2500) three_reads_source true 4
                              detector_init =
     Some (mkIOResult Success (Text "File read successfully") 2500 0 false,
           s, [40; 81; 100])) /\
  List.length [40; 81; 100] = List.length three_reads /\
  nondecreasing 0 [40; 81; 100] /\
  Forall (fun p => p <= 100) [40; 81; 100] /\
  (three_reads <> [] -> List.last [40; 81; 100] 0 = 100).
Proof.
  apply (LoadGameFileWithProgress_percent three_reads_source 2500 three_reads
           4 detector_init).
  - intros k c Hk. unfold three_reads_source. cbn [Nat.add]. now rewrite Hk.
  - cbn. lia.
  - cbn. lia.
  - cbn. lia.
  - cbn. lia.
  - lia.
  - lia.
Defined.

(** A read that delivers nothing leaves the loop where it was. *)
Lemma chunk_loop_stall (env : nat -> ChunkRead) (has_cb : bool) (file_size : Z) :
  0 < file_size ->
  (forall i, exists now duration, env i = Chunk now duration false 0) ->
  forall (fuel i : nat) (s : ChunkState),
    chunk_loop env has_cb file_size fuel i 0 s = None.
Proof.
  intros Hpos Henv. induction fuel as [| fuel IH]; intros i s; [reflexivity |].
  cbn [chunk_loop]. apply Z.ltb_lt in Hpos as Hlt. rewrite Hlt.
  destruct (Henv i) as (now & duration & ->).
  change (0 + 0) with 0. apply IH.
Qed.

(** X10. The chunk loop has no guard against a read that makes no
    progress: when the file is not empty and every read returns without
    failing but delivers nothing (the end of a file that shrank after it
    was opened, or a chunk size of zero), [ReadFileChunked], and with it
    [LoadGameFile], never returns, whatever the number of turns it is
    given. *)
Theorem ReadFileChunked_stalls (env : nat -> ChunkRead) (has_cb : bool)
    (file_size : Z) :
  0 < file_size ->
  (forall i, exists now duration, env i = Chunk now duration false 0) ->
  forall (fuel : nat) (s : ChunkState) (det : InterferenceDetector),
    ReadFileChunked (Opened file_size) env has_cb fuel s = None /\
    LoadGameFile (Opened file_size) env fuel det = None.
Proof.
  intros Hpos Henv fuel s det. unfold LoadGameFile. cbn [ReadFileChunked].
  split; now apply chunk_loop_stall.
Qed.

Lemma ReadFileChunked_stalls_witness :
  ReadFileChunked (Opened 10) (fun _ => Chunk 0 1 false 0) true 1000
    (mkChunkState (new_reader default_config) detector_init []) = None /\
  LoadGameFile (Opened 10) (fun _ => Chunk 0 1 false 0) 1000 detector_init = None.
Proof.
  apply (ReadFileChunked_stalls (fun _ => Chunk 0 1 false 0) true 10).
  - lia.
  - intros i. now exists 0, 1.
Defined.

(** A window of at most 20 samples, each of at least 300 ms. *)
Definition slow_window (det : InterferenceDetector) : Prop :=
  Forall (fun x => 300 <= duration_ms x < 2 ^ 59) (recent_samples_ det) /\
  (List.length (recent_samples_ det) <= 20)%nat.

Lemma sum_durations_between (lo hi : Z) (samples : list IOSample) :
  Forall (fun x => lo <= duration_ms x < hi) samples ->
  lo * Z.of_nat (List.length samples) <= sum_durations samples
    <= hi * Z.of_nat (List.length samples).
Proof.
  induction 1 as [| x l Hx _ IH]; cbn [sum_durations List.length]; lia.
Qed.

Lemma Forall_tl {A} (P : A -> Prop) (l : list A) : Forall P l -> Forall P (tl l).
Proof. intros Hl. destruct Hl; [constructor | assumption]. Qed.

(** Recording a slow timing on a slow window leaves a slow window, and
    the detector active. *)
Lemma RecordIOTiming_slow (det : InterferenceDetector) (now duration bytes_ : Z) :
  slow_window det ->
  300 <= duration < 2 ^ 59 ->
  slow_window (RecordIOTiming det now duration bytes_) /\
  IsInterferenceActive (RecordIOTiming det now duration bytes_) = true.
Proof.
  intros [Hall Hlen] Hd.
  assert (slow_window (RecordIOTiming det now duration bytes_)) as Hslow.
  { unfold slow_window. rewrite RecordIOTiming_samples. cbn zeta.
    assert (Forall (fun x => 300 <= duration_ms x < 2 ^ 59)
              (recent_samples_ det ++ [mkSample now duration bytes_])) as Happ.
    { apply Forall_app. split; [exact Hall |]. constructor; [exact Hd | constructor]. }
    rewrite length_app. cbn [List.length].
    destruct (Z.ltb_spec 20 (Z.of_nat (List.length (recent_samples_ det) + 1)))
      as [Hlong | Hshort].
    - split; [now apply Forall_tl |].
      destruct (recent_samples_ det) as [| s0 rest]; cbn in Hlen, Hlong |- *;
        [lia |].
      rewrite length_app. cbn [List.length]. lia.
    - split; [exact Happ |]. rewrite length_app. cbn [List.length]. lia. }
  split; [exact Hslow |].
  destruct Hslow as [Hall' Hlen'].
  pose proof (sum_durations_between _ _ _ Hall') as Hsum.
  destruct (RecordIOTiming_detect det now duration bytes_) as [Hne Hd'].
  - revert Hall'. apply List.Forall_impl. intros x Hx. lia.
  - lia.
  - unfold IsInterferenceActive. rewrite Hd'. cbn [current_level_].
    apply level_of_mean_active.
    apply Z.div_le_lower_bound; [| lia].
    destruct (recent_samples_ (RecordIOTiming det now duration bytes_));
      [contradiction | cbn [List.length]; lia].
Qed.

Lemma DetectInterference_slow (cfg : RobustIOConfig) (duration to_read : Z) :
  0 <= interference_threshold_ms cfg < 2 ^ 31 ->
  DetectInterference cfg duration to_read = true ->
  interference_threshold_ms cfg < duration.
Proof.
  intros Hthr. unfold DetectInterference, to_uint64.
  rewrite Z.mod_small by lia.
  destruct (negb _); [discriminate |].
  destruct (PrimFloat.ltb _ _); cbn [andb]; [| discriminate].
  destruct (Z.ltb_spec (interference_threshold_ms cfg) duration);
    [trivial | discriminate].
Qed.

(** What the chunk loop does to the detector. *)
Lemma chunk_loop_detector (env : nat -> ChunkRead) (has_cb : bool)
    (file_size : Z) :
  (forall i now duration failed gcount,
     env i = Chunk now duration failed gcount -> duration < 2 ^ 59) ->
  forall (fuel i : nat) (bytes_read : Z) (s : ChunkState) (r : IOResult)
         (s' : ChunkState),
    299 <= interference_threshold_ms (config_ (cs_reader s)) < 2 ^ 31 ->
    slow_window (cs_detector s) ->
    chunk_loop env has_cb file_size fuel i bytes_read s = Some (r, s') ->
    slow_window (cs_detector s') /\
    (cs_detector s' = cs_detector s \/
     IsInterferenceActive (cs_detector s') = true).
Proof.
  intros Henv. induction fuel as [| fuel IH];
    intros i bytes_read s r s' Hthr Hslow; [discriminate |].
  cbn [chunk_loop].
  destruct (bytes_read <? file_size); [| intros [= <- <-]; now split; [| left]].
  destruct (env i) as [what | now duration failed gcount] eqn:Hread.
  - intros [= <- <-]. cbn [log_chunk cs_detector]. split; [exact Hslow | now left].
  - destruct failed.
    + intros [= <- <-]. unfold log_chunk. cbn [cs_reader cs_detector cs_log].
      destruct (DetectInterference _ _ _); cbn [cs_detector];
        (split; [exact Hslow | now left]).
    + set (cfg := config_ (cs_reader s)) in *.
      set (to_read := Z.min (read_chunk_size cfg) (file_size - bytes_read)).
      intros Hrun. apply IH in Hrun.
      * destruct Hrun as [Hslow' Hcase].
        split; [exact Hslow' |].
        destruct has_cb; unfold log_chunk in Hcase;
          cbn [cs_reader cs_detector cs_log config_] in Hcase; fold cfg in Hcase;
          (destruct (detect_interference cfg
                     && DetectInterference cfg duration to_read) eqn:Hflag;
           cbn [cs_detector] in Hcase; [| exact Hcase]);
          apply andb_true_iff in Hflag as [_ Hflag];
          apply DetectInterference_slow in Hflag; try lia;
          (destruct Hcase as [-> | Hact]; [| now right]);
          right; apply RecordIOTiming_slow;
          [exact Hslow | pose proof (Henv _ _ _ _ _ Hread); lia
          | exact Hslow | pose proof (Henv _ _ _ _ _ Hread); lia].
      * destruct has_cb; unfold log_chunk;
          cbn [cs_reader cs_detector cs_log config_]; fold cfg;
          destruct (detect_interference cfg
                    && DetectInterference cfg duration to_read);
          cbn [cs_reader config_ count_interference]; exact Hthr.
      * destruct has_cb; unfold log_chunk;
          cbn [cs_reader cs_detector cs_log config_]; fold cfg;
          (destruct (detect_interference cfg
                     && DetectInterference cfg duration to_read) eqn:Hflag;
           cbn [cs_detector]; [| exact Hslow]);
          apply andb_true_iff in Hflag as [_ Hflag];
          apply DetectInterference_slow in Hflag; try lia;
          apply RecordIOTiming_slow;
          [exact Hslow | pose proof (Henv _ _ _ _ _ Hread); lia
          | exact Hslow | pose proof (Henv _ _ _ _ _ Hread); lia].
Qed.

(** X11. Only chunks slower than [interference_threshold_ms] reach the
    detector.  So with a threshold of at least 299 ms (500 by default)
    and a detector whose window holds only samples of 300 ms or more
    (none, to begin with), [ReadFileChunked] either leaves the detector
    untouched or leaves it reporting active interference: however many
    fast chunks follow a slow one, they never lower the level. *)
Theorem ReadFileChunked_trips_detector (o : ChunkedOpen)
    (env : nat -> ChunkRead) (has_cb : bool) (fuel : nat) (s s' : ChunkState)
    (r : IOResult) :
  299 <= interference_threshold_ms (config_ (cs_reader s)) < 2 ^ 31 ->
  (forall i now duration failed gcount,
     env i = Chunk now duration failed gcount -> duration < 2 ^ 59) ->
  slow_window (cs_detector s) ->
  ReadFileChunked o env has_cb fuel s = Some (r, s') ->
  slow_window (cs_detector s') /\
  (cs_detector s' = cs_detector s \/
   IsInterferenceActive (cs_detector s') = true).
Proof.
  intros Hthr Henv Hslow. destruct o as [| file_size]; cbn [ReadFileChunked].
  - intros [= <- <-]. split; [exact Hslow | now left].
  - now apply chunk_loop_detector.
Qed.

Lemma ReadFileChunked_trips_detector_witness :
  slow_window (RecordIOTiming detector_init 20 700 1024) /\
  (RecordIOTiming detector_init 20 700 1024 = detector_init \/
   IsInterferenceActive (RecordIOTiming detector_init 20 700 1024) = true).
Proof.
  apply (ReadFileChunked_trips_detector (Opened 2500) three_reads_source true 4
           (mkChunkState (new_reader small_chunks) detector_init [])
           (mkChunkState (mkReader small_chunks 0 1 0)
              (RecordIOTiming detector_init 20 700 1024)
              [EvRead 0 1024; EvProgress 1024 2500;
               EvRead 1024 1024; EvProgress 2048 2500; EvRecord 700 1024;
               EvRead 2048 452; EvProgress 2500 2500])
           (mkIOResult Success (Text "File read successfully") 2500 0 false)).
  - cbn. lia.
  - intros i now duration failed gcount Heq. unfold three_reads_source in Heq.
    destruct i as [| [| [| [| i]]]]; cbn in Heq; inversion Heq; lia.
  - split; [constructor | cbn; lia].
  - vm_compute. reflexivity.
Defined.

End RobustIO.

(* ================================================================== *)
(** * Disc image device ([vfs/devices/disc_image_device.cc])            *)
(* ================================================================== *)

Module DiscImage.

(** [const size_t kXESectorSize = 2_KiB]. *)
Definition kXESectorSize : Z := 2048.

(** [32_MiB]. *)
Definition MiB32 : Z := 32 * 1024 * 1024.

(** The memory reached through [state->ptr]: the byte at each offset
    from the start of the mapping.  The mapping itself covers the offsets
    below [state->size]; the function also answers beyond it, with
    whatever lies there, because the C++ reads without asking.  The
    general properties below hold whatever those bytes are; the concrete
    images have zeros there. *)
Definition Memory : Type := Z -> byte.

(** Declarations [disc_image_device.cc] takes from headers this
    development does not cover ([xenia/base/memory.h],
    [xenia/vfs/entry.h]): the loads of 16- and 32-bit integers at an
    offset of the mapping, with the ranges of their types, and the
    read-only attribute flag.  They are parameters of the development. *)
Class Platform : Type := {
  load_uint16 : Memory -> Z -> Z;
  load_uint32 : Memory -> Z -> Z;
  kFileAttributeReadOnly : Z;
  load_uint16_range : forall mem p, 0 <= load_uint16 mem p < 2 ^ 16;
  load_uint32_range : forall mem p, 0 <= load_uint32 mem p < 2 ^ 32
}.

(** Modelled from the spec: the attribute flag [kFileAttributeDirectory]
    (declared in [xenia/vfs/entry.h], which is not covered here);
    "attributes (8-bit flags, bit 0x10 = directory)". *)
Definition kFileAttributeDirectory : Z := 0x10.

(** Modelled from the spec: [xe::round_up] and [bytes_per_sector()]
    (declared in [xenia/base/math.h] and [disc_image_device.h], which are
    not covered here); "allocation size (size rounded up to sector
    size)", "Sector size constant: 2048 bytes". *)
Definition bytes_per_sector : Z := 2048.

Definition round_up (value multiple : Z) : Z :=
  (value + multiple - 1) / multiple * multiple.

(** [Device::Error], as far as this file uses it. *)
Inductive Error : Set :=
| kSuccess
| kErrorOutOfMemory
| kErrorReadError
| kErrorFileMismatch
| kErrorDamagedFile.

Definition Error_eqb (a b : Error) : bool :=
  match a, b with
  | kSuccess, kSuccess | kErrorOutOfMemory, kErrorOutOfMemory
  | kErrorReadError, kErrorReadError | kErrorFileMismatch, kErrorFileMismatch
  | kErrorDamagedFile, kErrorDamagedFile => true
  | _, _ => false
  end.

(** [struct ParseState]. *)
Record ParseState : Type := mkParseState {
  ptr : Memory;
  size : Z;
  game_offset : Z;
  root_sector : Z;
  root_size : Z;
  root_offset : Z
}.

#[local] Set Warnings "-register-all".

(** [DiscImageEntry], with the members this file writes. *)
Inductive DiscImageEntry : Set := mkEntry {
  name_ : list byte;
  attributes_ : Z;
  size_ : Z;
  allocation_size_ : Z;
  create_timestamp_ : Z;
  access_timestamp_ : Z;
  write_timestamp_ : Z;
  data_offset_ : Z;
  data_size_ : Z;
  children_ : list DiscImageEntry
}.

(** [parent->children_.emplace_back(std::move(entry))]. *)
Definition add_child (parent entry : DiscImageEntry) : DiscImageEntry :=
  mkEntry (name_ parent) (attributes_ parent) (size_ parent)
          (allocation_size_ parent) (create_timestamp_ parent)
          (access_timestamp_ parent) (write_timestamp_ parent)
          (data_offset_ parent) (data_size_ parent)
          (children_ parent ++ [entry]).

(** The fields of one on-disk directory record, as [ReadEntry] loads
    them. *)
Record DirRecord : Set := mkDirRecord {
  node_l : Z;
  node_r : Z;
  sector : Z;
  length : Z;
  attributes : Z;
  name_length : Z;
  name : list byte
}.

(** One invocation of [ReadEntry], as an observer of the recursion sees
    it: the array, the ordinal, the depth, and whether [visited] was
    [nullptr] (the entry point of an array) or the caller's set (a child
    within the same array). *)
Record Call : Set := mkCall {
  call_buffer : Z;
  call_ordinal : Z;
  call_depth : Z;
  call_fresh : bool
}.

(** What an invocation of [ReadEntry] leaves behind: the value returned,
    [*parent], [*visited] (the local set when [visited] was [nullptr]),
    and the invocations made, itself first. *)
Record Outcome : Set := mkOutcome {
  returned : bool;
  parent_after : DiscImageEntry;
  visited_after : gset Z;
  calls : list Call
}.

(** [constexpr int kMaxRecursionDepth = 256]. *)
Definition kMaxRecursionDepth : Z := 256.

(** [constexpr size_t kMinEntrySize = 4 + 14]. *)
Definition kMinEntrySize : Z := 4 + 14.

(** The 20 bytes [VerifyMagic] compares with. *)
Definition magic : list byte := list_byte_of_string "MICROSOFT*XBOX*MEDIA".

(** [std::memcmp(mem + offset, s, strlen s) == 0]. *)
Definition memcmp_eq (mem : Memory) (offset : Z) (s : list byte) : bool :=
  forallb (fun i => Byte.eqb (mem (offset + Z.of_nat i)) (nth i s x00))
          (seq 0 (List.length s)).

(** [DiscImageDevice::VerifyMagic]. *)
Definition VerifyMagic (state : ParseState) (offset : Z) : bool :=
  if size state <=? offset then false
  else memcmp_eq (ptr state) offset magic.

(** [static const size_t likely_offsets[]]. *)
Definition likely_offsets : list Z :=
  [0x00000000; 0x0000FB20; 0x00020600; 0x02080000; 0x0FD90000].

Definition set_game_offset (state : ParseState) (o : Z) : ParseState :=
  mkParseState (ptr state) (size state) o (root_sector state)
               (root_size state) (root_offset state).

(** The [for] loop of [Verify] over the candidates [offsets]: whether
    the magic was found, the state ([game_offset] is assigned at every
    turn; the loop [break]s at the first match), and the offsets
    [VerifyMagic] was called with, in order. *)
Fixpoint scan_offsets (state : ParseState) (offsets : list Z)
  : bool * ParseState * list Z :=
  match offsets with
  | [] => (false, state, [])
  | o :: rest =>
    let state := set_game_offset state o in
    let magic_offset := game_offset state + 32 * kXESectorSize in
    if VerifyMagic state magic_offset then (true, state, [magic_offset])
    else
      let '(magic_found, state, probed) := scan_offsets state rest in
      (magic_found, state, magic_offset :: probed)
  end.

Section WithPlatform.
Context `{Platform}.

(** The part of [Verify] after the magic is found ("Read sector 32 to
    get FS state"), for a state whose [game_offset] is set. *)
Definition read_fs_state (state : ParseState) : Error * ParseState :=
  if size state <? game_offset state + 32 * kXESectorSize then
    (kErrorReadError, state)
  else
    let fs_ptr := game_offset state + 32 * kXESectorSize in
    let root_sector' := load_uint32 (ptr state) (fs_ptr + 20) in
    let root_size' := load_uint32 (ptr state) (fs_ptr + 24) in
    let root_offset' := game_offset state + root_sector' * kXESectorSize in
    let state :=
      mkParseState (ptr state) (size state) (game_offset state)
                   root_sector' root_size' root_offset' in
    if (root_size state <? 13) || (MiB32 <? root_size state) then
      (kErrorDamagedFile, state)
    else if size state <=? root_offset state then
      (kErrorDamagedFile, state)
    else if size state <? root_offset state + root_size state then
      (kErrorDamagedFile, state)
    else (kSuccess, state).

(** [DiscImageDevice::Verify]: the error, and [*state]. *)
Definition Verify (state : ParseState) : Error * ParseState :=
  let '(magic_found, state, _) := scan_offsets state likely_offsets in
  if negb magic_found then (kErrorFileMismatch, state)
  else read_fs_state state.

(** The loads at the head of [ReadEntry], and the name ([std::string
    (name_buffer, name_length)]), for the record at offset [p]. *)
Definition read_record (state : ParseState) (p : Z) : DirRecord :=
  let name_length := byte_val (ptr state (p + 13)) in
  mkDirRecord
    (load_uint16 (ptr state) (p + 0))
    (load_uint16 (ptr state) (p + 2))
    (load_uint32 (ptr state) (p + 4))
    (load_uint32 (ptr state) (p + 8))
    (byte_val (ptr state (p + 12)))
    name_length
    (map (fun i => ptr state (p + 14 + Z.of_nat i))
         (seq 0 (Z.to_nat name_length))).

(** "January 1, 1970 (UTC) in 100-nanosecond intervals". *)
Definition epoch_timestamp : Z := 10000 * 11644473600000.

(** [DiscImageEntry::Create] and the assignments that follow it, up to
    the timestamps. *)
Definition create_entry (r : DirRecord) : DiscImageEntry :=
  mkEntry (name r)
          (Z.lor (attributes r) kFileAttributeReadOnly)
          (length r)
          (round_up (length r) bytes_per_sector)
          epoch_timestamp epoch_timestamp epoch_timestamp
          0 0 [].

Definition is_directory (attrs : Z) : bool :=
  negb (Z.land attrs kFileAttributeDirectory =? 0).

Definition set_size (e : DiscImageEntry) (s : Z) : DiscImageEntry :=
  mkEntry (name_ e) (attributes_ e) s (allocation_size_ e)
          (create_timestamp_ e) (access_timestamp_ e) (write_timestamp_ e)
          (data_offset_ e) (data_size_ e) (children_ e).

Definition set_data (e : DiscImageEntry) (off sz : Z) : DiscImageEntry :=
  mkEntry (name_ e) (attributes_ e) (size_ e) (allocation_size_ e)
          (create_timestamp_ e) (access_timestamp_ e) (write_timestamp_ e)
          off sz (children_ e).

(** The file branch of [ReadEntry]. *)
Definition file_entry (state : ParseState) (r : DirRecord)
    (entry : DiscImageEntry) : DiscImageEntry :=
  let file_offset := game_offset state + sector r * kXESectorSize in
  if size state <=? file_offset then set_size (set_data entry 0 0) 0
  else set_data entry file_offset (length r).

(** The type of [ReadEntry] without its fuel and state: array, ordinal,
    parent, array size, depth, visited set. *)
Definition ReadEntryFn : Type :=
  Z -> Z -> DiscImageEntry -> Z -> Z -> option (gset Z) -> option Outcome.

(** [if (node) { if (!ReadEntry(state, buffer, node, parent, buffer_size,
    depth + 1, visited)) { ...warn... } }]: the parent, the visited set
    and the invocations afterwards.  The value returned is only logged. *)
Definition read_child (self : ReadEntryFn) (buffer node : Z)
    (parent : DiscImageEntry) (buffer_size depth : Z) (visited : gset Z)
  : option (DiscImageEntry * gset Z * list Call) :=
  if node =? 0 then Some (parent, visited, [])
  else
    match self buffer node parent buffer_size (depth + 1) (Some visited) with
    | None => None
    | Some o => Some (parent_after o, visited_after o, calls o)
    end.

(** From the creation of the entry to just before it is added to the
    parent: the entry, and the invocations made for a subdirectory. *)
Definition materialize (self : ReadEntryFn) (state : ParseState)
    (r : DirRecord) (depth : Z) : option (DiscImageEntry * list Call) :=
  let entry := create_entry r in
  if is_directory (attributes r) then
    (* Folder. *)
    let entry := set_data entry 0 0 in
    if negb (length r =? 0) then
      let folder_offset := game_offset state + sector r * kXESectorSize in
      if size state <? folder_offset then
        Some (set_size entry 0, [])
      else
        let folder_ptr := folder_offset in
        match self folder_ptr 0 entry (length r) (depth + 1) None with
        | None => None
        | Some o => Some (parent_after o, calls o)
        end
    else Some (entry, [])
  else
    (* File. *)
    Some (file_entry state r entry, []).

(** [ReadEntry] from the left child on, for a record [r] that passed
    the checks: left subtree, the entry itself, right subtree.
    [this_call] is the invocation at hand. *)
Definition decode_record (self : ReadEntryFn) (state : ParseState)
    (buffer : Z) (r : DirRecord) (parent : DiscImageEntry)
    (buffer_size depth : Z) (visited : gset Z) (this_call : Call)
  : option Outcome :=
  match read_child self buffer (node_l r) parent buffer_size depth visited with
  | None => None
  | Some (parent, visited, calls_l) =>
    match materialize self state r depth with
    | None => None
    | Some (entry, calls_d) =>
      (* Add to parent. *)
      let parent := add_child parent entry in
      (* Read next file in the list. *)
      match read_child self buffer (node_r r) parent buffer_size depth
                       visited with
      | None => None
      | Some (parent, visited, calls_r) =>
        Some (mkOutcome true parent visited
                (this_call :: calls_l ++ calls_d ++ calls_r))
      end
    end
  end.

(** The body of [ReadEntry]; [self] is [ReadEntry] itself. *)
Definition ReadEntry_body (self : ReadEntryFn) (state : ParseState)
    (buffer entry_ordinal : Z) (parent : DiscImageEntry)
    (buffer_size depth : Z) (visited : option (gset Z)) : option Outcome :=
  let this_call :=
    mkCall buffer entry_ordinal depth
           (match visited with None => true | Some _ => false end) in
  (* Security: Create visited set on first call *)
  let '(visited, buffer_size) :=
    match visited with
    | None => (∅ : gset Z,
               if buffer_size =? 0 then root_size state else buffer_size)
    | Some v => (v, buffer_size)
    end in
  (* Security: Check recursion depth limit *)
  if kMaxRecursionDepth <? depth then
    Some (mkOutcome false parent visited [this_call])
  (* Security: Check for circular references *)
  else if bool_decide (entry_ordinal ∈ visited) then
    Some (mkOutcome false parent visited [this_call])
  else
    let visited := {[entry_ordinal]} ∪ visited in
    (* Security: Bounds check for entry_ordinal *)
    let entry_offset := entry_ordinal * 4 in
    if (0 <? buffer_size) && (buffer_size <? entry_offset + kMinEntrySize) then
      Some (mkOutcome false parent visited [this_call])
    else
      let p := buffer + entry_offset in
      let r := read_record state p in
      (* Security: Validate name_length doesn't exceed bounds *)
      if (0 <? buffer_size)
         && (buffer_size <? entry_offset + 14 + name_length r) then
        Some (mkOutcome false parent visited [this_call])
      else
        decode_record self state buffer r parent buffer_size depth visited
                      this_call.

(** [DiscImageDevice::ReadEntry], with fuel for the recursion. *)
Fixpoint ReadEntry_rec (fuel : nat) (state : ParseState) : ReadEntryFn :=
  match fuel with
  | O => fun _ _ _ _ _ _ => None
  | S fuel' => ReadEntry_body (ReadEntry_rec fuel' state) state
  end.

(** Fuel that is enough at depth [depth] (see [ReadEntry_total]). *)
Definition depth_fuel (depth : Z) : nat :=
  S (Z.to_nat (kMaxRecursionDepth + 1 - depth)).

(** [DiscImageDevice::ReadEntry]. *)
Definition ReadEntry (state : ParseState) (buffer entry_ordinal : Z)
    (parent : DiscImageEntry) (buffer_size depth : Z)
    (visited : option (gset Z)) : option Outcome :=
  ReadEntry_rec (depth_fuel depth) state buffer entry_ordinal parent
                buffer_size depth visited.

(** The lambda [count_entries] of [ReadAllEntries]: what one call adds
    to [total_entries]. *)
Fixpoint count_entries (entry : DiscImageEntry) : Z :=
  1 + (if is_directory (attributes_ entry)
       then fold_right Z.add 0 (map count_entries (children_ entry))
       else 0).

(** [total_entries] after the loop over the root's children. *)
Definition total_entries (root_entry : DiscImageEntry) : Z :=
  fold_right Z.add 0 (map count_entries (children_ root_entry)).

(** [new DiscImageEntry(this, nullptr, "", mmap_.get())] with
    [attributes_ = kFileAttributeDirectory].  The members the constructor
    sets (in [entry.h], not covered here) are taken as 0; nothing below
    reads them. *)
Definition new_root_entry : DiscImageEntry :=
  mkEntry [] kFileAttributeDirectory 0 0 0 0 0 0 0 [].

(** [DiscImageDevice::ReadAllEntries]: the error, and [root_entry_].
    The call of [ReadEntry] leaves its last three arguments to the
    defaults of the declaration (in [disc_image_device.h], not covered
    here).  The body of [ReadEntry] tells what they are: [visited] is
    [nullptr] "on first call", [buffer_size] is 0 when "not specified",
    and depth 0 is the "root level".  The counts of files and of
    directories, which are only logged, are left out. *)
Definition ReadAllEntries (state : ParseState) (root_buffer : Z)
  : option (Error * DiscImageEntry) :=
  match ReadEntry state root_buffer 0 new_root_entry 0 0 None with
  | None => None
  | Some o =>
    let root_entry := parent_after o in
    if total_entries root_entry =? 0 then Some (kErrorOutOfMemory, root_entry)
    else Some (kSuccess, root_entry)
  end.

(** [DiscImageDevice::Initialize] once the image is mapped: the value
    returned and [root_entry_] ([None] while [ReadAllEntries] has not
    run). *)
Definition Initialize_mapped (mem : Memory) (mapped_size : Z)
  : option (bool * option DiscImageEntry) :=
  let state := mkParseState mem mapped_size 0 0 0 0 in
  let '(result, state) := Verify state in
  if negb (Error_eqb result kSuccess) then Some (false, None)
  else
    match ReadAllEntries state (root_offset state) with
    | None => None
    | Some (result, root_entry) =>
      if negb (Error_eqb result kSuccess) then Some (false, Some root_entry)
      else Some (true, Some root_entry)
    end.


(** ** Vocabulary for the properties of the decoder *)

(** The record at ordinal [entry_ordinal] passes the four checks at the
    head of [ReadEntry], called with the visited set [visited]. *)
Definition accepted (state : ParseState) (buffer entry_ordinal : Z)
    (buffer_size depth : Z) (visited : gset Z) : bool :=
  negb (kMaxRecursionDepth <? depth)
  && negb (bool_decide (entry_ordinal ∈ visited))
  && negb ((0 <? buffer_size)
           && (buffer_size <? entry_ordinal * 4 + kMinEntrySize))
  && negb ((0 <? buffer_size)
           && (buffer_size
               <? entry_ordinal * 4 + 14
                  + name_length (read_record state (buffer + entry_ordinal * 4)))).

(** An invocation is either the entry point of an array, on ordinal 0
    with a fresh visited set, or a child within an array, on a nonzero
    ordinal with the caller's set. *)
Definition call_ok (c : Call) : Prop :=
  if call_fresh c then call_ordinal c = 0 else call_ordinal c <> 0.

(** Every entry below [e] in the tree, at any depth. *)
Fixpoint entries_below (e : DiscImageEntry) : list DiscImageEntry :=
  flat_map (fun c => c :: entries_below c) (children_ e).

(** ** Arithmetic on [size_t]

    The offsets [ReadEntry] and [Verify] compute are sums of a candidate
    partition offset, a 32-bit sector number times 2048, and at most a
    32-bit length: they stay far below [2 ^ 64], so the [size_t]
    arithmetic of the source never wraps and is written on [Z] as it
    stands. *)

Lemma likely_offsets_range (g : Z) :
  In g likely_offsets -> 0 <= g < 2 ^ 28.
Proof.
  unfold likely_offsets. cbn [In].
  intros [<- | [<- | [<- | [<- | [<- | []]]]]]; lia.
Qed.

Lemma sector_offset_fits (mem : Memory) (g p q : Z) :
  0 <= g < 2 ^ 28 ->
  0 <= g + load_uint32 mem p * kXESectorSize + load_uint32 mem q < 2 ^ 64.
Proof.
  intros Hg.
  pose proof (load_uint32_range mem p) as Hp.
  pose proof (load_uint32_range mem q) as Hq.
  unfold kXESectorSize. lia.
Qed.

Lemma entry_offset_fits (mem : Memory) (p : Z) :
  0 <= load_uint16 mem p * 4 + kMinEntrySize + 255 < 2 ^ 19.
Proof.
  pose proof (load_uint16_range mem p) as Hp.
  unfold kMinEntrySize. lia.
Qed.

(** ** [Verify] *)

Lemma memcmp_eq_spec (mem : Memory) (offset : Z) (s : list byte) :
  memcmp_eq mem offset s = true <->
  forall i, (i < List.length s)%nat -> mem (offset + Z.of_nat i) = nth i s x00.
Proof.
  unfold memcmp_eq. rewrite forallb_forall. split.
  - intros Hall i Hi. apply Byte.byte_dec_bl, Hall, in_seq. lia.
  - intros Hall i Hi. apply in_seq in Hi. apply Byte.byte_dec_lb, Hall. lia.
Qed.

Lemma VerifyMagic_spec (state : ParseState) (offset : Z) :
  VerifyMagic state offset = true <->
  offset < size state /\
  forall i, (i < 20)%nat -> ptr state (offset + Z.of_nat i) = nth i magic x00.
Proof.
  unfold VerifyMagic.
  destruct (Z.leb_spec (size state) offset) as [Hle | Hlt].
  - split; [discriminate | lia].
  - rewrite memcmp_eq_spec. change (List.length magic) with 20%nat. tauto.
Qed.

(** The offset of the magic for a candidate. *)
Definition magic_offset_of (o : Z) : Z := o + 32 * kXESectorSize.

Lemma scan_offsets_first_match (state : ParseState) (pre : list Z) (g : Z)
    (post : list Z) :
  (forall o, In o pre -> VerifyMagic state (magic_offset_of o) = false) ->
  VerifyMagic state (magic_offset_of g) = true ->
  scan_offsets state (pre ++ g :: post) =
  (true, set_game_offset state g, map magic_offset_of (pre ++ [g])).
Proof.
  unfold magic_offset_of.
  revert state. induction pre as [| o pre IH]; intros state Hpre Hg.
  - cbn [app scan_offsets]. cbn [game_offset set_game_offset].
    change (VerifyMagic (set_game_offset state g) (g + 32 * kXESectorSize))
      with (VerifyMagic state (g + 32 * kXESectorSize)).
    now rewrite Hg.
  - cbn [app scan_offsets]. cbn [game_offset set_game_offset].
    change (VerifyMagic (set_game_offset state o) (o + 32 * kXESectorSize))
      with (VerifyMagic state (o + 32 * kXESectorSize)).
    rewrite (Hpre o) by now left.
    rewrite IH.
    + reflexivity.
    + intros o' Ho'. apply (Hpre o'). now right.
    + exact Hg.
Qed.

Lemma scan_offsets_no_match (state : ParseState) (offsets : list Z) :
  (forall o, In o offsets -> VerifyMagic state (magic_offset_of o) = false) ->
  exists state',
    scan_offsets state offsets = (false, state', map magic_offset_of offsets).
Proof.
  unfold magic_offset_of.
  revert state. induction offsets as [| o rest IH]; intros state Hall.
  - now exists state.
  - cbn [scan_offsets]. cbn [game_offset set_game_offset].
    change (VerifyMagic (set_game_offset state o) (o + 32 * kXESectorSize))
      with (VerifyMagic state (o + 32 * kXESectorSize)).
    rewrite (Hall o) by now left.
    destruct (IH (set_game_offset state o)) as [state' ->].
    + intros o' Ho'. apply (Hall o'). now right.
    + now exists state'.
Qed.

(** A successful scan leaves [game_offset] at a candidate whose magic
    matches; the rest of the state is as before. *)
Lemma scan_offsets_found (state state' : ParseState) (offsets probed : list Z) :
  scan_offsets state offsets = (true, state', probed) ->
  exists g, In g offsets /\ state' = set_game_offset state g /\
            VerifyMagic state (magic_offset_of g) = true.
Proof.
  unfold magic_offset_of.
  revert state probed.
  induction offsets as [| o rest IH]; intros state probed Hscan;
    [discriminate |].
  cbn [scan_offsets] in Hscan. cbn [game_offset set_game_offset] in Hscan.
  change (VerifyMagic (set_game_offset state o) (o + 32 * kXESectorSize))
    with (VerifyMagic state (o + 32 * kXESectorSize)) in Hscan.
  destruct (VerifyMagic state (o + 32 * kXESectorSize)) eqn:Ho.
  - injection Hscan as <- _. exists o. repeat split; [now left | exact Ho].
  - destruct (scan_offsets (set_game_offset state o) rest)
      as [[found st] pr] eqn:Hrest.
    injection Hscan as -> -> _.
    destruct (IH _ _ Hrest) as (g & Hin & -> & Hg).
    exists g. repeat split; [now right | exact Hg].
Qed.

Lemma Verify_after_scan (state state' : ParseState) (found : bool)
    (probed : list Z) :
  scan_offsets state likely_offsets = (found, state', probed) ->
  Verify state =
  if found then read_fs_state state' else (kErrorFileMismatch, state').
Proof.
  intros Hscan. unfold Verify. rewrite Hscan. now destruct found.
Qed.

(** C3. [Verify] tries the five candidates 0x00000000, 0x0000FB20,
    0x00020600, 0x02080000, 0x0FD90000 in that order; a candidate matches
    when the 20 bytes "MICROSOFT*XBOX*MEDIA" stand at
    [candidate + 32 * 2048], inside the file.  The first candidate that
    matches becomes [game_offset], whatever follows it in the list:
    [VerifyMagic] is called for the candidates up to it and for no later
    one.  If none matches, all five are tried, [Verify] returns
    FileMismatch and [Initialize] returns false with no root entry
    built. *)
Theorem Verify_scans_candidates :
  likely_offsets =
    [0x00000000; 0x0000FB20; 0x00020600; 0x02080000; 0x0FD90000] /\
  magic = list_byte_of_string "MICROSOFT*XBOX*MEDIA" /\
  List.length magic = 20%nat /\
  (forall o, magic_offset_of o = o + 32 * 2048) /\
  (forall state offset,
     VerifyMagic state offset = true <->
     offset < size state /\
     forall i, (i < 20)%nat ->
       ptr state (offset + Z.of_nat i) = nth i magic x00) /\
  (forall state pre g post,
     likely_offsets = pre ++ g :: post ->
     (forall o, In o pre -> VerifyMagic state (magic_offset_of o) = false) ->
     VerifyMagic state (magic_offset_of g) = true ->
     (forall later,
        scan_offsets state (pre ++ g :: later) =
        (true, set_game_offset state g, map magic_offset_of (pre ++ [g]))) /\
     Verify state = read_fs_state (set_game_offset state g)) /\
  (forall state,
     (forall o, In o likely_offsets ->
        VerifyMagic state (magic_offset_of o) = false) ->
     snd (scan_offsets state likely_offsets) = map magic_offset_of likely_offsets /\
     fst (Verify state) = kErrorFileMismatch) /\
  (forall mem mapped_size,
     (forall o, In o likely_offsets ->
        VerifyMagic (mkParseState mem mapped_size 0 0 0 0) (magic_offset_of o)
        = false) ->
     Initialize_mapped mem mapped_size = Some (false, None)).
Proof.
  split; [reflexivity |]. split; [reflexivity |]. split; [reflexivity |].
  split; [reflexivity |].
  split; [exact VerifyMagic_spec |].
  split; [| split].
  - intros state pre g post Hlist Hpre Hg. split.
    + intros later. now apply scan_offsets_first_match.
    + erewrite Verify_after_scan;
        [| rewrite Hlist; now apply scan_offsets_first_match].
      reflexivity.
  - intros state Hnone.
    destruct (scan_offsets_no_match state likely_offsets Hnone) as [state' E].
    rewrite E. split; [reflexivity |].
    now rewrite (Verify_after_scan _ _ _ _ E).
  - intros mem mapped_size Hnone. unfold Initialize_mapped.
    destruct (scan_offsets_no_match _ likely_offsets Hnone) as [state' E].
    now rewrite (Verify_after_scan _ _ _ _ E).
Qed.

(** The file-size check of [read_fs_state] answers ReadError. *)
Lemma read_fs_state_too_small (state : ParseState) :
  size state < game_offset state + 32 * kXESectorSize ->
  read_fs_state state = (kErrorReadError, state).
Proof.
  intros Hsmall. unfold read_fs_state.
  apply Z.ltb_lt in Hsmall. now rewrite Hsmall.
Qed.

(** C4, as the code has it.  After a magic match at [game_offset], with
    [root_size] and [root_sector] the 32-bit values loaded 24 and 20
    bytes past the magic and [root_offset = game_offset + root_sector *
    2048]: a root size below 13 (12 in particular) or above 32 MiB, a
    root offset at or beyond the file size, and a root directory ending
    beyond the file size each make [Verify] return DamagedFile; when
    none of the three holds, [Verify] succeeds.  The check of the file
    size that comes first compares the size with the start of the
    superblock, answers ReadError, and cannot fail after a match. *)
Theorem Verify_damaged_file (state state' : ParseState) (probed : list Z) :
  scan_offsets state likely_offsets = (true, state', probed) ->
  let fs_ptr := game_offset state' + 32 * kXESectorSize in
  let rsize := load_uint32 (ptr state) (fs_ptr + 24) in
  let roffset :=
    game_offset state' + load_uint32 (ptr state) (fs_ptr + 20) * kXESectorSize in
  (rsize < 13 \/ MiB32 < rsize -> fst (Verify state) = kErrorDamagedFile) /\
  (rsize = 12 -> fst (Verify state) = kErrorDamagedFile) /\
  (size state <= roffset -> fst (Verify state) = kErrorDamagedFile) /\
  (size state < roffset + rsize -> fst (Verify state) = kErrorDamagedFile) /\
  (13 <= rsize <= MiB32 -> roffset < size state ->
   roffset + rsize <= size state -> fst (Verify state) = kSuccess) /\
  fs_ptr < size state /\
  (forall other,
     size other < game_offset other + 32 * kXESectorSize ->
     fst (read_fs_state other) = kErrorReadError).
Proof.
  intros Hscan.
  destruct (scan_offsets_found _ _ _ _ Hscan) as (g & Hin & -> & Hg).
  cbn [game_offset set_game_offset]. cbn zeta.
  apply VerifyMagic_spec in Hg as [Hlt _]. unfold magic_offset_of in Hlt.
  rewrite (Verify_after_scan _ _ _ _ Hscan).
  assert (forall other,
            size other < game_offset other + 32 * kXESectorSize ->
            fst (read_fs_state other) = kErrorReadError) as Hsmall.
  { intros other Hsmall. now rewrite read_fs_state_too_small. }
  unfold read_fs_state at 1 2 3 4 5.
  cbn [game_offset set_game_offset size ptr root_size root_offset].
  destruct (Z.ltb_spec (size state) (g + 32 * kXESectorSize)) as [Hbad | _];
    [lia |].
  set (rsize := load_uint32 (ptr state) (g + 32 * kXESectorSize + 24)).
  set (roffset :=
         g + load_uint32 (ptr state) (g + 32 * kXESectorSize + 20) * kXESectorSize).
  repeat split.
  - intros Hr.
    destruct (Z.ltb_spec rsize 13), (Z.ltb_spec MiB32 rsize);
      cbn; try reflexivity; lia.
  - intros Hr.
    destruct (Z.ltb_spec rsize 13), (Z.ltb_spec MiB32 rsize);
      cbn; try reflexivity; lia.
  - intros Hr.
    destruct ((rsize <? 13) || (MiB32 <? rsize)); [reflexivity |].
    destruct (Z.leb_spec (size state) roffset); [reflexivity | lia].
  - intros Hr.
    destruct ((rsize <? 13) || (MiB32 <? rsize)); [reflexivity |].
    destruct (Z.leb_spec (size state) roffset); [reflexivity |].
    destruct (Z.ltb_spec (size state) (roffset + rsize)); [reflexivity | lia].
  - intros Hr1 Hr2 Hr3.
    destruct (Z.ltb_spec rsize 13); [lia |].
    destruct (Z.ltb_spec MiB32 rsize); [lia |]. cbn.
    destruct (Z.leb_spec (size state) roffset); [lia |].
    destruct (Z.ltb_spec (size state) (roffset + rsize)); [lia | reflexivity].
  - exact Hlt.
  - exact Hsmall.
Qed.

(** ** [ReadEntry]: the recursion *)

(** Two candidates for [self] agree on every call at depth [d]. *)
Definition agree_at (self1 self2 : ReadEntryFn) (d : Z) : Prop :=
  forall buffer ord parent buffer_size visited,
    self1 buffer ord parent buffer_size d visited =
    self2 buffer ord parent buffer_size d visited.

(** [self] returns on every call at depth [d]. *)
Definition total_at (self : ReadEntryFn) (d : Z) : Prop :=
  forall buffer ord parent buffer_size visited,
    exists o, self buffer ord parent buffer_size d visited = Some o.

Lemma read_child_ext self1 self2 buffer node parent buffer_size depth visited :
  agree_at self1 self2 (depth + 1) ->
  read_child self1 buffer node parent buffer_size depth visited =
  read_child self2 buffer node parent buffer_size depth visited.
Proof. intros Hag. unfold read_child. now rewrite Hag. Qed.

Lemma materialize_ext self1 self2 state r depth :
  agree_at self1 self2 (depth + 1) ->
  materialize self1 state r depth = materialize self2 state r depth.
Proof. intros Hag. unfold materialize. now rewrite Hag. Qed.

Lemma decode_record_ext self1 self2 state buffer r parent buffer_size depth
    visited this_call :
  agree_at self1 self2 (depth + 1) ->
  decode_record self1 state buffer r parent buffer_size depth visited this_call =
  decode_record self2 state buffer r parent buffer_size depth visited this_call.
Proof.
  intros Hag. unfold decode_record.
  rewrite (read_child_ext self1 self2) by exact Hag.
  destruct (read_child self2 _ _ _ _ _ _) as [[[p1 v1] cl] |]; [| reflexivity].
  rewrite (materialize_ext self1 self2) by exact Hag.
  destruct (materialize self2 _ _ _) as [[e cd] |]; [| reflexivity].
  now rewrite (read_child_ext self1 self2) by exact Hag.
Qed.

(** The body calls [self] only one level deeper, and only below the
    depth limit. *)
Lemma ReadEntry_body_ext self1 self2 state buffer ord parent buffer_size depth
    visited :
  (depth <= kMaxRecursionDepth -> agree_at self1 self2 (depth + 1)) ->
  ReadEntry_body self1 state buffer ord parent buffer_size depth visited =
  ReadEntry_body self2 state buffer ord parent buffer_size depth visited.
Proof.
  intros Hag. unfold ReadEntry_body.
  destruct visited as [v |]; cbn zeta iota beta;
    (destruct (Z.ltb_spec kMaxRecursionDepth depth); [reflexivity |]);
    (destruct (bool_decide _); [reflexivity |]);
    (destruct (_ && _); [reflexivity |]);
    (destruct (_ && _); [reflexivity |]);
    apply decode_record_ext, Hag; lia.
Qed.

Lemma read_child_total self buffer node parent buffer_size depth visited :
  total_at self (depth + 1) ->
  exists res, read_child self buffer node parent buffer_size depth visited = Some res.
Proof.
  intros Htot. unfold read_child.
  destruct (node =? 0); [eauto |].
  destruct (Htot buffer node parent buffer_size (Some visited)) as [o ->].
  eauto.
Qed.

Lemma materialize_total self state r depth :
  total_at self (depth + 1) ->
  exists res, materialize self state r depth = Some res.
Proof.
  intros Htot. unfold materialize.
  destruct (is_directory _); [| eauto].
  destruct (negb _); [| eauto].
  destruct (_ <? _); [eauto |].
  match goal with
  | |- context [self ?b ?o ?p ?bs ?d ?v] =>
    destruct (Htot b o p bs v) as [out ->]
  end.
  eauto.
Qed.

Lemma decode_record_total self state buffer r parent buffer_size depth visited
    this_call :
  total_at self (depth + 1) ->
  exists o,
    decode_record self state buffer r parent buffer_size depth visited this_call
    = Some o.
Proof.
  intros Htot. unfold decode_record.
  destruct (read_child_total self buffer (node_l r) parent buffer_size depth
              visited Htot) as [[[p1 v1] cl] ->].
  destruct (materialize_total self state r depth Htot) as [[e cd] ->].
  destruct (read_child_total self buffer (node_r r) (add_child p1 e)
              buffer_size depth v1 Htot) as [[[p2 v2] cr] ->].
  eauto.
Qed.

Lemma ReadEntry_body_total self state buffer ord parent buffer_size depth
    visited :
  (depth <= kMaxRecursionDepth -> total_at self (depth + 1)) ->
  exists o,
    ReadEntry_body self state buffer ord parent buffer_size depth visited = Some o.
Proof.
  intros Htot. unfold ReadEntry_body.
  destruct visited as [v |]; cbn zeta iota beta;
    (destruct (Z.ltb_spec kMaxRecursionDepth depth); [eauto |]);
    (destruct (bool_decide _); [eauto |]);
    (destruct (_ && _); [eauto |]);
    (destruct (_ && _); [eauto |]);
    apply decode_record_total, Htot; lia.
Qed.

(** With more fuel than levels left below the depth limit, the recursion
    returns. *)
Lemma ReadEntry_rec_total (state : ParseState) (fuel : nat) :
  forall depth,
    (Z.to_nat (kMaxRecursionDepth + 1 - depth) < fuel)%nat ->
    total_at (ReadEntry_rec fuel state) depth.
Proof.
  induction fuel as [| fuel IH]; intros depth Hfuel; [lia |].
  intros buffer ord parent buffer_size visited. cbn [ReadEntry_rec].
  apply ReadEntry_body_total. intros Hd. apply IH.
  unfold kMaxRecursionDepth in *. lia.
Qed.

(** [ReadEntry] returns on every input. *)
Lemma ReadEntry_total (state : ParseState) (buffer ord : Z)
    (parent : DiscImageEntry) (buffer_size depth : Z)
    (visited : option (gset Z)) :
  exists o, ReadEntry state buffer ord parent buffer_size depth visited = Some o.
Proof.
  unfold ReadEntry. apply ReadEntry_rec_total. unfold depth_fuel. lia.
Qed.

(** The recursive equation of [ReadEntry]: the fuel is out of the way. *)
Lemma ReadEntry_unfold (state : ParseState) (buffer ord : Z)
    (parent : DiscImageEntry) (buffer_size depth : Z)
    (visited : option (gset Z)) :
  ReadEntry state buffer ord parent buffer_size depth visited =
  ReadEntry_body (ReadEntry state) state buffer ord parent buffer_size depth
                 visited.
Proof.
  unfold ReadEntry at 1. unfold depth_fuel. cbn [ReadEntry_rec].
  apply ReadEntry_body_ext. intros Hd b o p bs v.
  unfold ReadEntry, depth_fuel. f_equal.
  unfold kMaxRecursionDepth in *. lia.
Qed.

(** Any fuel above the number of levels left gives the result of
    [ReadEntry]. *)
Lemma ReadEntry_rec_enough (state : ParseState) (fuel : nat) :
  forall depth buffer ord parent buffer_size visited,
    (Z.to_nat (kMaxRecursionDepth + 1 - depth) < fuel)%nat ->
    ReadEntry_rec fuel state buffer ord parent buffer_size depth visited =
    ReadEntry state buffer ord parent buffer_size depth visited.
Proof.
  induction fuel as [| fuel IH];
    intros depth buffer ord parent buffer_size visited Hfuel; [lia |].
  rewrite ReadEntry_unfold. cbn [ReadEntry_rec].
  apply ReadEntry_body_ext. intros Hd b o p bs v. apply IH.
  unfold kMaxRecursionDepth in *. lia.
Qed.

(** ** [ReadEntry]: what an invocation leaves behind *)

(** [parent'] is [parent] with entries added at the end of its children. *)
Definition extends (parent parent' : DiscImageEntry) : Prop :=
  exists more,
    parent' =
    mkEntry (name_ parent) (attributes_ parent) (size_ parent)
            (allocation_size_ parent) (create_timestamp_ parent)
            (access_timestamp_ parent) (write_timestamp_ parent)
            (data_offset_ parent) (data_size_ parent)
            (children_ parent ++ more).

Lemma extends_refl (parent : DiscImageEntry) : extends parent parent.
Proof. exists []. rewrite app_nil_r. now destruct parent. Qed.

Lemma extends_trans (p1 p2 p3 : DiscImageEntry) :
  extends p1 p2 -> extends p2 p3 -> extends p1 p3.
Proof.
  intros [m1 ->] [m2 ->]. exists (m1 ++ m2). cbn. now rewrite app_assoc.
Qed.

Lemma extends_add_child (parent entry : DiscImageEntry) :
  extends parent (add_child parent entry).
Proof. now exists [entry]. Qed.

Lemma extends_children (parent parent' : DiscImageEntry) :
  extends parent parent' ->
  exists more, children_ parent' = children_ parent ++ more.
Proof. intros [more ->]. now exists more. Qed.

(** Invocations made below depth [depth]: each is an entry point on
    ordinal 0 or a child on a nonzero ordinal, and none is deeper than
    one level past the limit. *)
Definition calls_below (depth : Z) (cs : list Call) : Prop :=
  Forall (fun c => call_ok c /\ depth < call_depth c <= kMaxRecursionDepth + 1) cs.

Definition fresh_flag (visited : option (gset Z)) : bool :=
  match visited with None => true | Some _ => false end.

(** What an invocation on [(buffer, ord, parent, depth, visited)] may
    leave behind. *)
Definition outcome_ok (buffer ord : Z) (parent : DiscImageEntry) (depth : Z)
    (visited : option (gset Z)) (o : Outcome) : Prop :=
  extends parent (parent_after o) /\
  exists rest,
    calls o = mkCall buffer ord depth (fresh_flag visited) :: rest /\
    calls_below depth rest.

Definition sound_at (self : ReadEntryFn) (d : Z) : Prop :=
  forall buffer ord parent buffer_size visited o,
    self buffer ord parent buffer_size d visited = Some o ->
    outcome_ok buffer ord parent d visited o.

Lemma calls_below_weaken (d d' : Z) (cs : list Call) :
  d' <= d -> calls_below d cs -> calls_below d' cs.
Proof.
  intros Hd. unfold calls_below. apply List.Forall_impl.
  intros c [Hok Hrange]. split; [exact Hok | lia].
Qed.

Lemma calls_below_app (d : Z) (cs1 cs2 : list Call) :
  calls_below d cs1 -> calls_below d cs2 -> calls_below d (cs1 ++ cs2).
Proof. intros H1 H2. apply Forall_app. now split. Qed.

Lemma read_child_sound self buffer node parent buffer_size depth visited
    parent' visited' cs :
  sound_at self (depth + 1) ->
  depth <= kMaxRecursionDepth ->
  read_child self buffer node parent buffer_size depth visited =
    Some (parent', visited', cs) ->
  extends parent parent' /\ calls_below depth cs.
Proof.
  intros Hsound Hd. unfold read_child.
  destruct (Z.eqb_spec node 0) as [-> | Hnz].
  - intros [= <- <- <-]. split; [apply extends_refl | constructor].
  - destruct (self buffer node parent buffer_size (depth + 1) (Some visited))
      as [o |] eqn:Hself; [| discriminate].
    intros [= <- <- <-].
    destruct (Hsound _ _ _ _ _ _ Hself) as [Hext (rest & -> & Hrest)].
    split; [exact Hext |].
    constructor.
    + split; [exact Hnz | cbn; lia].
    + apply calls_below_weaken with (depth + 1); [lia | exact Hrest].
Qed.

Lemma materialize_sound self state r depth entry cs :
  sound_at self (depth + 1) ->
  depth <= kMaxRecursionDepth ->
  materialize self state r depth = Some (entry, cs) ->
  calls_below depth cs.
Proof.
  intros Hsound Hd. unfold materialize.
  destruct (is_directory _); [| intros [= <- <-]; constructor].
  destruct (negb _); [| intros [= <- <-]; constructor].
  destruct (_ <? _); [intros [= <- <-]; constructor |].
  match goal with
  | |- context [self ?b ?o ?p ?bs ?d ?v] =>
    destruct (self b o p bs d v) as [out |] eqn:Hself; [| discriminate]
  end.
  intros [= <- <-].
  destruct (Hsound _ _ _ _ _ _ Hself) as [_ (rest & -> & Hrest)].
  constructor.
  - split; [reflexivity | cbn; lia].
  - apply calls_below_weaken with (depth + 1); [lia | exact Hrest].
Qed.

Lemma decode_record_sound self state buffer ord r parent buffer_size depth
    visited fresh o :
  sound_at self (depth + 1) ->
  depth <= kMaxRecursionDepth ->
  decode_record self state buffer r parent buffer_size depth visited
                (mkCall buffer ord depth fresh) = Some o ->
  extends parent (parent_after o) /\
  exists rest,
    calls o = mkCall buffer ord depth fresh :: rest /\ calls_below depth rest.
Proof.
  intros Hsound Hd. unfold decode_record.
  destruct (read_child self buffer (node_l r) _ _ _ _)
    as [[[p1 v1] cl] |] eqn:Hl; [| discriminate].
  destruct (materialize self state r depth) as [[e cd] |] eqn:Hm;
    [| discriminate].
  destruct (read_child self buffer (node_r r) _ _ _ _)
    as [[[p2 v2] cr] |] eqn:Hr; [| discriminate].
  intros [= <-]. cbn [parent_after calls].
  destruct (read_child_sound _ _ _ _ _ _ _ _ _ _ Hsound Hd Hl) as [Hext1 Hcl].
  destruct (read_child_sound _ _ _ _ _ _ _ _ _ _ Hsound Hd Hr) as [Hext2 Hcr].
  pose proof (materialize_sound _ _ _ _ _ _ Hsound Hd Hm) as Hcd.
  split.
  - eapply extends_trans; [exact Hext1 |].
    eapply extends_trans; [apply extends_add_child | exact Hext2].
  - eexists. split; [reflexivity |].
    now repeat apply calls_below_app.
Qed.

Lemma ReadEntry_body_sound self state buffer ord parent buffer_size depth
    visited o :
  (depth <= kMaxRecursionDepth -> sound_at self (depth + 1)) ->
  ReadEntry_body self state buffer ord parent buffer_size depth visited = Some o ->
  outcome_ok buffer ord parent depth visited o.
Proof.
  intros Hsound. unfold ReadEntry_body, outcome_ok.
  assert (forall v,
            extends parent
              (parent_after
                 (mkOutcome false parent v
                    [mkCall buffer ord depth (fresh_flag visited)])) /\
            exists rest,
              calls (mkOutcome false parent v
                       [mkCall buffer ord depth (fresh_flag visited)]) =
                mkCall buffer ord depth (fresh_flag visited) :: rest /\
              calls_below depth rest) as Habort.
  { intros v. split; [apply extends_refl |].
    exists []. split; [reflexivity | constructor]. }
  destruct visited as [v |]; cbn zeta iota beta; cbn [fresh_flag] in *;
    (destruct (Z.ltb_spec kMaxRecursionDepth depth);
       [intros [= <-]; apply Habort |]);
    (destruct (bool_decide _); [intros [= <-]; apply Habort |]);
    (destruct (_ && _); [intros [= <-]; apply Habort |]);
    (destruct (_ && _); [intros [= <-]; apply Habort |]);
    intros Hdec; eapply decode_record_sound; eauto; apply Hsound; lia.
Qed.

Lemma ReadEntry_rec_sound (state : ParseState) (fuel : nat) :
  forall depth, sound_at (ReadEntry_rec fuel state) depth.
Proof.
  induction fuel as [| fuel IH]; intros depth buffer ord parent bs visited o;
    cbn [ReadEntry_rec]; [discriminate |].
  apply ReadEntry_body_sound. intros _. apply IH.
Qed.

Lemma ReadEntry_sound (state : ParseState) (depth : Z) :
  sound_at (ReadEntry state) depth.
Proof.
  intros buffer ord parent bs visited o. apply ReadEntry_rec_sound.
Qed.

(** An invocation past the depth limit returns at once. *)
Lemma ReadEntry_too_deep (state : ParseState) (buffer ord : Z)
    (parent : DiscImageEntry) (buffer_size depth : Z)
    (visited : option (gset Z)) :
  kMaxRecursionDepth < depth ->
  ReadEntry state buffer ord parent buffer_size depth visited =
  Some (mkOutcome false parent (default ∅ visited)
          [mkCall buffer ord depth (fresh_flag visited)]).
Proof.
  intros Hd. rewrite ReadEntry_unfold. unfold ReadEntry_body.
  apply Z.ltb_lt in Hd.
  destruct visited as [v |]; cbn zeta iota beta; now rewrite Hd.
Qed.

(** An invocation on an ordinal already in the visited set returns at
    once. *)
Lemma ReadEntry_revisit (state : ParseState) (buffer ord : Z)
    (parent : DiscImageEntry) (buffer_size depth : Z) (v : gset Z) :
  ord ∈ v ->
  ReadEntry state buffer ord parent buffer_size depth (Some v) =
  Some (mkOutcome false parent v [mkCall buffer ord depth false]).
Proof.
  intros Hin. rewrite ReadEntry_unfold. unfold ReadEntry_body.
  cbn zeta iota beta.
  destruct (kMaxRecursionDepth <? depth); [reflexivity |].
  now rewrite bool_decide_eq_true_2.
Qed.

(** A child that was visited before, or that lies past the depth limit,
    is cut: one invocation, nothing added, nothing marked. *)
Lemma read_child_cut (state : ParseState) (buffer node : Z)
    (parent : DiscImageEntry) (buffer_size depth : Z) (v : gset Z) :
  node <> 0 ->
  node ∈ v \/ kMaxRecursionDepth <= depth ->
  read_child (ReadEntry state) buffer node parent buffer_size depth v =
  Some (parent, v, [mkCall buffer node (depth + 1) false]).
Proof.
  intros Hnz Hcut. unfold read_child.
  destruct (Z.eqb_spec node 0); [contradiction |].
  destruct (Z_lt_le_dec kMaxRecursionDepth (depth + 1)) as [Hdeep | Hshallow].
  - now rewrite ReadEntry_too_deep.
  - destruct Hcut as [Hin | Hd]; [| lia]. now rewrite ReadEntry_revisit.
Qed.

Lemma accepted_inv (state : ParseState) (buffer ord buffer_size depth : Z)
    (v : gset Z) :
  accepted state buffer ord buffer_size depth v = true ->
  depth <= kMaxRecursionDepth /\ ord ∉ v.
Proof.
  unfold accepted. rewrite !andb_true_iff, !negb_true_iff.
  intros [[[Hd Hv] _] _]. split.
  - now apply Z.ltb_ge.
  - now apply bool_decide_eq_false in Hv.
Qed.

(** An accepted record is decoded: left child, entry, right child. *)
Lemma ReadEntry_accepted (state : ParseState) (buffer ord : Z)
    (parent : DiscImageEntry) (buffer_size depth : Z) (v : gset Z) :
  accepted state buffer ord buffer_size depth v = true ->
  ReadEntry state buffer ord parent buffer_size depth (Some v) =
  decode_record (ReadEntry state) state buffer
    (read_record state (buffer + ord * 4)) parent buffer_size depth
    ({[ord]} ∪ v) (mkCall buffer ord depth false).
Proof.
  unfold accepted. rewrite !andb_true_iff, !negb_true_iff.
  intros [[[Hd Hv] Hb1] Hb2].
  rewrite ReadEntry_unfold. unfold ReadEntry_body. cbn zeta iota beta.
  now rewrite Hd, Hv, Hb1, Hb2.
Qed.

(** A record that is not accepted aborts its own invocation only: the
    parent is untouched. *)
Lemma ReadEntry_rejected (state : ParseState) (buffer ord : Z)
    (parent : DiscImageEntry) (buffer_size depth : Z) (v : gset Z) :
  accepted state buffer ord buffer_size depth v = false ->
  exists v',
    ReadEntry state buffer ord parent buffer_size depth (Some v) =
    Some (mkOutcome false parent v' [mkCall buffer ord depth false]).
Proof.
  unfold accepted.
  rewrite ReadEntry_unfold. unfold ReadEntry_body. cbn zeta iota beta.
  destruct (kMaxRecursionDepth <? depth); [eauto |].
  destruct (bool_decide (ord ∈ v)); [eauto |].
  destruct ((0 <? buffer_size) && (buffer_size <? ord * 4 + kMinEntrySize));
    [eauto |].
  destruct ((0 <? buffer_size) && (buffer_size <? ord * 4 + 14 + _));
    [eauto | discriminate].
Qed.

(** With [visited = nullptr] the invocation works on an empty set (and
    on [root_size] when no array size is given): apart from the flag of
    its own entry in [calls], it is the invocation with the empty set. *)
Lemma ReadEntry_nullptr (state : ParseState) (buffer ord : Z)
    (parent : DiscImageEntry) (buffer_size depth : Z) :
  let size' := if buffer_size =? 0 then root_size state else buffer_size in
  exists o o',
    ReadEntry state buffer ord parent buffer_size depth None = Some o /\
    ReadEntry state buffer ord parent size' depth (Some ∅) = Some o' /\
    returned o = returned o' /\ parent_after o = parent_after o' /\
    visited_after o = visited_after o' /\ tl (calls o) = tl (calls o').
Proof.
  intros size'. rewrite !ReadEntry_unfold. unfold ReadEntry_body.
  cbn zeta iota beta. fold size'.
  destruct (kMaxRecursionDepth <? depth); [eauto 10 |].
  destruct (bool_decide _); [eauto 10 |].
  destruct (_ && _); [eauto 10 |].
  destruct (_ && _); [eauto 10 |].
  unfold decode_record.
  destruct (read_child _ _ (node_l _) _ _ _ _) as [[[p1 v1] cl] |] eqn:Hl.
  2:{ destruct (read_child_total (ReadEntry state) buffer
                  (node_l (read_record state (buffer + ord * 4))) parent size'
                  depth ({[ord]} ∪ ∅)) as [res Hres];
        [intros b o' p bs vv; apply ReadEntry_total | congruence]. }
  destruct (materialize _ _ _ _) as [[e cd] |] eqn:Hm.
  2:{ destruct (materialize_total (ReadEntry state) state
                  (read_record state (buffer + ord * 4)) depth) as [res Hres];
        [intros b o' p bs vv; apply ReadEntry_total | congruence]. }
  destruct (read_child _ _ (node_r _) _ _ _ _) as [[[p2 v2] cr] |] eqn:Hr.
  2:{ destruct (read_child_total (ReadEntry state) buffer
                  (node_r (read_record state (buffer + ord * 4)))
                  (add_child p1 e) size' depth v1) as [res Hres];
        [intros b o' p bs vv; apply ReadEntry_total | congruence]. }
  eauto 10.
Qed.

Lemma count_entries_pos (e : DiscImageEntry) : 1 <= count_entries e.
Proof.
  revert e. fix IH 1. intros [n a s al t1 t2 t3 d1 d2 ch].
  cbn [count_entries attributes_ children_].
  destruct (is_directory a); [| lia].
  assert (0 <= fold_right Z.add 0 (map count_entries ch)) as Hsum.
  { induction ch as [| c ch IHch]; cbn [map fold_right]; [lia |].
    pose proof (IH c). lia. }
  lia.
Qed.

Lemma total_entries_zero (root_entry : DiscImageEntry) :
  total_entries root_entry = 0 <-> children_ root_entry = [].
Proof.
  unfold total_entries. destruct (children_ root_entry) as [| c cs].
  - cbn. tauto.
  - split; [| discriminate]. cbn [map fold_right]. intros Hsum.
    pose proof (count_entries_pos c) as Hc.
    assert (0 <= fold_right Z.add 0 (map count_entries cs)) as Hcs.
    { clear Hsum. induction cs as [| c' cs IHcs]; cbn [map fold_right]; [lia |].
      pose proof (count_entries_pos c'). lia. }
    lia.
Qed.

Lemma entries_below_nil (e : DiscImageEntry) :
  entries_below e = [] <-> children_ e = [].
Proof.
  destruct e as [n a s al t1 t2 t3 d1 d2 ch]. cbn [entries_below children_].
  destruct ch as [| c cs]; cbn; split; intros Heq; try reflexivity;
    discriminate.
Qed.

(** ** Entries whose data lies outside the image *)

Lemma file_entry_out_of_image (state : ParseState) (r : DirRecord)
    (entry : DiscImageEntry) :
  size state <= game_offset state + sector r * kXESectorSize ->
  size_ (file_entry state r entry) = 0 /\
  data_size_ (file_entry state r entry) = 0 /\
  data_offset_ (file_entry state r entry) = 0.
Proof.
  intros Hout. unfold file_entry.
  apply Z.leb_le in Hout. rewrite Hout. now cbn.
Qed.

Lemma materialize_file (self : ReadEntryFn) (state : ParseState)
    (r : DirRecord) (depth : Z) :
  is_directory (attributes r) = false ->
  materialize self state r depth =
  Some (file_entry state r (create_entry r), []).
Proof. intros Hfile. unfold materialize. now rewrite Hfile. Qed.

(** A directory whose array starts strictly beyond the image is kept,
    empty. *)
Lemma materialize_directory_beyond (self : ReadEntryFn) (state : ParseState)
    (r : DirRecord) (depth : Z) :
  is_directory (attributes r) = true ->
  size state < game_offset state + sector r * kXESectorSize ->
  exists entry,
    materialize self state r depth = Some (entry, []) /\
    name_ entry = name r /\ size_ entry = 0 /\ data_size_ entry = 0 /\
    children_ entry = [].
Proof.
  intros Hdir Hout. unfold materialize. rewrite Hdir.
  destruct (Z.eqb_spec (length r) 0) as [Hz | Hnz]; cbn [negb].
  - eexists. split; [reflexivity |]. cbn. now rewrite Hz.
  - apply Z.ltb_lt in Hout. rewrite Hout.
    eexists. split; [reflexivity |]. now cbn.
Qed.

(** An accepted record is always materialized under its parent, whatever
    happens in its subtrees. *)
Lemma accepted_entry_materialized (state : ParseState) (buffer ord : Z)
    (parent : DiscImageEntry) (buffer_size depth : Z) (v : gset Z) :
  accepted state buffer ord buffer_size depth v = true ->
  exists o entry calls_d,
    ReadEntry state buffer ord parent buffer_size depth (Some v) = Some o /\
    materialize (ReadEntry state) state
      (read_record state (buffer + ord * 4)) depth = Some (entry, calls_d) /\
    returned o = true /\
    In entry (children_ (parent_after o)).
Proof.
  intros Hacc. destruct (accepted_inv _ _ _ _ _ _ Hacc) as [Hd _].
  rewrite (ReadEntry_accepted _ _ _ _ _ _ _ Hacc). unfold decode_record.
  assert (total_at (ReadEntry state) (depth + 1)) as Htot
    by (intros b o' p bs vv; apply ReadEntry_total).
  destruct (read_child_total _ buffer
              (node_l (read_record state (buffer + ord * 4))) parent
              buffer_size depth ({[ord]} ∪ v) Htot) as [[[p1 v1] cl] ->].
  destruct (materialize_total _ state
              (read_record state (buffer + ord * 4)) depth Htot)
    as [[e cd] ->].
  destruct (read_child_total _ buffer
              (node_r (read_record state (buffer + ord * 4))) (add_child p1 e)
              buffer_size depth v1 Htot) as [[[p2 v2] cr] Hr].
  rewrite Hr.
  destruct (read_child_sound _ _ _ _ _ _ _ _ _ _
              (ReadEntry_sound state (depth + 1)) Hd Hr) as [Hext _].
  apply extends_children in Hext as [more Hmore].
  eexists _, e, cd. repeat split. cbn [parent_after].
  rewrite Hmore. cbn [add_child children_].
  apply in_or_app. left. apply in_or_app. right. now left.
Qed.

(** C10. A [node_l] or [node_r] of 0 means "no child": [read_child] on
    ordinal 0 makes no invocation at all, so an accepted record with
    [node_l = 0] is decoded as entry then right child, and one with
    [node_r = 0] as left child then entry.  Consequently, among all the
    invocations [ReadEntry] makes, the ones with the caller's visited set
    (children) are on nonzero ordinals, and ordinal 0 is only ever
    decoded with a fresh set, as the entry point of an array. *)
Theorem zero_ordinal_is_no_child (state : ParseState) :
  (forall (self : ReadEntryFn) buffer parent buffer_size depth (v : gset Z),
     read_child self buffer 0 parent buffer_size depth v = Some (parent, v, [])) /\
  (forall buffer ord parent buffer_size depth (v : gset Z),
     accepted state buffer ord buffer_size depth v = true ->
     let r := read_record state (buffer + ord * 4) in
     node_l r = 0 ->
     exists entry calls_d parent' v' calls_r,
       materialize (ReadEntry state) state r depth = Some (entry, calls_d) /\
       read_child (ReadEntry state) buffer (node_r r) (add_child parent entry)
                  buffer_size depth ({[ord]} ∪ v) = Some (parent', v', calls_r) /\
       ReadEntry state buffer ord parent buffer_size depth (Some v) =
       Some (mkOutcome true parent' v'
               (mkCall buffer ord depth false :: calls_d ++ calls_r))) /\
  (forall buffer ord parent buffer_size depth (v : gset Z),
     accepted state buffer ord buffer_size depth v = true ->
     let r := read_record state (buffer + ord * 4) in
     node_r r = 0 ->
     exists parent_l v_l calls_l entry calls_d,
       read_child (ReadEntry state) buffer (node_l r) parent buffer_size depth
                  ({[ord]} ∪ v) = Some (parent_l, v_l, calls_l) /\
       materialize (ReadEntry state) state r depth = Some (entry, calls_d) /\
       ReadEntry state buffer ord parent buffer_size depth (Some v) =
       Some (mkOutcome true (add_child parent_l entry) v_l
               (mkCall buffer ord depth false :: calls_l ++ calls_d))) /\
  (forall buffer ord parent buffer_size depth visited,
     exists o rest,
       ReadEntry state buffer ord parent buffer_size depth visited = Some o /\
       calls o = mkCall buffer ord depth (fresh_flag visited) :: rest /\
       Forall call_ok rest) /\
  (forall buffer parent buffer_size depth,
     exists o,
       ReadEntry state buffer 0 parent buffer_size depth None = Some o /\
       Forall call_ok (calls o)).
Proof.
  assert (forall d, total_at (ReadEntry state) d) as Htot
    by (intros d b o' p bs vv; apply ReadEntry_total).
  assert (forall buffer ord parent buffer_size depth visited,
            exists o rest,
              ReadEntry state buffer ord parent buffer_size depth visited = Some o /\
              calls o = mkCall buffer ord depth (fresh_flag visited) :: rest /\
              Forall call_ok rest) as Hcalls.
  { intros buffer ord parent buffer_size depth visited.
    destruct (ReadEntry_total state buffer ord parent buffer_size depth visited)
      as [o Ho].
    destruct (ReadEntry_sound state depth _ _ _ _ _ _ Ho)
      as [_ (rest & Hrest & Hbelow)].
    exists o, rest. repeat split; [exact Ho | exact Hrest |].
    revert Hbelow. unfold calls_below. apply List.Forall_impl.
    now intros c [Hc _]. }
  split; [| split; [| split; [| split]]].
  - intros. reflexivity.
  - intros buffer ord parent buffer_size depth v Hacc r Hz.
    rewrite (ReadEntry_accepted _ _ _ _ _ _ _ Hacc). fold r.
    unfold decode_record. rewrite Hz. cbn [read_child Z.eqb].
    destruct (materialize_total _ state r depth (Htot (depth + 1)))
      as [[e cd] Hm].
    destruct (read_child_total _ buffer (node_r r) (add_child parent e)
                buffer_size depth ({[ord]} ∪ v) (Htot (depth + 1)))
      as [[[p2 v2] cr] Hr].
    exists e, cd, p2, v2, cr. rewrite Hm, Hr. now repeat split.
  - intros buffer ord parent buffer_size depth v Hacc r Hz.
    rewrite (ReadEntry_accepted _ _ _ _ _ _ _ Hacc). fold r.
    unfold decode_record.
    destruct (read_child_total _ buffer (node_l r) parent buffer_size depth
                ({[ord]} ∪ v) (Htot (depth + 1))) as [[[p1 v1] cl] Hl].
    destruct (materialize_total _ state r depth (Htot (depth + 1)))
      as [[e cd] Hm].
    exists p1, v1, cl, e, cd. rewrite Hl, Hm, Hz. cbn [read_child Z.eqb].
    rewrite app_nil_r. now repeat split.
  - exact Hcalls.
  - intros buffer parent buffer_size depth.
    destruct (Hcalls buffer 0 parent buffer_size depth None)
      as (o & rest & Ho & Hc & Hrest).
    exists o. split; [exact Ho |]. rewrite Hc.
    constructor; [reflexivity | exact Hrest].
Qed.

(** C5. [ReadAllEntries] returns Success or OutOfMemory, and Success
    exactly when the tree under the root holds at least one entry, that
    is when [total_entries] is not 0.  The value [ReadEntry] returned for
    the root array plays no part.  [Initialize] returns true exactly when
    [ReadAllEntries] returns Success. *)
Theorem ReadAllEntries_success_iff (state : ParseState) (root_buffer : Z) :
  exists result root_entry o,
    ReadAllEntries state root_buffer = Some (result, root_entry) /\
    ReadEntry state root_buffer 0 new_root_entry 0 0 None = Some o /\
    root_entry = parent_after o /\
    (result = kSuccess \/ result = kErrorOutOfMemory) /\
    (result = kSuccess <-> entries_below root_entry <> []) /\
    (result = kErrorOutOfMemory <-> entries_below root_entry = []) /\
    (total_entries root_entry = 0 <-> entries_below root_entry = []) /\
    (forall mem mapped_size,
       Verify (mkParseState mem mapped_size 0 0 0 0) = (kSuccess, state) ->
       root_buffer = root_offset state ->
       Initialize_mapped mem mapped_size =
       Some (Error_eqb result kSuccess, Some root_entry)).
Proof.
  assert (forall result root_entry mem mapped_size,
            ReadAllEntries state root_buffer = Some (result, root_entry) ->
            Verify (mkParseState mem mapped_size 0 0 0 0) = (kSuccess, state) ->
            root_buffer = root_offset state ->
            Initialize_mapped mem mapped_size =
            Some (Error_eqb result kSuccess, Some root_entry)) as Hinit.
  { intros result root_entry mem mapped_size Hr Hv ->.
    unfold Initialize_mapped. rewrite Hv. cbn [Error_eqb negb]. rewrite Hr.
    now destruct result. }
  revert Hinit. unfold ReadAllEntries.
  destruct (ReadEntry_total state root_buffer 0 new_root_entry 0 0 None)
    as [o Ho].
  rewrite Ho.
  pose proof (total_entries_zero (parent_after o)) as Hzero.
  pose proof (entries_below_nil (parent_after o)) as Hnil.
  destruct (Z.eqb_spec (total_entries (parent_after o)) 0) as [Hz | Hnz];
    intros Hinit.
  - exists kErrorOutOfMemory, (parent_after o), o.
    repeat split; try tauto; try discriminate; try (intros; tauto).
    intros mem mapped_size. now apply Hinit.
  - exists kSuccess, (parent_after o), o.
    repeat split; try tauto; try discriminate; try (intros; tauto).
    intros mem mapped_size. now apply Hinit.
Qed.

(** The part of C2 that holds: an accepted record whose data offset lies
    at or beyond the image size, for a file, or strictly beyond it, for a
    directory, is added to its parent with size and data size 0, and the
    invocation goes on to return true. *)
Lemma out_of_image_entry_kept_empty (state : ParseState) (buffer ord : Z)
    (parent : DiscImageEntry) (buffer_size depth : Z) (v : gset Z) :
  accepted state buffer ord buffer_size depth v = true ->
  let r := read_record state (buffer + ord * 4) in
  let offset := game_offset state + sector r * kXESectorSize in
  (is_directory (attributes r) = false /\ size state <= offset) \/
  (is_directory (attributes r) = true /\ size state < offset) ->
  exists o entry,
    ReadEntry state buffer ord parent buffer_size depth (Some v) = Some o /\
    returned o = true /\
    In entry (children_ (parent_after o)) /\
    name_ entry = name r /\ size_ entry = 0 /\ data_size_ entry = 0.
Proof.
  intros Hacc r offset Hout.
  destruct (accepted_entry_materialized state buffer ord parent buffer_size
              depth v Hacc) as (o & entry & cd & Ho & Hm & Hret & Hin).
  fold r in Hm. exists o, entry. repeat split; try assumption.
  all: destruct Hout as [[Hfile Hoff] | [Hdir Hoff]].
  all: try (rewrite materialize_file in Hm by exact Hfile;
            injection Hm as <- <-;
            destruct (file_entry_out_of_image state r (create_entry r) Hoff)
              as (Hs & Hds & _)).
  all: try (destruct (materialize_directory_beyond (ReadEntry state) state r
                        depth Hdir Hoff) as (e' & Hm' & Hn & Hs & Hds & _);
            rewrite Hm' in Hm; injection Hm as <- <-).
  all: try assumption.
  unfold file_entry. now destruct (_ <=? _).
Qed.

(** ** What [Verify] leaves in the state *)

(** The scan touches [game_offset] only. *)
Lemma scan_offsets_frame (offsets : list Z) :
  forall state found state' probed,
    scan_offsets state offsets = (found, state', probed) ->
    ptr state' = ptr state /\ size state' = size state.
Proof.
  induction offsets as [| o rest IH]; intros state found state' probed;
    cbn [scan_offsets].
  - intros [= _ <- _]. now split.
  - destruct (VerifyMagic _ _).
    + intros [= _ <- _]. now split.
    + destruct (scan_offsets (set_game_offset state o) rest)
        as [[f st] pr] eqn:Hrest.
      intros [= _ <- _]. apply IH in Hrest. exact Hrest.
Qed.

(** A scan that finds nothing has seen no magic at any candidate. *)
Lemma scan_offsets_none (offsets : list Z) :
  forall state state' probed,
    scan_offsets state offsets = (false, state', probed) ->
    forall o, In o offsets -> VerifyMagic state (magic_offset_of o) = false.
Proof.
  unfold magic_offset_of.
  induction offsets as [| o rest IH]; intros state state' probed Hscan o' Hin;
    [destruct Hin |].
  cbn [scan_offsets] in Hscan. cbn [game_offset set_game_offset] in Hscan.
  change (VerifyMagic (set_game_offset state o) (o + 32 * kXESectorSize))
    with (VerifyMagic state (o + 32 * kXESectorSize)) in Hscan.
  destruct (VerifyMagic state (o + 32 * kXESectorSize)) eqn:Ho;
    [discriminate |].
  destruct (scan_offsets (set_game_offset state o) rest)
    as [[f st] pr] eqn:Hrest.
  injection Hscan as -> _ _.
  destruct Hin as [<- | Hin]; [exact Ho |].
  exact (IH _ _ _ Hrest o' Hin).
Qed.

(** X12. What [Verify] guarantees.  It changes neither the mapping nor
    its size, and returns Success, FileMismatch or DamagedFile, never
    ReadError or OutOfMemory; FileMismatch exactly when none of the five
    candidates carries the magic.  On Success, [game_offset] is a
    candidate whose magic matched, [root_sector] and [root_size] are the
    32-bit values 20 and 24 bytes past the magic, [root_offset] is
    [game_offset + root_sector * 2048], the root size lies in
    [13, 32 MiB], and the root directory lies wholly inside the file. *)
Theorem Verify_postcondition (state : ParseState) :
  let err := fst (Verify state) in
  let state' := snd (Verify state) in
  ptr state' = ptr state /\ size state' = size state /\
  (err = kSuccess \/ err = kErrorFileMismatch \/ err = kErrorDamagedFile) /\
  (err = kErrorFileMismatch <->
   forall o, In o likely_offsets -> VerifyMagic state (magic_offset_of o) = false) /\
  (err = kSuccess ->
   In (game_offset state') likely_offsets /\
   VerifyMagic state (magic_offset_of (game_offset state')) = true /\
   root_sector state' =
     load_uint32 (ptr state) (magic_offset_of (game_offset state') + 20) /\
   root_size state' =
     load_uint32 (ptr state) (magic_offset_of (game_offset state') + 24) /\
   root_offset state' = game_offset state' + root_sector state' * kXESectorSize /\
   13 <= root_size state' <= MiB32 /\
   0 <= root_offset state' /\
   root_offset state' + root_size state' <= size state').
Proof.
  cbn zeta.
  destruct (scan_offsets state likely_offsets) as [[found st] probed] eqn:Hscan.
  rewrite (Verify_after_scan _ _ _ _ Hscan).
  destruct (scan_offsets_frame _ _ _ _ _ Hscan) as [Hptr Hsize].
  destruct found.
  - destruct (scan_offsets_found _ _ _ _ Hscan) as (g & Hin & -> & Hg).
    pose proof Hg as Hg'. unfold magic_offset_of in Hg.
    apply VerifyMagic_spec in Hg' as [Hlt _]. unfold magic_offset_of in Hlt.
    pose proof (likely_offsets_range g Hin) as Hrange.
    unfold read_fs_state, magic_offset_of.
    cbn [game_offset set_game_offset size ptr root_size root_offset root_sector].
    destruct (Z.ltb_spec (size state) (g + 32 * kXESectorSize)) as [Hbad | _];
      [lia |].
    set (rsize := load_uint32 (ptr state) (g + 32 * kXESectorSize + 24)).
    set (rsector := load_uint32 (ptr state) (g + 32 * kXESectorSize + 20)).
    pose proof (load_uint32_range (ptr state) (g + 32 * kXESectorSize + 20))
      as Hsector. fold rsector in Hsector.
    assert (forall e st',
              (e = kErrorDamagedFile \/
               e = kSuccess /\ 13 <= rsize <= MiB32 /\
               g + rsector * kXESectorSize + rsize <= size state) ->
              st' = mkParseState (ptr state) (size state) g rsector rsize
                                 (g + rsector * kXESectorSize) ->
              ptr (snd (e, st')) = ptr state /\
              size (snd (e, st')) = size state /\
              (fst (e, st') = kSuccess \/ fst (e, st') = kErrorFileMismatch \/
               fst (e, st') = kErrorDamagedFile) /\
              (fst (e, st') = kErrorFileMismatch <->
               forall o, In o likely_offsets ->
                 VerifyMagic state (o + 32 * kXESectorSize) = false) /\
              (fst (e, st') = kSuccess ->
               In (game_offset (snd (e, st'))) likely_offsets /\
               VerifyMagic state (game_offset (snd (e, st')) + 32 * kXESectorSize)
                 = true /\
               root_sector (snd (e, st')) =
                 load_uint32 (ptr state)
                   (game_offset (snd (e, st')) + 32 * kXESectorSize + 20) /\
               root_size (snd (e, st')) =
                 load_uint32 (ptr state)
                   (game_offset (snd (e, st')) + 32 * kXESectorSize + 24) /\
               root_offset (snd (e, st')) =
                 game_offset (snd (e, st'))
                 + root_sector (snd (e, st')) * kXESectorSize /\
               13 <= root_size (snd (e, st')) <= MiB32 /\
               0 <= root_offset (snd (e, st')) /\
               root_offset (snd (e, st')) + root_size (snd (e, st'))
                 <= size (snd (e, st')))) as Hshape.
    { intros e st' He ->. cbn [fst snd ptr size game_offset root_sector
                               root_size root_offset].
      split; [reflexivity |]. split; [reflexivity |].
      split; [destruct He as [-> | [-> _]]; tauto |].
      split.
      - split.
        + destruct He as [-> | [-> _]]; discriminate.
        + intros Hnone. specialize (Hnone g Hin). congruence.
      - intros ->. destruct He as [He | (_ & Hr & Hend)]; [discriminate |].
        fold rsector rsize.
        repeat split; try assumption; try lia.
        unfold kXESectorSize. lia. }
    destruct ((rsize <? 13) || (MiB32 <? rsize)) eqn:Hr;
      [apply Hshape; [now left | reflexivity] |].
    apply orb_false_iff in Hr as [Hr1 Hr2].
    apply Z.ltb_ge in Hr1, Hr2.
    destruct (Z.leb_spec (size state) (g + rsector * kXESectorSize));
      [apply Hshape; [now left | reflexivity] |].
    destruct (Z.ltb_spec (size state) (g + rsector * kXESectorSize + rsize));
      [apply Hshape; [now left | reflexivity] |].
    apply Hshape; [right | reflexivity]. repeat split; lia.
  - cbn [fst snd]. repeat split; try assumption; try tauto; try discriminate.
    intros _. exact (scan_offsets_none _ _ _ _ Hscan).
Qed.

(** ** A root directory too short to hold a record *)

(** X13. [Verify] accepts a root directory of 13 to 17 bytes, but no
    record fits in fewer than 18: for such a root (any [root_size] from
    1 to 17) the bounds check stops [ReadEntry] before it reads
    anything, [ReadAllEntries] leaves the root empty and returns
    OutOfMemory, and [Initialize] returns false. *)
Theorem short_root_is_rejected (state : ParseState) (root_buffer : Z) :
  0 < root_size state < kMinEntrySize ->
  ReadEntry state root_buffer 0 new_root_entry 0 0 None =
    Some (mkOutcome false new_root_entry {[0]} [mkCall root_buffer 0 0 true]) /\
  ReadAllEntries state root_buffer = Some (kErrorOutOfMemory, new_root_entry) /\
  (forall mem mapped_size,
     Verify (mkParseState mem mapped_size 0 0 0 0) = (kSuccess, state) ->
     Initialize_mapped mem mapped_size = Some (false, Some new_root_entry)).
Proof.
  intros Hshort.
  assert (forall buf,
            ReadEntry state buf 0 new_root_entry 0 0 None =
            Some (mkOutcome false new_root_entry {[0]} [mkCall buf 0 0 true]))
    as Hread.
  { intros buf. rewrite ReadEntry_unfold. unfold ReadEntry_body.
    cbn zeta iota beta. rewrite Z.eqb_refl.
    destruct (Z.ltb_spec kMaxRecursionDepth 0) as [Hbad | _];
      [unfold kMaxRecursionDepth in Hbad; lia |].
    rewrite bool_decide_eq_false_2 by set_solver.
    destruct (Z.ltb_spec 0 (root_size state)) as [_ | Hbad]; [| lia].
    destruct (Z.ltb_spec (root_size state) (0 * 4 + kMinEntrySize))
      as [_ | Hbad]; [| lia].
    cbn [andb]. do 2 f_equal; try (apply leibniz_equiv; set_solver). }
  assert (forall buf,
            ReadAllEntries state buf = Some (kErrorOutOfMemory, new_root_entry))
    as Hall.
  { intros buf. unfold ReadAllEntries. rewrite Hread. reflexivity. }
  split; [apply Hread |]. split; [apply Hall |].
  intros mem mapped_size Hverify. unfold Initialize_mapped.
  rewrite Hverify. cbn [Error_eqb negb]. now rewrite Hall.
Qed.

(** ** The shape of the decoded tree *)

(** The number of levels of entries below [e]. *)
Fixpoint height (e : DiscImageEntry) : Z :=
  fold_right Z.max 0 (map (fun c => 1 + height c) (children_ e)).

(** What [ReadEntry] establishes for each entry it adds. *)
Definition entry_ok (state : ParseState) (e : DiscImageEntry) : Prop :=
  create_timestamp_ e = epoch_timestamp /\
  access_timestamp_ e = epoch_timestamp /\
  write_timestamp_ e = epoch_timestamp /\
  (List.length (name_ e) <= 255)%nat /\
  0 <= size_ e < 2 ^ 32 /\
  Z.land (attributes_ e) kFileAttributeReadOnly = kFileAttributeReadOnly /\
  (children_ e <> [] -> is_directory (attributes_ e) = true) /\
  (data_offset_ e = 0 /\ data_size_ e = 0 \/
   children_ e = [] /\ data_size_ e = size_ e /\
   game_offset state <= data_offset_ e < size state).

(** At most one child for each 16-bit ordinal. *)
Definition narrow (e : DiscImageEntry) : Prop :=
  Z.of_nat (List.length (children_ e)) <= 65536.

(** An entry created at depth [depth], with all that lies below it. *)
Definition tree_ok (state : ParseState) (depth : Z) (e : DiscImageEntry) : Prop :=
  Forall (fun x => entry_ok state x /\ narrow x) (e :: entries_below e) /\
  height e + depth <= kMaxRecursionDepth.

(** [parent] with the entries [more] added at the end of its children. *)
Definition append_children (parent : DiscImageEntry)
    (more : list DiscImageEntry) : DiscImageEntry :=
  mkEntry (name_ parent) (attributes_ parent) (size_ parent)
          (allocation_size_ parent) (create_timestamp_ parent)
          (access_timestamp_ parent) (write_timestamp_ parent)
          (data_offset_ parent) (data_size_ parent)
          (children_ parent ++ more).

(** What an invocation at depth [depth] on ordinal [ord], with the
    visited set [v], leaves behind: entries added to the parent, each
    well-formed with its subtree; a larger visited set, by at least one
    ordinal for each entry added; nothing in the set that was not there,
    is not [ord], and is not a 16-bit ordinal. *)
Definition grown (state : ParseState) (depth ord : Z) (v : gset Z)
    (parent parent' : DiscImageEntry) (v' : gset Z) : Prop :=
  exists more,
    parent' = append_children parent more /\
    Forall (tree_ok state depth) more /\
    v ⊆ v' /\
    (List.length more + base.size v <= base.size v')%nat /\
    (forall x, x ∈ v' -> x ∈ v \/ x = ord \/ 0 <= x < 2 ^ 16).

Definition grows_at (self : ReadEntryFn) (state : ParseState) (d : Z) : Prop :=
  forall buffer ord parent buffer_size visited o,
    self buffer ord parent buffer_size d visited = Some o ->
    grown state d ord (default ∅ visited) parent (parent_after o)
          (visited_after o).

Lemma append_children_nil (parent : DiscImageEntry) :
  append_children parent [] = parent.
Proof. unfold append_children. rewrite app_nil_r. now destruct parent. Qed.

Lemma append_children_app (parent : DiscImageEntry)
    (m1 m2 : list DiscImageEntry) :
  append_children (append_children parent m1) m2 =
  append_children parent (m1 ++ m2).
Proof. unfold append_children. cbn. now rewrite app_assoc. Qed.

Lemma add_child_append (parent entry : DiscImageEntry) :
  add_child parent entry = append_children parent [entry].
Proof. reflexivity. Qed.

Lemma height_children (e : DiscImageEntry) :
  height e = fold_right Z.max 0 (map (fun c => 1 + height c) (children_ e)).
Proof. now destruct e. Qed.

Lemma entries_below_children (e : DiscImageEntry) :
  entries_below e = flat_map (fun c => c :: entries_below c) (children_ e).
Proof. now destruct e. Qed.

Lemma height_nonneg (e : DiscImageEntry) : 0 <= height e.
Proof.
  rewrite height_children.
  induction (children_ e) as [| c cs IH]; cbn [map fold_right]; lia.
Qed.

Lemma tree_ok_weaken (state : ParseState) (d d' : Z) (e : DiscImageEntry) :
  d' <= d -> tree_ok state d e -> tree_ok state d' e.
Proof. intros Hd [Hall Hh]. split; [exact Hall | lia]. Qed.

(** A directory entry whose children are well-formed trees one level
    deeper is a well-formed tree. *)
Lemma tree_ok_directory (state : ParseState) (depth : Z)
    (e : DiscImageEntry) :
  entry_ok state e -> narrow e ->
  depth <= kMaxRecursionDepth ->
  Forall (tree_ok state (depth + 1)) (children_ e) ->
  tree_ok state depth e.
Proof.
  intros Hok Hnarrow Hd Hch. split.
  - constructor; [now split |].
    rewrite entries_below_children.
    induction Hch as [| c cs [Hc _] _ IH]; cbn [flat_map]; [constructor |].
    apply Forall_app. split; [exact Hc | exact IH].
  - rewrite height_children.
    induction Hch as [| c cs [_ Hc] _ IH]; cbn [map fold_right]; lia.
Qed.

Lemma size_ordinals (v : gset Z) :
  (forall x, x ∈ v -> 0 <= x < 2 ^ 16) -> Z.of_nat (base.size v) <= 65536.
Proof.
  intros Hrange.
  assert (v ⊆ list_to_set (seqZ 0 65536)) as Hsub.
  { intros x Hx. apply elem_of_list_to_set, elem_of_seqZ.
    specialize (Hrange x Hx). lia. }
  apply subseteq_size in Hsub.
  rewrite size_list_to_set in Hsub by apply NoDup_seqZ.
  rewrite length_seqZ in Hsub. lia.
Qed.

Lemma land_lor_absorb (a b : Z) : Z.land (Z.lor a b) b = b.
Proof.
  apply Z.bits_inj'; intros n _. rewrite Z.land_spec, Z.lor_spec.
  destruct (Z.testbit a n), (Z.testbit b n); reflexivity.
Qed.

Lemma is_directory_lor (a b : Z) :
  is_directory a = true -> is_directory (Z.lor a b) = true.
Proof.
  unfold is_directory. rewrite !negb_true_iff, !Z.eqb_neq.
  intros Ha Hab. apply Ha.
  rewrite Z.land_lor_distr_l in Hab. now apply Z.lor_eq_0_iff in Hab.
Qed.

(** The fields of a record as [read_record] loads them. *)
Lemma read_record_ranges (state : ParseState) (p : Z) :
  let r := read_record state p in
  0 <= node_l r < 2 ^ 16 /\ 0 <= node_r r < 2 ^ 16 /\
  0 <= sector r < 2 ^ 32 /\ 0 <= length r < 2 ^ 32 /\
  (List.length (name r) <= 255)%nat.
Proof.
  cbn zeta. unfold read_record.
  cbn [node_l node_r sector length name name_length].
  pose proof (load_uint16_range (ptr state) (p + 0)).
  pose proof (load_uint16_range (ptr state) (p + 2)).
  pose proof (load_uint32_range (ptr state) (p + 4)).
  pose proof (load_uint32_range (ptr state) (p + 8)).
  pose proof (byte_val_range (ptr state (p + 13))).
  rewrite length_map, length_seq. repeat split; lia.
Qed.

Lemma create_entry_ok (state : ParseState) (p : Z) :
  let e := create_entry (read_record state p) in
  create_timestamp_ e = epoch_timestamp /\
  access_timestamp_ e = epoch_timestamp /\
  write_timestamp_ e = epoch_timestamp /\
  (List.length (name_ e) <= 255)%nat /\
  0 <= size_ e < 2 ^ 32 /\
  Z.land (attributes_ e) kFileAttributeReadOnly = kFileAttributeReadOnly /\
  children_ e = [] /\ data_offset_ e = 0 /\ data_size_ e = 0.
Proof.
  cbn zeta.
  destruct (read_record_ranges state p) as (_ & _ & _ & Hlen & Hname).
  unfold create_entry.
  cbn [create_timestamp_ access_timestamp_ write_timestamp_ name_ size_
       attributes_ children_ data_offset_ data_size_].
  repeat split; try assumption; try lia. apply land_lor_absorb.
Qed.

Lemma read_child_grows self state buffer node parent buffer_size depth visited
    parent' visited' cs :
  grows_at self state (depth + 1) ->
  0 <= node < 2 ^ 16 ->
  read_child self buffer node parent buffer_size depth visited =
    Some (parent', visited', cs) ->
  exists more,
    parent' = append_children parent more /\
    Forall (tree_ok state depth) more /\
    visited ⊆ visited' /\
    (List.length more + base.size visited <= base.size visited')%nat /\
    (forall x, x ∈ visited' -> x ∈ visited \/ 0 <= x < 2 ^ 16).
Proof.
  intros Hgrows Hnode. unfold read_child.
  destruct (Z.eqb_spec node 0) as [-> | Hnz].
  - intros [= <- <- <-]. exists [].
    rewrite append_children_nil. repeat split; auto.
  - destruct (self buffer node parent buffer_size (depth + 1) (Some visited))
      as [o |] eqn:Hself; [| discriminate].
    intros [= <- <- <-].
    destruct (Hgrows _ _ _ _ _ _ Hself) as (more & Hp & Hall & Hsub & Hsize & Hin).
    cbn [default] in *. exists more. repeat split; try assumption.
    + revert Hall. apply List.Forall_impl. intros e.
      apply tree_ok_weaken. lia.
    + intros x Hx. destruct (Hin x Hx) as [Hv | [-> | Hr]]; auto.
Qed.

Lemma materialize_grows self state p depth entry cs :
  grows_at self state (depth + 1) ->
  depth <= kMaxRecursionDepth ->
  materialize self state (read_record state p) depth = Some (entry, cs) ->
  tree_ok state depth entry.
Proof.
  intros Hgrows Hd. unfold materialize.
  destruct (create_entry_ok state p)
    as (Ht1 & Ht2 & Ht3 & Hname & Hsize & Hro & Hch & Hoff & Hdsz).
  destruct (read_record_ranges state p) as (_ & _ & Hsector & Hlen & _).
  set (r := read_record state p) in *.
  assert (forall e,
            entry_ok state e -> children_ e = [] -> tree_ok state depth e)
    as Hleaf.
  { intros e Hok He. apply tree_ok_directory; try assumption.
    - unfold narrow. rewrite He. cbn. lia.
    - rewrite He. constructor. }
  destruct (is_directory (attributes r)) eqn:Hdir.
  - assert (entry_ok state (set_data (create_entry r) 0 0)) as Hentry0.
    { unfold entry_ok, set_data.
      cbn [create_timestamp_ access_timestamp_ write_timestamp_ name_ size_
           attributes_ children_ data_offset_ data_size_].
      rewrite Hch. repeat split; try assumption; try lia; try tauto. }
    destruct (negb (length r =? 0)).
    + destruct (size state <? _).
      * intros [= <- <-]. apply Hleaf; [| exact Hch].
        destruct Hentry0 as (? & ? & ? & ? & ? & ? & ? & ?).
        unfold entry_ok, set_size, set_data in *.
        cbn [create_timestamp_ access_timestamp_ write_timestamp_ name_ size_
             attributes_ children_ data_offset_ data_size_] in *.
        repeat split; try assumption; try lia; try tauto.
      * match goal with
        | |- context [self ?b ?o ?pa ?bs ?d ?v] =>
          destruct (self b o pa bs d v) as [out |] eqn:Hself; [| discriminate]
        end.
        intros [= <- <-].
        destruct (Hgrows _ _ _ _ _ _ Hself)
          as (more & Hp & Hall & _ & Hcount & Hin).
        cbn [default] in *. rewrite Hp.
        assert (children_ (append_children (set_data (create_entry r) 0 0) more)
                = more) as Hchildren
          by (cbn [append_children children_ set_data]; now rewrite Hch).
        apply tree_ok_directory; try assumption.
        -- destruct Hentry0 as (? & ? & ? & ? & ? & ? & ? & ?).
           unfold entry_ok.
           cbn [append_children set_data create_timestamp_ access_timestamp_
                write_timestamp_ name_ size_ attributes_ data_offset_
                data_size_] in *.
           repeat split; try assumption; try lia; try tauto.
           intros _. cbn [create_entry attributes_].
           now apply is_directory_lor.
        -- unfold narrow. rewrite Hchildren.
           assert (Z.of_nat (base.size (visited_after out)) <= 65536) as Hv.
           { apply size_ordinals. intros x Hx.
             destruct (Hin x Hx) as [Hempty | [-> | Hr]]; [set_solver | lia | lia]. }
           lia.
    + intros [= <- <-]. now apply Hleaf.
  - intros [= <- <-]. unfold file_entry.
    destruct (Z.leb_spec (size state) (game_offset state + sector r * kXESectorSize))
      as [Hout | Hin]; apply Hleaf; try exact Hch;
      unfold entry_ok, set_size, set_data;
      cbn [create_timestamp_ access_timestamp_ write_timestamp_ name_ size_
           attributes_ children_ data_offset_ data_size_];
      rewrite ?Hch; repeat split; try assumption; try lia; try tauto.
    right. repeat split; try reflexivity; try assumption.
    unfold kXESectorSize. lia.
Qed.

Lemma decode_record_grows self state buffer p parent buffer_size depth visited
    this_call o :
  grows_at self state (depth + 1) ->
  depth <= kMaxRecursionDepth ->
  decode_record self state buffer (read_record state p) parent buffer_size
                depth visited this_call = Some o ->
  exists more,
    parent_after o = append_children parent more /\
    Forall (tree_ok state depth) more /\
    visited ⊆ visited_after o /\
    (List.length more + base.size visited <= S (base.size (visited_after o)))%nat /\
    (forall x, x ∈ visited_after o -> x ∈ visited \/ 0 <= x < 2 ^ 16).
Proof.
  intros Hgrows Hd. unfold decode_record.
  destruct (read_record_ranges state p) as (Hl & Hr & _).
  destruct (read_child self buffer (node_l _) _ _ _ _)
    as [[[p1 v1] cl] |] eqn:Hleft; [| discriminate].
  destruct (materialize self state _ depth) as [[e cd] |] eqn:Hm;
    [| discriminate].
  destruct (read_child self buffer (node_r _) _ _ _ _)
    as [[[p2 v2] cr] |] eqn:Hright; [| discriminate].
  intros [= <-]. cbn [parent_after visited_after].
  destruct (read_child_grows _ _ _ _ _ _ _ _ _ _ _ Hgrows Hl Hleft)
    as (ml & -> & Hall_l & Hsub_l & Hsize_l & Hin_l).
  destruct (read_child_grows _ _ _ _ _ _ _ _ _ _ _ Hgrows Hr Hright)
    as (mr & -> & Hall_r & Hsub_r & Hsize_r & Hin_r).
  pose proof (materialize_grows _ _ _ _ _ _ Hgrows Hd Hm) as He.
  exists (ml ++ [e] ++ mr).
  rewrite add_child_append, !append_children_app. split; [reflexivity |].
  split; [| split; [| split]].
  - apply Forall_app. split; [exact Hall_l |].
    apply Forall_app. split; [now constructor | exact Hall_r].
  - now transitivity v1.
  - rewrite !length_app. cbn [List.length]. lia.
  - intros x Hx. destruct (Hin_r x Hx) as [Hv1 | Hrange]; [| now right].
    exact (Hin_l x Hv1).
Qed.

Lemma ReadEntry_body_grows self state buffer ord parent buffer_size depth
    visited o :
  (depth <= kMaxRecursionDepth -> grows_at self state (depth + 1)) ->
  ReadEntry_body self state buffer ord parent buffer_size depth visited = Some o ->
  grown state depth ord (default ∅ visited) parent (parent_after o)
        (visited_after o).
Proof.
  intros Hgrows. unfold ReadEntry_body.
  set (v := default ∅ visited).
  assert (forall v' calls_,
            v ⊆ v' -> (forall x, x ∈ v' -> x ∈ v \/ x = ord) ->
            grown state depth ord v parent
              (parent_after (mkOutcome false parent v' calls_))
              (visited_after (mkOutcome false parent v' calls_))) as Habort.
  { intros v' calls_ Hsub Hin. exists []. cbn [parent_after visited_after].
    rewrite append_children_nil. repeat split; auto.
    - cbn [List.length Nat.add]. now apply subseteq_size.
    - intros x Hx. destruct (Hin x Hx); auto. }
  assert (forall bs,
            (if kMaxRecursionDepth <? depth
             then Some (mkOutcome false parent v
                          [mkCall buffer ord depth (fresh_flag visited)])
             else if bool_decide (ord ∈ v)
             then Some (mkOutcome false parent v
                          [mkCall buffer ord depth (fresh_flag visited)])
             else
               if (0 <? bs) && (bs <? ord * 4 + kMinEntrySize)
               then Some (mkOutcome false parent ({[ord]} ∪ v)
                            [mkCall buffer ord depth (fresh_flag visited)])
               else
                 if (0 <? bs)
                    && (bs <? ord * 4 + 14
                              + name_length (read_record state (buffer + ord * 4)))
                 then Some (mkOutcome false parent ({[ord]} ∪ v)
                              [mkCall buffer ord depth (fresh_flag visited)])
                 else decode_record self state buffer
                        (read_record state (buffer + ord * 4)) parent bs depth
                        ({[ord]} ∪ v)
                        (mkCall buffer ord depth (fresh_flag visited))) = Some o ->
            grown state depth ord v parent (parent_after o) (visited_after o))
    as Hmain.
  { intros bs.
    destruct (Z.ltb_spec kMaxRecursionDepth depth) as [Hdeep | Hd];
      [intros [= <-]; apply Habort; [set_solver | auto] |].
    destruct (bool_decide (ord ∈ v)) eqn:Hvis;
      [intros [= <-]; apply Habort; [set_solver | auto] |].
    apply bool_decide_eq_false in Hvis.
    assert (forall x, x ∈ {[ord]} ∪ v -> x ∈ v \/ x = ord) as Hadded.
    { intros x Hx. apply elem_of_union in Hx as [Hx | Hx]; [| now left].
      right. now apply elem_of_singleton in Hx. }
    destruct (_ && _);
      [intros [= <-]; apply Habort; [apply union_subseteq_r | exact Hadded] |].
    destruct (_ && _);
      [intros [= <-]; apply Habort; [apply union_subseteq_r | exact Hadded] |].
    intros Hdec.
    destruct (decode_record_grows _ _ _ _ _ _ _ _ _ _ (Hgrows Hd) Hd Hdec)
      as (more & Hp & Hall & Hsub & Hsize & Hin).
    exists more. split; [exact Hp |]. split; [exact Hall |].
    split; [set_solver |]. split.
    - rewrite size_union in Hsize by set_solver.
      rewrite size_singleton in Hsize. lia.
    - intros x Hx. destruct (Hin x Hx) as [Hv | Hr]; [| auto].
      apply elem_of_union in Hv as [Hv | Hv]; [| auto].
      apply elem_of_singleton in Hv. auto. }
  destruct visited as [v0 |]; cbn zeta iota beta; cbn [fresh_flag] in Hmain;
    apply Hmain.
Qed.

Lemma ReadEntry_rec_grows (state : ParseState) (fuel : nat) :
  forall depth, grows_at (ReadEntry_rec fuel state) state depth.
Proof.
  induction fuel as [| fuel IH]; intros depth buffer ord parent bs visited o;
    cbn [ReadEntry_rec]; [discriminate |].
  apply ReadEntry_body_grows. intros _. apply IH.
Qed.

Lemma ReadEntry_grows (state : ParseState) (depth : Z) :
  grows_at (ReadEntry state) state depth.
Proof.
  intros buffer ord parent bs visited o. apply ReadEntry_rec_grows.
Qed.

(** The tree [ReadAllEntries] builds. *)
Lemma ReadAllEntries_tree (state : ParseState) (root_buffer : Z) :
  exists err root,
    ReadAllEntries state root_buffer = Some (err, root) /\
    Forall (fun x => entry_ok state x /\ narrow x) (entries_below root) /\
    narrow root /\
    height root <= kMaxRecursionDepth + 1.
Proof.
  unfold ReadAllEntries.
  destruct (ReadEntry_total state root_buffer 0 new_root_entry 0 0 None)
    as [o Ho].
  rewrite Ho.
  destruct (ReadEntry_grows state 0 _ _ _ _ _ _ Ho)
    as (more & Hp & Hall & _ & Hcount & Hin).
  cbn [default] in *.
  assert (children_ (parent_after o) = more) as Hchildren by now rewrite Hp.
  assert (Forall (fun x => entry_ok state x /\ narrow x)
            (entries_below (parent_after o)) /\
          narrow (parent_after o) /\
          height (parent_after o) <= kMaxRecursionDepth + 1) as Htree.
  { split; [| split].
    - rewrite entries_below_children, Hchildren. clear - Hall.
      induction Hall as [| c cs [Hc _] _ IH]; cbn [flat_map]; [constructor |].
      apply Forall_app. split; [exact Hc | exact IH].
    - unfold narrow. rewrite Hchildren.
      assert (Z.of_nat (base.size (visited_after o)) <= 65536) as Hv.
      { apply size_ordinals. intros x Hx.
        destruct (Hin x Hx) as [Hempty | [-> | Hr]]; [set_solver | lia | lia]. }
      lia.
    - rewrite height_children, Hchildren. clear - Hall.
      induction Hall as [| c cs [_ Hc] _ IH]; cbn [map fold_right];
        unfold kMaxRecursionDepth in *; lia. }
  destruct (total_entries (parent_after o) =? 0); eauto.
Qed.

(** X14. Every entry of the tree [ReadAllEntries] builds is well formed:
    its three timestamps are the Unix epoch, its name has at most 255
    bytes, its size fits 32 bits, its attributes carry the read-only
    flag, it has children only if its attributes carry the directory
    flag, and either it has no data ([data_offset_] and [data_size_]
    zero: directories, and files found outside the image) or it is a
    childless file whose [data_size_] is its size and whose data starts
    inside the image, at or after [game_offset]. *)
Theorem decoded_entries_well_formed (state : ParseState) (root_buffer : Z) :
  exists err root,
    ReadAllEntries state root_buffer = Some (err, root) /\
    Forall (entry_ok state) (entries_below root).
Proof.
  destruct (ReadAllEntries_tree state root_buffer)
    as (err & root & Hrun & Hall & _).
  exists err, root. split; [exact Hrun |].
  revert Hall. apply List.Forall_impl. tauto.
Qed.

(** X15. The tree [ReadAllEntries] builds has at most 257 levels of
    entries below the root, whatever the image holds: the depth limit of
    [ReadEntry] bounds the nesting of directories, not only the
    recursion. *)
Theorem decoded_tree_depth (state : ParseState) (root_buffer : Z) :
  exists err root,
    ReadAllEntries state root_buffer = Some (err, root) /\
    0 <= height root <= 257.
Proof.
  destruct (ReadAllEntries_tree state root_buffer)
    as (err & root & Hrun & _ & _ & Hheight).
  exists err, root. split; [exact Hrun |].
  pose proof (height_nonneg root). unfold kMaxRecursionDepth in Hheight. lia.
Qed.

(** X16. No directory of the decoded tree, the root included, has more
    than 65536 children: within one array every ordinal is decoded at
    most once, so an invocation of [ReadEntry] adds at most as many
    entries to its parent as it adds ordinals to the visited set. *)
Theorem directory_width (state : ParseState) (root_buffer : Z) :
  (exists err root,
     ReadAllEntries state root_buffer = Some (err, root) /\
     Forall narrow (root :: entries_below root)) /\
  (forall buffer ord parent buffer_size depth v,
     exists o more,
       ReadEntry state buffer ord parent buffer_size depth (Some v) = Some o /\
       children_ (parent_after o) = children_ parent ++ more /\
       v ⊆ visited_after o /\
       (List.length more + base.size v <= base.size (visited_after o))%nat).
Proof.
  split.
  - destruct (ReadAllEntries_tree state root_buffer)
      as (err & root & Hrun & Hall & Hroot & _).
    exists err, root. split; [exact Hrun |].
    constructor; [exact Hroot |].
    revert Hall. apply List.Forall_impl. tauto.
  - intros buffer ord parent buffer_size depth v.
    destruct (ReadEntry_total state buffer ord parent buffer_size depth (Some v))
      as [o Ho].
    destruct (ReadEntry_grows state depth _ _ _ _ _ _ Ho)
      as (more & Hp & _ & Hsub & Hcount & _).
    exists o, more. rewrite Hp. cbn [default] in *. now repeat split.
Qed.

Lemma count_entries_tree (e : DiscImageEntry) :
  Forall (fun x => children_ x <> [] -> is_directory (attributes_ x) = true)
         (e :: entries_below e) ->
  count_entries e = 1 + Z.of_nat (List.length (entries_below e)).
Proof.
  revert e. fix IH 1. intros [n a s al t1 t2 t3 d1 d2 ch] Hall.
  cbn [count_entries attributes_ children_ entries_below].
  inversion Hall as [| ? ? Hroot Hbelow]; subst.
  cbn [children_ attributes_ entries_below] in *.
  assert (fold_right Z.add 0 (map count_entries ch) =
          Z.of_nat (List.length (flat_map (fun c => c :: entries_below c) ch)))
    as Hsum.
  { clear Hroot Hall. induction ch as [| c cs IHcs]; [reflexivity |].
    cbn [map fold_right flat_map] in *.
    change ((c :: entries_below c) ++ ?l) with (c :: (entries_below c ++ l))
      in Hbelow.
    inversion Hbelow as [| ? ? Hc Hrest]; subst.
    apply Forall_app in Hrest as [Hc' Hcs].
    rewrite (IH c) by (constructor; assumption).
    rewrite IHcs by exact Hcs.
    cbn [List.length app]. rewrite length_app. lia. }
  destruct (is_directory a) eqn:Hdir; [lia |].
  destruct ch as [| c cs]; [reflexivity |].
  specialize (Hroot ltac:(discriminate)). congruence.
Qed.

(** X17. The count [ReadAllEntries] decides on is the number of entries
    of the tree it built: [total_entries], which descends only into
    entries flagged as directories, misses nothing, because only such
    entries have children. *)
Theorem total_entries_counts_tree (state : ParseState) (root_buffer : Z) :
  exists err root,
    ReadAllEntries state root_buffer = Some (err, root) /\
    total_entries root = Z.of_nat (List.length (entries_below root)).
Proof.
  destruct (ReadAllEntries_tree state root_buffer)
    as (err & root & Hrun & Hall & _).
  exists err, root. split; [exact Hrun |].
  assert (total_entries root = Z.of_nat (List.length (entries_below root)))
    as Htotal.
  { unfold total_entries. rewrite entries_below_children in *.
    induction (children_ root) as [| c cs IH]; [reflexivity |].
    cbn [map fold_right flat_map] in *.
    change ((c :: entries_below c) ++ ?l) with (c :: (entries_below c ++ l))
      in Hall.
    inversion Hall as [| ? ? Hc Hrest]; subst.
    apply Forall_app in Hrest as [Hc' Hcs].
    rewrite IH by exact Hcs.
    rewrite count_entries_tree.
    - cbn [List.length app]. rewrite length_app. lia.
    - constructor; [apply Hc |].
      revert Hc'. apply List.Forall_impl. intros x [Hx _]. apply Hx. }
  exact Htotal.
Qed.

(** ** [Initialize]: mapping the image *)

(** What [MappedMemory::Open] does at one attempt. *)
Inductive MapAttempt : Type :=
| MapFails (file_exists : bool)
    (* [Open] returns null; [file_exists] is the answer of
       [std::filesystem::exists(host_path_)] *)
| Mapped (mem : Memory) (mapped_size : Z) (now duration : Z).
    (* the mapping and its size; the call took [duration] ms; [now] is
       the clock value its sample is stamped with *)

(** What an observer sees of the mapping loop. *)
Inductive MapEvent : Set :=
| MapSleep (ms : Z)
| MapOpen (retry : Z).

(** [const int max_retries = 5]. *)
Definition map_max_retries : Z := 5.

(** [int wait_ms = 100 * (1 << (retry - 1)); wait_ms = std::min(wait_ms,
    2000)], on [int]. *)
Definition map_wait_ms (retry : Z) : Z :=
  Z.min (RobustIO.wrap_int (100 * RobustIO.wrap_int (Z.shiftl 1 (retry - 1))))
        2000.

(** The [for] loop of [Initialize] from counter [retry] on: the mapping
    ([None] when the function returns false), the process-wide detector,
    and the events.  The checks of [IsInterferenceActive] in the loop
    only write to the log of the program and are left out. *)
Fixpoint map_loop (env : Z -> MapAttempt) (fuel : nat) (retry : Z)
    (det : RobustIO.InterferenceDetector) (log : list MapEvent)
  : option (option (Memory * Z) * RobustIO.InterferenceDetector
            * list MapEvent) :=
  match fuel with
  | O => None
  | S fuel' =>
    if retry <=? map_max_retries then
      let log :=
        if 0 <? retry then log ++ [MapSleep (map_wait_ms retry)] else log in
      let log := log ++ [MapOpen retry] in
      match env retry with
      | Mapped mem mapped_size now duration =>
        (* Record timing for interference detection ... break *)
        Some (Some (mem, mapped_size),
              RobustIO.RecordIOTiming det now (RobustIO.to_uint64 duration)
                                      mapped_size,
              log)
      | MapFails file_exists =>
        if negb file_exists then Some (None, det, log)
        else if retry =? map_max_retries then Some (None, det, log)
        else map_loop env fuel' (retry + 1) det log
      end
    else Some (None, det, log)
  end.

(** [DiscImageDevice::Initialize]: the value returned, [root_entry_],
    the detector and the events of the mapping loop. *)
Definition Initialize (env : Z -> MapAttempt)
    (det : RobustIO.InterferenceDetector)
  : option (bool * option DiscImageEntry * RobustIO.InterferenceDetector
            * list MapEvent) :=
  match map_loop env 7 0 det [] with
  | None => None
  | Some (None, det, log) => Some (false, None, det, log)
  | Some (Some (mem, mapped_size), det, log) =>
    match Initialize_mapped mem mapped_size with
    | None => None
    | Some (result, root_entry) => Some (result, root_entry, det, log)
    end
  end.

(** The events of [n] consecutive attempts, the first with counter [r]. *)
Fixpoint map_events (r : Z) (n : nat) : list MapEvent :=
  match n with
  | O => []
  | S n' =>
    (if 0 <? r then [MapSleep (map_wait_ms r)] else [])
    ++ MapOpen r :: map_events (r + 1) n'
  end.

Lemma map_events_snoc (r : Z) (n : nat) :
  map_events r (S n) =
  map_events r n
  ++ (if 0 <? r + Z.of_nat n then [MapSleep (map_wait_ms (r + Z.of_nat n))]
      else [])
  ++ [MapOpen (r + Z.of_nat n)].
Proof.
  revert r. induction n as [| n IH]; intros r.
  - cbn [map_events app]. rewrite Z.add_0_r.
    destruct (0 <? r); reflexivity.
  - change (map_events r (S (S n)))
      with ((if 0 <? r then [MapSleep (map_wait_ms r)] else [])
            ++ MapOpen r :: map_events (r + 1) (S n)).
    rewrite IH. cbn [map_events].
    replace (r + 1 + Z.of_nat n) with (r + Z.of_nat (S n)) by lia.
    rewrite <- !app_assoc. reflexivity.
Qed.

(** Failed attempts on a file that exists: the loop goes on. *)
Lemma map_loop_fails (env : Z -> MapAttempt) (k : nat) :
  forall (fuel : nat) (retry : Z) (det : RobustIO.InterferenceDetector)
         (log : list MapEvent),
    (forall j, retry <= j < retry + Z.of_nat k -> env j = MapFails true) ->
    retry + Z.of_nat k <= map_max_retries ->
    map_loop env (k + fuel) retry det log =
    map_loop env fuel (retry + Z.of_nat k) det (log ++ map_events retry k).
Proof.
  induction k as [| k IH]; intros fuel retry det log Hfail Hk.
  - cbn [Nat.add map_events]. now rewrite Z.add_0_r, app_nil_r.
  - cbn [Nat.add map_loop map_events].
    destruct (Z.leb_spec retry map_max_retries) as [_ | Hbad]; [| lia].
    rewrite (Hfail retry) by lia. cbn [negb].
    destruct (Z.eqb_spec retry map_max_retries) as [Heq | _]; [lia |].
    rewrite IH by (try lia; intros j Hj; apply Hfail; lia).
    replace (retry + 1 + Z.of_nat k) with (retry + Z.of_nat (S k)) by lia.
    f_equal. destruct (0 <? retry); rewrite <- !app_assoc; reflexivity.
Qed.

(** How the mapping loop ends after [k] failed attempts on an existing
    file. *)
Lemma map_loop_ends (env : Z -> MapAttempt) (k : nat)
    (det : RobustIO.InterferenceDetector) :
  (forall j, 0 <= j < Z.of_nat k -> env j = MapFails true) ->
  Z.of_nat k <= map_max_retries ->
  map_loop env 7 0 det [] =
  match env (Z.of_nat k) with
  | Mapped mem mapped_size now duration =>
    Some (Some (mem, mapped_size),
          RobustIO.RecordIOTiming det now (RobustIO.to_uint64 duration)
                                  mapped_size,
          map_events 0 (S k))
  | MapFails file_exists =>
    if file_exists && negb (Z.of_nat k =? map_max_retries)
    then map_loop env (6 - k) (Z.of_nat k + 1) det (map_events 0 (S k))
    else Some (None, det, map_events 0 (S k))
  end.
Proof.
  intros Hfail Hk. unfold map_max_retries in Hk.
  replace 7%nat with (k + S (6 - k))%nat by lia.
  rewrite map_loop_fails by (try (unfold map_max_retries; lia); exact Hfail).
  cbn [app]. rewrite map_events_snoc. cbn [map_loop]. rewrite !Z.add_0_l.
  destruct (Z.leb_spec (Z.of_nat k) map_max_retries) as [_ | Hbad];
    [| unfold map_max_retries in Hbad; lia].
  assert ((if 0 <? Z.of_nat k
           then map_events 0 k ++ [MapSleep (map_wait_ms (Z.of_nat k))]
           else map_events 0 k) ++ [MapOpen (Z.of_nat k)] =
          map_events 0 k
          ++ (if 0 <? Z.of_nat k then [MapSleep (map_wait_ms (Z.of_nat k))]
              else [])
          ++ [MapOpen (Z.of_nat k)]) as ->.
  { destruct (0 <? Z.of_nat k); rewrite <- ?app_assoc; reflexivity. }
  destruct (env (Z.of_nat k)) as [file_exists | mem sz now dur];
    [| reflexivity].
  destruct file_exists; cbn [negb andb]; [| reflexivity].
  destruct (Z.of_nat k =? map_max_retries); reflexivity.
Qed.

(** X18. The mapping loop of [Initialize].  [Initialize] returns on
    every input, after at most six attempts to map the image; an attempt
    after the first is preceded by a sleep of 100, 200, 400, 800, 1600
    ms (the cap of 2000 ms is never reached).  After [k <= 5] failed
    attempts on a file that exists: if attempt [k] maps the image, its
    duration and size are recorded in the interference detector and the
    answer is that of the verification and decoding of the mapping; if
    attempt [k] fails and the file does not exist, or [k = 5],
    [Initialize] returns false at once, with no root entry and the
    detector untouched. *)
Theorem Initialize_mapping (env : Z -> MapAttempt)
    (det : RobustIO.InterferenceDetector) :
  (exists result root det' n,
     Initialize env det = Some (result, root, det', map_events 0 n) /\
     (1 <= n <= 6)%nat) /\
  map_events 0 6 =
    [MapOpen 0; MapSleep 100; MapOpen 1; MapSleep 200; MapOpen 2;
     MapSleep 400; MapOpen 3; MapSleep 800; MapOpen 4; MapSleep 1600;
     MapOpen 5] /\
  (forall k mem mapped_size now duration,
     (forall j, 0 <= j < Z.of_nat k -> env j = MapFails true) ->
     Z.of_nat k <= 5 ->
     env (Z.of_nat k) = Mapped mem mapped_size now duration ->
     exists result root,
       Initialize_mapped mem mapped_size = Some (result, root) /\
       Initialize env det =
       Some (result, root,
             RobustIO.RecordIOTiming det now (RobustIO.to_uint64 duration)
                                     mapped_size,
             map_events 0 (S k))) /\
  (forall k file_exists,
     (forall j, 0 <= j < Z.of_nat k -> env j = MapFails true) ->
     Z.of_nat k <= 5 ->
     env (Z.of_nat k) = MapFails file_exists ->
     file_exists = false \/ Z.of_nat k = 5 ->
     Initialize env det = Some (false, None, det, map_events 0 (S k))).
Proof.
  assert (forall k mem mapped_size now duration,
     (forall j, 0 <= j < Z.of_nat k -> env j = MapFails true) ->
     Z.of_nat k <= 5 ->
     env (Z.of_nat k) = Mapped mem mapped_size now duration ->
     exists result root,
       Initialize_mapped mem mapped_size = Some (result, root) /\
       Initialize env det =
       Some (result, root,
             RobustIO.RecordIOTiming det now (RobustIO.to_uint64 duration)
                                     mapped_size,
             map_events 0 (S k))) as Hmapped.
  { intros k mem sz now dur Hfail Hk Henv. unfold Initialize.
    rewrite (map_loop_ends env k det Hfail Hk), Henv.
    assert (exists res, Initialize_mapped mem sz = Some res) as [[result root] Hres].
    { unfold Initialize_mapped.
      destruct (Verify _) as [e st]. destruct (negb _); [eauto |].
      destruct (ReadAllEntries_tree st (root_offset st))
        as (err & root & -> & _).
      destruct (negb _); eauto. }
    exists result, root. now rewrite Hres. }
  assert (forall k file_exists,
     (forall j, 0 <= j < Z.of_nat k -> env j = MapFails true) ->
     Z.of_nat k <= 5 ->
     env (Z.of_nat k) = MapFails file_exists ->
     file_exists = false \/ Z.of_nat k = 5 ->
     Initialize env det = Some (false, None, det, map_events 0 (S k)))
    as Hgiveup.
  { intros k file_exists Hfail Hk Henv Hstop. unfold Initialize.
    rewrite (map_loop_ends env k det Hfail Hk), Henv.
    destruct Hstop as [-> | Hlast]; [reflexivity |].
    apply Z.eqb_eq in Hlast. unfold map_max_retries. rewrite Hlast.
    now rewrite andb_false_r. }
  split; [| split; [reflexivity | split; [exact Hmapped | exact Hgiveup]]].
  assert (forall d k,
            d = (6 - k)%nat -> (k <= 5)%nat ->
            (forall j, 0 <= j < Z.of_nat k -> env j = MapFails true) ->
            exists result root det' n,
              Initialize env det = Some (result, root, det', map_events 0 n) /\
              (1 <= n <= 6)%nat) as Hsearch.
  { induction d as [| d IH]; intros k Hd Hk Hfail; [lia |].
    destruct (env (Z.of_nat k)) as [file_exists | mem sz now dur] eqn:Henv.
    - destruct file_exists.
      + destruct (Nat.eq_dec k 5%nat) as [-> | Hne].
        * exists false, None, det, 6%nat.
          split; [| lia].
          apply (Hgiveup 5%nat true Hfail); [lia | exact Henv | now right].
        * apply (IH (S k)); [lia | lia |].
          intros j Hj. destruct (Z.eq_dec j (Z.of_nat k)) as [-> | Hjk];
            [exact Henv | apply Hfail; lia].
      + exists false, None, det, (S k). split; [| lia].
        apply (Hgiveup k false Hfail); [lia | exact Henv | now left].
    - destruct (Hmapped k mem sz now dur Hfail ltac:(lia) Henv)
        as (result & root & _ & Hrun).
      eexists _, _, _, (S k). split; [exact Hrun | lia]. }
  apply (Hsearch 6%nat 0%nat); [reflexivity | lia |]. intros j Hj. lia.
Qed.


(** ** The recursion of [ReadEntry], through [ReadEntry] itself *)

(** An invocation within the depth limit leaves its own ordinal in the
    visited set. *)
Lemma ReadEntry_marks (state : ParseState) (buffer ord : Z)
    (parent : DiscImageEntry) (buffer_size depth : Z) (v : gset Z)
    (o : Outcome) :
  depth <= kMaxRecursionDepth ->
  ReadEntry state buffer ord parent buffer_size depth (Some v) = Some o ->
  ord ∈ visited_after o.
Proof.
  intros Hd. rewrite ReadEntry_unfold. unfold ReadEntry_body.
  cbn zeta iota beta.
  destruct (Z.ltb_spec kMaxRecursionDepth depth) as [Hdeep | _]; [lia |].
  destruct (bool_decide (ord ∈ v)) eqn:Hvis.
  { intros [= <-]. cbn [visited_after].
    now apply bool_decide_eq_true in Hvis. }
  assert (ord ∈ ({[ord]} ∪ v : gset Z)) as Hin
    by (apply elem_of_union; left; now apply elem_of_singleton).
  destruct (_ && _); [intros [= <-]; exact Hin |].
  destruct (_ && _); [intros [= <-]; exact Hin |].
  intros Hdec.
  destruct (decode_record_grows _ _ _ _ _ _ _ _ _ _
              (ReadEntry_grows state (depth + 1)) Hd Hdec)
    as (_ & _ & _ & Hsub & _).
  apply Hsub, Hin.
Qed.

(** An accepted record, step by step: the left child is an invocation of
    [ReadEntry] on the caller's parent and on the visited set with the
    record's own ordinal added; the parent and the set it leaves are the
    ones the entry is added to and the right child is invoked on; the
    parent and the set the right child leaves are the ones returned. *)
Lemma ReadEntry_threads (state : ParseState) (buffer ord : Z)
    (parent : DiscImageEntry) (buffer_size depth : Z) (v : gset Z) :
  accepted state buffer ord buffer_size depth v = true ->
  let r := read_record state (buffer + ord * 4) in
  exists p1 v1 entry calls_d p2 v2 cs,
    (if node_l r =? 0 then p1 = parent /\ v1 = {[ord]} ∪ v
     else exists ol,
       ReadEntry state buffer (node_l r) parent buffer_size (depth + 1)
                 (Some ({[ord]} ∪ v)) = Some ol /\
       p1 = parent_after ol /\ v1 = visited_after ol) /\
    materialize (ReadEntry state) state r depth = Some (entry, calls_d) /\
    (if node_r r =? 0 then p2 = add_child p1 entry /\ v2 = v1
     else exists or_,
       ReadEntry state buffer (node_r r) (add_child p1 entry) buffer_size
                 (depth + 1) (Some v1) = Some or_ /\
       p2 = parent_after or_ /\ v2 = visited_after or_) /\
    ReadEntry state buffer ord parent buffer_size depth (Some v) =
    Some (mkOutcome true p2 v2 cs).
Proof.
  intros Hacc r.
  pose proof (ReadEntry_accepted state buffer ord parent buffer_size depth v
                Hacc) as Heq.
  fold r in Heq. unfold decode_record, read_child in Heq.
  destruct (materialize_total (ReadEntry state) state r depth) as [[e cd] Hm];
    [intros b o' p bs vv; apply ReadEntry_total |].
  destruct (node_l r =? 0) eqn:Hl; destruct (node_r r =? 0) eqn:Hr;
    rewrite Hm in Heq.
  - eexists parent, _, e, cd, _, _, _.
    split; [split; reflexivity |]. split; [exact Hm |].
    split; [split; reflexivity | exact Heq].
  - destruct (ReadEntry_total state buffer (node_r r) (add_child parent e)
                buffer_size (depth + 1) (Some ({[ord]} ∪ v))) as [or_ Hor].
    rewrite Hor in Heq.
    eexists parent, _, e, cd, _, _, _.
    split; [split; reflexivity |]. split; [exact Hm |].
    split; [| exact Heq].
    exists or_. split; [exact Hor | split; reflexivity].
  - destruct (ReadEntry_total state buffer (node_l r) parent buffer_size
                (depth + 1) (Some ({[ord]} ∪ v))) as [ol Hol].
    rewrite Hol in Heq.
    eexists _, _, e, cd, _, _, _.
    split; [exists ol; split; [exact Hol | split; reflexivity] |].
    split; [exact Hm |].
    split; [split; reflexivity | exact Heq].
  - destruct (ReadEntry_total state buffer (node_l r) parent buffer_size
                (depth + 1) (Some ({[ord]} ∪ v))) as [ol Hol].
    rewrite Hol in Heq.
    destruct (ReadEntry_total state buffer (node_r r)
                (add_child (parent_after ol) e) buffer_size (depth + 1)
                (Some (visited_after ol))) as [or_ Hor].
    rewrite Hor in Heq.
    eexists _, _, e, cd, _, _, _.
    split; [exists ol; split; [exact Hol | split; reflexivity] |].
    split; [exact Hm |].
    split; [| exact Heq].
    exists or_. split; [exact Hor | split; reflexivity].
Qed.

(** A right child that the left subtree has already decoded is cut: the
    visited set is the array's, not the path's. *)
Lemma ReadEntry_right_seen_on_the_left (state : ParseState) (buffer ord : Z)
    (parent : DiscImageEntry) (buffer_size depth : Z) (v : gset Z)
    (ol : Outcome) :
  accepted state buffer ord buffer_size depth v = true ->
  let r := read_record state (buffer + ord * 4) in
  node_l r <> 0 ->
  node_r r <> 0 ->
  ReadEntry state buffer (node_l r) parent buffer_size (depth + 1)
            (Some ({[ord]} ∪ v)) = Some ol ->
  node_r r ∈ visited_after ol ->
  exists entry calls_d,
    materialize (ReadEntry state) state r depth = Some (entry, calls_d) /\
    ReadEntry state buffer ord parent buffer_size depth (Some v) =
    Some (mkOutcome true (add_child (parent_after ol) entry) (visited_after ol)
            (mkCall buffer ord depth false
             :: calls ol ++ calls_d
                ++ [mkCall buffer (node_r r) (depth + 1) false])).
Proof.
  intros Hacc r Hl Hr Hol Hseen.
  rewrite (ReadEntry_accepted _ _ _ _ _ _ _ Hacc). fold r.
  unfold decode_record, read_child.
  destruct (Z.eqb_spec (node_l r) 0) as [| _]; [contradiction |].
  destruct (Z.eqb_spec (node_r r) 0) as [| _]; [contradiction |].
  rewrite Hol.
  destruct (materialize_total (ReadEntry state) state r depth) as [[e cd] Hm];
    [intros b o' p bs vv; apply ReadEntry_total |].
  rewrite Hm. rewrite ReadEntry_revisit by exact Hseen.
  exists e, cd. split; reflexivity.
Qed.

(** C1. [ReadEntry] returns on every input (any fuel above the number
    of levels left below the limit gives the same result), and none of
    the invocations it makes is deeper than one level past the limit of
    256.  An
    invocation past the limit, or on an ordinal already in the visited
    set of its array, returns false at once and changes neither the
    parent nor the set; its caller goes on.  So a record whose [node_l]
    names an ordinal visited before (itself, or one on the path to it),
    or whose left child would be past the limit, is still decoded: the
    cut child costs one invocation, then the entry is created, added to
    the parent, and the right child is read.  A subdirectory's array is
    read from ordinal 0 with [visited = nullptr], that is with an empty
    set of its own.

    What a child that is not cut leaves reaches the caller: the left
    child is the invocation of [ReadEntry] on the caller's parent and on
    the visited set with the record's ordinal added; the entry is added
    to the parent that invocation returns; the right child is the
    invocation on that parent and on the set the left child returns; and
    the parent and the set of the right child are the ones the record's
    invocation returns.  The set is therefore the array's: a right child
    that was decoded anywhere in the left subtree is cut, and the record
    is still decoded.  Every invocation keeps the children its parent
    had and the ordinals its set had, adds at least one ordinal for each
    child it appends, and, within the depth limit, leaves its own
    ordinal in the set. *)
Theorem ReadEntry_terminates (state : ParseState) :
  (forall buffer ord parent buffer_size depth visited,
     exists o,
       ReadEntry state buffer ord parent buffer_size depth visited = Some o /\
       (forall fuel,
          (Z.to_nat (kMaxRecursionDepth + 1 - depth) < fuel)%nat ->
          ReadEntry_rec fuel state buffer ord parent buffer_size depth visited
          = Some o) /\
       (returned o = true -> depth <= kMaxRecursionDepth) /\
       Forall (fun c => call_depth c <= Z.max depth (kMaxRecursionDepth + 1))
              (calls o)) /\
  (forall buffer ord parent buffer_size depth visited,
     kMaxRecursionDepth < depth ->
     ReadEntry state buffer ord parent buffer_size depth visited =
     Some (mkOutcome false parent (default ∅ visited)
             [mkCall buffer ord depth (fresh_flag visited)])) /\
  (forall buffer ord parent buffer_size depth (v : gset Z),
     ord ∈ v ->
     ReadEntry state buffer ord parent buffer_size depth (Some v) =
     Some (mkOutcome false parent v [mkCall buffer ord depth false])) /\
  (forall buffer node parent buffer_size depth (v : gset Z),
     node <> 0 ->
     node ∈ v \/ kMaxRecursionDepth <= depth ->
     read_child (ReadEntry state) buffer node parent buffer_size depth v =
     Some (parent, v, [mkCall buffer node (depth + 1) false])) /\
  (forall buffer ord parent buffer_size depth (v : gset Z),
     accepted state buffer ord buffer_size depth v = true ->
     let r := read_record state (buffer + ord * 4) in
     node_l r <> 0 ->
     node_l r ∈ ({[ord]} ∪ v : gset Z) \/ depth = kMaxRecursionDepth ->
     exists entry calls_d parent' v' calls_r more,
       materialize (ReadEntry state) state r depth = Some (entry, calls_d) /\
       read_child (ReadEntry state) buffer (node_r r) (add_child parent entry)
                  buffer_size depth ({[ord]} ∪ v) = Some (parent', v', calls_r) /\
       ReadEntry state buffer ord parent buffer_size depth (Some v) =
       Some (mkOutcome true parent' v'
               (mkCall buffer ord depth false
                :: mkCall buffer (node_l r) (depth + 1) false
                :: calls_d ++ calls_r)) /\
       children_ parent' = children_ parent ++ entry :: more) /\
  (forall r depth,
     is_directory (attributes r) = true ->
     length r <> 0 ->
     game_offset state + sector r * kXESectorSize <= size state ->
     materialize (ReadEntry state) state r depth =
     match ReadEntry state (game_offset state + sector r * kXESectorSize) 0
                     (set_data (create_entry r) 0 0) (length r) (depth + 1) None
     with
     | Some o => Some (parent_after o, calls o)
     | None => None
     end) /\
  (forall buffer ord parent buffer_size depth,
     exists o o',
       ReadEntry state buffer ord parent buffer_size depth None = Some o /\
       ReadEntry state buffer ord parent
         (if buffer_size =? 0 then root_size state else buffer_size)
         depth (Some ∅) = Some o' /\
       returned o = returned o' /\ parent_after o = parent_after o' /\
       visited_after o = visited_after o' /\ tl (calls o) = tl (calls o')) /\
  (forall buffer ord parent buffer_size depth (v : gset Z),
     accepted state buffer ord buffer_size depth v = true ->
     let r := read_record state (buffer + ord * 4) in
     exists p1 v1 entry calls_d p2 v2 cs,
       (if node_l r =? 0 then p1 = parent /\ v1 = {[ord]} ∪ v
        else exists ol,
          ReadEntry state buffer (node_l r) parent buffer_size (depth + 1)
                    (Some ({[ord]} ∪ v)) = Some ol /\
          p1 = parent_after ol /\ v1 = visited_after ol) /\
       materialize (ReadEntry state) state r depth = Some (entry, calls_d) /\
       (if node_r r =? 0 then p2 = add_child p1 entry /\ v2 = v1
        else exists or_,
          ReadEntry state buffer (node_r r) (add_child p1 entry) buffer_size
                    (depth + 1) (Some v1) = Some or_ /\
          p2 = parent_after or_ /\ v2 = visited_after or_) /\
       ReadEntry state buffer ord parent buffer_size depth (Some v) =
       Some (mkOutcome true p2 v2 cs)) /\
  (forall buffer ord parent buffer_size depth (v : gset Z) ol,
     accepted state buffer ord buffer_size depth v = true ->
     let r := read_record state (buffer + ord * 4) in
     node_l r <> 0 ->
     node_r r <> 0 ->
     ReadEntry state buffer (node_l r) parent buffer_size (depth + 1)
               (Some ({[ord]} ∪ v)) = Some ol ->
     node_r r ∈ visited_after ol ->
     exists entry calls_d,
       materialize (ReadEntry state) state r depth = Some (entry, calls_d) /\
       ReadEntry state buffer ord parent buffer_size depth (Some v) =
       Some (mkOutcome true (add_child (parent_after ol) entry)
               (visited_after ol)
               (mkCall buffer ord depth false
                :: calls ol ++ calls_d
                   ++ [mkCall buffer (node_r r) (depth + 1) false]))) /\
  (forall buffer ord parent buffer_size depth (v : gset Z) o,
     ReadEntry state buffer ord parent buffer_size depth (Some v) = Some o ->
     (exists more,
        children_ (parent_after o) = children_ parent ++ more /\
        (List.length more + base.size v <= base.size (visited_after o))%nat) /\
     v ⊆ visited_after o /\
     (depth <= kMaxRecursionDepth -> ord ∈ visited_after o)).
Proof.
  split; [| split; [| split; [| split; [| split; [| split;
    [| split; [| split; [| split]]]]]]]].
  - intros buffer ord parent buffer_size depth visited.
    destruct (ReadEntry_total state buffer ord parent buffer_size depth visited)
      as [o Ho].
    exists o. split; [exact Ho |].
    split; [intros fuel Hfuel; now rewrite ReadEntry_rec_enough |].
    split.
    { intros Hret.
      destruct (Z_lt_le_dec kMaxRecursionDepth depth) as [Hdeep | Hok];
        [| exact Hok].
      rewrite ReadEntry_too_deep in Ho by exact Hdeep.
      injection Ho as <-. discriminate. }
    destruct (ReadEntry_sound state depth _ _ _ _ _ _ Ho)
      as [_ (rest & -> & Hrest)].
    constructor; [cbn; lia |].
    revert Hrest. unfold calls_below. apply List.Forall_impl.
    intros c [_ Hc]. lia.
  - intros. now apply ReadEntry_too_deep.
  - intros. now apply ReadEntry_revisit.
  - intros. now apply read_child_cut.
  - intros buffer ord parent buffer_size depth v Hacc r Hnz Hcut.
    destruct (accepted_inv _ _ _ _ _ _ Hacc) as [Hd _].
    rewrite (ReadEntry_accepted _ _ _ _ _ _ _ Hacc). fold r.
    unfold decode_record.
    rewrite read_child_cut
      by first [exact Hnz | destruct Hcut; [now left | right; lia]].
    assert (total_at (ReadEntry state) (depth + 1)) as Htot
      by (intros b o' p bs vv; apply ReadEntry_total).
    destruct (materialize_total _ state r depth Htot) as [[e cd] Hm].
    destruct (read_child_total _ buffer (node_r r) (add_child parent e)
                buffer_size depth ({[ord]} ∪ v) Htot) as [[[p2 v2] cr] Hr].
    destruct (read_child_sound _ _ _ _ _ _ _ _ _ _
                (ReadEntry_sound state (depth + 1)) Hd Hr) as [Hext _].
    apply extends_children in Hext as [more Hmore].
    exists e, cd, p2, v2, cr, more. rewrite Hm, Hr.
    repeat split. rewrite Hmore. cbn [add_child children_].
    now rewrite <- app_assoc.
  - intros r depth Hdir Hlen Hin. unfold materialize. rewrite Hdir.
    destruct (Z.eqb_spec (length r) 0); [contradiction |]. cbn [negb].
    destruct (Z.ltb_spec (size state)
                (game_offset state + sector r * kXESectorSize)); [lia |].
    reflexivity.
  - intros. apply ReadEntry_nullptr.
  - intros buffer ord parent buffer_size depth v Hacc.
    exact (ReadEntry_threads state buffer ord parent buffer_size depth v Hacc).
  - intros buffer ord parent buffer_size depth v ol Hacc.
    exact (ReadEntry_right_seen_on_the_left state buffer ord parent buffer_size
             depth v ol Hacc).
  - intros buffer ord parent buffer_size depth v o Ho.
    destruct (ReadEntry_grows state depth _ _ _ _ _ _ Ho)
      as (more & Hp & _ & Hsub & Hsize & _).
    cbn [default] in Hsub, Hsize.
    split; [| split].
    + exists more. split; [now rewrite Hp | exact Hsize].
    + exact Hsub.
    + intros Hd. exact (ReadEntry_marks _ _ _ _ _ _ _ _ Hd Ho).
Qed.

(** ** A directory whose array starts where the image ends *)

(** C2, where the code departs from it, on any platform.  The directory
    branch tests [state->size < folder_offset], the file branch
    [file_offset >= state->size].  A directory record of nonzero length
    whose array would start exactly at the end of the image is therefore
    not taken as out of the image: its entry keeps the size the record
    gives, and [ReadEntry] is invoked on an array at the address one
    past the last byte of the image.  A file record at the same offset
    is emptied, as is a directory strictly beyond (see
    [out_of_image_entry_kept_empty]).  The root array of an image that
    [Verify] accepts can hold such a record: [Initialize] then succeeds
    with the entry at its full size. *)
Theorem boundary_directory_keeps_size :
  (forall (state : ParseState) buffer ord parent buffer_size depth
          (v : gset Z),
     accepted state buffer ord buffer_size depth v = true ->
     let r := read_record state (buffer + ord * 4) in
     is_directory (attributes r) = true ->
     length r <> 0 ->
     game_offset state + sector r * kXESectorSize = size state ->
     exists o entry,
       ReadEntry state buffer ord parent buffer_size depth (Some v) = Some o /\
       returned o = true /\
       In entry (children_ (parent_after o)) /\
       name_ entry = name r /\
       size_ entry = length r /\ size_ entry <> 0 /\
       In (mkCall (size state) 0 (depth + 1) true) (calls o)) /\
  (forall (state : ParseState) buffer ord parent buffer_size depth
          (v : gset Z),
     accepted state buffer ord buffer_size depth v = true ->
     let r := read_record state (buffer + ord * 4) in
     is_directory (attributes r) = false ->
     game_offset state + sector r * kXESectorSize = size state ->
     exists o entry,
       ReadEntry state buffer ord parent buffer_size depth (Some v) = Some o /\
       returned o = true /\
       In entry (children_ (parent_after o)) /\
       name_ entry = name r /\
       size_ entry = 0 /\ data_size_ entry = 0) /\
  (forall (mem : Memory) (mapped_size : Z) (state : ParseState),
     Verify (mkParseState mem mapped_size 0 0 0 0) = (kSuccess, state) ->
     let r := read_record state (root_offset state + 0 * 4) in
     accepted state (root_offset state) 0 (root_size state) 0 ∅ = true ->
     is_directory (attributes r) = true ->
     length r <> 0 ->
     game_offset state + sector r * kXESectorSize = size state ->
     exists root entry,
       Initialize_mapped mem mapped_size = Some (true, Some root) /\
       In entry (children_ root) /\
       name_ entry = name r /\
       size_ entry = length r /\ size_ entry <> 0).
Proof.
  assert (forall (state : ParseState) buffer ord parent buffer_size depth
                 (v : gset Z),
     accepted state buffer ord buffer_size depth v = true ->
     let r := read_record state (buffer + ord * 4) in
     is_directory (attributes r) = true ->
     length r <> 0 ->
     game_offset state + sector r * kXESectorSize = size state ->
     exists o entry,
       ReadEntry state buffer ord parent buffer_size depth (Some v) = Some o /\
       returned o = true /\
       In entry (children_ (parent_after o)) /\
       name_ entry = name r /\
       size_ entry = length r /\ size_ entry <> 0 /\
       In (mkCall (size state) 0 (depth + 1) true) (calls o)) as Hdirectory.
  { intros state buffer ord parent buffer_size depth v Hacc r Hdir Hlen Hoff.
    destruct (accepted_inv _ _ _ _ _ _ Hacc) as [Hd _].
    rewrite (ReadEntry_accepted _ _ _ _ _ _ _ Hacc). fold r.
    unfold decode_record.
    assert (total_at (ReadEntry state) (depth + 1)) as Htot
      by (intros b o' p bs vv; apply ReadEntry_total).
    destruct (read_child_total _ buffer (node_l r) parent buffer_size depth
                ({[ord]} ∪ v) Htot) as [[[p1 v1] cl] ->].
    assert (exists out rest,
              materialize (ReadEntry state) state r depth =
                Some (parent_after out,
                      mkCall (size state) 0 (depth + 1) true :: rest) /\
              extends (set_data (create_entry r) 0 0) (parent_after out))
      as (out & rest & Hm & Hext).
    { unfold materialize. rewrite Hdir.
      destruct (Z.eqb_spec (length r) 0); [contradiction |].
      cbn [negb]. cbn zeta. rewrite Hoff, Z.ltb_irrefl.
      destruct (ReadEntry_total state (size state) 0
                  (set_data (create_entry r) 0 0) (length r) (depth + 1) None)
        as [out Hout].
      rewrite Hout.
      destruct (ReadEntry_sound state (depth + 1) _ _ _ _ _ _ Hout)
        as [Hext (rest & Hcalls & _)].
      exists out, rest. rewrite Hcalls. cbn [fresh_flag].
      split; [reflexivity | exact Hext]. }
    rewrite Hm.
    destruct (read_child_total _ buffer (node_r r)
                (add_child p1 (parent_after out)) buffer_size depth v1 Htot)
      as [[[p2 v2] cr] Hr].
    rewrite Hr.
    destruct (read_child_sound _ _ _ _ _ _ _ _ _ _
                (ReadEntry_sound state (depth + 1)) Hd Hr) as [Hext2 _].
    apply extends_children in Hext2 as [more2 Hmore2].
    destruct Hext as [more Hout].
    eexists _, (parent_after out). split; [reflexivity |].
    cbn [returned parent_after calls].
    split; [reflexivity |]. split.
    { rewrite Hmore2. cbn [add_child children_].
      apply in_or_app. left. apply in_or_app. right. now left. }
    rewrite Hout.
    cbn [name_ size_ set_data create_entry].
    split; [reflexivity |]. split; [reflexivity |]. split; [exact Hlen |].
    right. apply in_or_app. right. apply in_or_app. left. now left. }
  split; [exact Hdirectory |]. split.
  - intros state buffer ord parent buffer_size depth v Hacc r Hfile Hoff.
    apply (out_of_image_entry_kept_empty state buffer ord parent buffer_size
             depth v Hacc).
    left. split; [exact Hfile | fold r; lia].
  - intros mem mapped_size state Hverify r Hacc Hdir Hlen Hoff.
    destruct (Hdirectory state (root_offset state) 0 new_root_entry
                (root_size state) 0 ∅ Hacc Hdir Hlen Hoff)
      as (o' & entry & Ho' & _ & Hin & Hname & Hsize & Hnz & _).
    destruct (ReadEntry_nullptr state (root_offset state) 0 new_root_entry 0 0)
      as (o & o2 & Ho & Ho2 & _ & Hparent & _).
    cbn [Z.eqb] in Ho2. rewrite Ho' in Ho2. injection Ho2 as <-.
    exists (parent_after o), entry.
    split; [| rewrite Hparent; repeat split; assumption].
    unfold Initialize_mapped. rewrite Hverify. cbn [Error_eqb negb].
    unfold ReadAllEntries. rewrite Ho.
    destruct (Z.eqb_spec (total_entries (parent_after o)) 0) as [Hz | _].
    + apply total_entries_zero in Hz. rewrite <- Hparent, Hz in Hin.
      destruct Hin.
    + reflexivity.
Qed.
End WithPlatform.

(** ** A concrete platform and concrete images *)

(** Modelled from the spec: [xe::load<uint16_t>] and [xe::load<uint32_t>]
    (declared in [xenia/base/memory.h], which is not covered here); "all
    multi-byte integers big-endian".  The read-only flag has no value in
    the specification; 1 is taken. *)
Definition load_be (n : nat) (mem : Memory) (p : Z) : Z :=
  fold_left (fun acc i => acc * 256 + byte_val (mem (p + Z.of_nat i)))
            (seq 0 n) 0.

Lemma load_be_range (mem : Memory) (p : Z) :
  0 <= load_be 2 mem p < 2 ^ 16 /\ 0 <= load_be 4 mem p < 2 ^ 32.
Proof.
  unfold load_be. cbn [seq fold_left].
  pose proof (byte_val_range (mem (p + Z.of_nat 0))).
  pose proof (byte_val_range (mem (p + Z.of_nat 1))).
  pose proof (byte_val_range (mem (p + Z.of_nat 2))).
  pose proof (byte_val_range (mem (p + Z.of_nat 3))).
  lia.
Qed.

#[export] Instance spec_platform : Platform := {|
  load_uint16 := load_be 2;
  load_uint32 := load_be 4;
  kFileAttributeReadOnly := 1;
  load_uint16_range := fun mem p => proj1 (load_be_range mem p);
  load_uint32_range := fun mem p => proj2 (load_be_range mem p)
|}.

(** The byte of value [z mod 256]. *)
Definition byte_of (z : Z) : byte :=
  match Byte.of_N (Z.to_N (z mod 256)) with
  | Some b => b
  | None => x00
  end.

(** [n] bytes, big-endian. *)
Fixpoint be_bytes (n : nat) (z : Z) : list byte :=
  match n with
  | O => []
  | S n' => be_bytes n' (z / 256) ++ [byte_of z]
  end.

(** An on-disk directory record, padded with zeros to a multiple of four
    bytes. *)
Definition record_bytes (l r sector_ length_ attrs : Z) (nm : string)
  : list byte :=
  let raw :=
    be_bytes 2 l ++ be_bytes 2 r ++ be_bytes 4 sector_ ++ be_bytes 4 length_
    ++ [byte_of attrs; byte_of (Z.of_nat (String.length nm))]
    ++ list_byte_of_string nm in
  raw ++ repeat x00 ((4 - List.length raw mod 4) mod 4)%nat.

(** A memory holding the given byte strings at the given offsets, and
    zero elsewhere. *)
Fixpoint memory_of (regions : list (Z * list byte)) : Memory :=
  fun a =>
    match regions with
    | [] => x00
    | (base, bs) :: rest =>
      if (base <=? a) && (a <? base + Z.of_nat (List.length bs))
      then nth (Z.to_nat (a - base)) bs x00
      else memory_of rest a
    end.

(** The same loads in little-endian order, the host's own, for the
    examples that should not hinge on the byte order. *)
Definition load_le (n : nat) (mem : Memory) (p : Z) : Z :=
  fold_right (fun i acc => acc * 256 + byte_val (mem (p + Z.of_nat i)))
             0 (seq 0 n).

Lemma load_le_range (mem : Memory) (p : Z) :
  0 <= load_le 2 mem p < 2 ^ 16 /\ 0 <= load_le 4 mem p < 2 ^ 32.
Proof.
  unfold load_le. cbn [seq fold_right].
  pose proof (byte_val_range (mem (p + Z.of_nat 0))).
  pose proof (byte_val_range (mem (p + Z.of_nat 1))).
  pose proof (byte_val_range (mem (p + Z.of_nat 2))).
  pose proof (byte_val_range (mem (p + Z.of_nat 3))).
  lia.
Qed.

Definition little_endian_platform : Platform := {|
  load_uint16 := load_le 2;
  load_uint32 := load_le 4;
  kFileAttributeReadOnly := 1;
  load_uint16_range := fun mem p => proj1 (load_le_range mem p);
  load_uint32_range := fun mem p => proj2 (load_le_range mem p)
|}.

(** An array of two file records: "A" at ordinal 0 with right child 4,
    and "B" at ordinal 4 (byte 16), whose [node_l] is 4 again. *)
Definition self_loop_array : list byte :=
  record_bytes 0 4 1 10 0 "A" ++ record_bytes 4 0 1 3 0 "B".

Definition self_loop_state : ParseState :=
  mkParseState (memory_of [(0, self_loop_array)]) 8192 0 0 40 0.

(** A directory "loop" whose array is the array it sits in. *)
Definition nested_array : list byte := record_bytes 0 0 1 20 0x10 "loop".

Definition nested_state : ParseState :=
  mkParseState (memory_of [(2048, nested_array)]) 8192 0 1 20 2048.

(** A superblock at candidate 0: the magic, then root sector and root
    size. *)
Definition superblock (root_sector_ root_size_ : Z) : list byte :=
  magic ++ be_bytes 4 root_sector_ ++ be_bytes 4 root_size_.

(** An image with the magic at the second and at the third candidate. *)
Definition two_magics_state : ParseState :=
  mkParseState
    (memory_of [(0x0000FB20 + 32 * 2048, superblock 40 64);
                (0x00020600 + 32 * 2048, superblock 40 64)])
    300000 0 0 0 0.

(** An image whose root size is 12. *)
Definition short_root_state : ParseState :=
  mkParseState (memory_of [(32 * 2048, superblock 33 12)]) 131072 0 0 0 0.

(** An image of 65563 bytes: the magic and the root sector (0) are in
    the file, of the root size only the first three bytes (0, 0, 1) are.
    [beyond] is the byte that follows the end of the file in memory. *)
Definition truncated_image : list byte :=
  magic ++ be_bytes 4 0 ++ [x00; x00; x01].

Definition truncated_with (beyond : byte) : ParseState :=
  mkParseState (memory_of [(32 * 2048, truncated_image ++ [beyond])])
               65563 0 0 0 0.

(** The same with a zero after the end of the file, as in the last page
    of a mapping. *)
Definition truncated_state : ParseState := truncated_with x00.

(** *** Examples of decoding *)

(** The array with the self-referential [node_l] decodes into its two
    files. *)
Example self_loop_decodes :
  option_map (fun res => (fst res, map name_ (children_ (snd res))))
             (ReadAllEntries self_loop_state 0) =
  Some (kSuccess, [list_byte_of_string "A"; list_byte_of_string "B"]).
Proof. vm_compute. reflexivity. Qed.

(** A directory that contains itself is followed down to the depth limit
    and no further: 258 invocations, the deepest at depth 257. *)
Example nested_directory_is_cut :
  option_map (fun o => (List.length (calls o),
                        fold_right Z.max 0 (map call_depth (calls o))))
             (ReadEntry nested_state 2048 0 new_root_entry 0 0 None) =
  Some (258%nat, 257).
Proof. vm_compute. reflexivity. Qed.

(** A root array too short for one record gives no entry, and
    OutOfMemory. *)
Example empty_root_is_out_of_memory :
  option_map fst
    (ReadAllEntries (mkParseState (memory_of []) 4096 0 1 13 2048) 2048) =
  Some kErrorOutOfMemory.
Proof. vm_compute. reflexivity. Qed.

Lemma zero_ordinal_is_no_child_witness :
  exists entry parent' v' calls_r,
    read_child (ReadEntry self_loop_state) 0 4 (add_child new_root_entry entry)
               40 0 ({[0]} ∪ ∅) = Some (parent', v', calls_r) /\
    ReadEntry self_loop_state 0 0 new_root_entry 40 0 (Some (∅ : gset Z)) =
    Some (mkOutcome true parent' v' (mkCall 0 0 0 false :: calls_r)) /\
    name_ entry = list_byte_of_string "A".
Proof.
  destruct (@zero_ordinal_is_no_child spec_platform self_loop_state)
    as (_ & Hleft & _).
  destruct (Hleft 0 0 new_root_entry 40 0 (∅ : gset Z))
    as (entry & calls_d & parent' & v' & calls_r & Hm & Hr & Hrun).
  - vm_compute. reflexivity.
  - vm_compute. reflexivity.
  - vm_compute in Hm. injection Hm as Hentry Hcd. subst calls_d.
    exists entry, parent', v', calls_r.
    split; [exact Hr | split; [exact Hrun | now rewrite <- Hentry]].
Defined.

(** The same record as a file is taken as out of the image: the file
    branch tests [file_offset >= state->size]. *)
Example boundary_file_is_emptied :
  option_map (fun o => map (fun e => (size_ e, data_size_ e))
                           (children_ (parent_after o)))
    (ReadEntry
       (mkParseState (memory_of [(2048, record_bytes 0 0 2 4 0 "f")])
                     4096 0 1 20 2048)
       2048 0 new_root_entry 0 0 None) =
  Some [(0, 0)].
Proof. vm_compute. reflexivity. Qed.

(** *** Examples of [Verify] *)

Lemma Verify_scans_candidates_witness :
  scan_offsets two_magics_state likely_offsets =
    (true, set_game_offset two_magics_state 0x0000FB20,
     [0x00000000 + 32 * 2048; 0x0000FB20 + 32 * 2048]) /\
  Verify two_magics_state =
    read_fs_state (set_game_offset two_magics_state 0x0000FB20).
Proof.
  destruct (@Verify_scans_candidates spec_platform)
    as (_ & _ & _ & _ & _ & Hfirst & _).
  destruct (Hfirst two_magics_state [0] 0x0000FB20
                   [0x00020600; 0x02080000; 0x0FD90000])
    as [Hscan Hverify].
  - reflexivity.
  - intros o [<- | []]. vm_compute. reflexivity.
  - vm_compute. reflexivity.
  - split; [exact (Hscan [0x00020600; 0x02080000; 0x0FD90000]) | exact Hverify].
Defined.

Example no_magic_is_file_mismatch :
  fst (Verify (mkParseState (memory_of []) 300000 0 0 0 0)) = kErrorFileMismatch /\
  Initialize_mapped (memory_of []) 300000 = Some (false, None).
Proof. split; vm_compute; reflexivity. Qed.

Lemma Verify_damaged_file_witness :
  fst (Verify short_root_state) = kErrorDamagedFile.
Proof.
  apply (proj1 (proj2 (@Verify_damaged_file spec_platform short_root_state
                         (set_game_offset short_root_state 0) [32 * 2048]
                         ltac:(vm_compute; reflexivity)))).
  vm_compute. reflexivity.
Defined.

(** C4, as the specification states it, fails for its first condition:
    the magic matches at candidate 0, the file ends one byte before the
    end of the 28-byte superblock, and [Verify] returns Success: with a
    zero after the end of the file in either byte order, and with
    big-endian loads whatever that byte is. *)
Lemma truncated_superblock_verifies :
  size truncated_state = 32 * kXESectorSize + Z.of_nat (List.length truncated_image) /\
  size truncated_state < 0 + 32 * kXESectorSize + 28 /\
  scan_offsets truncated_state likely_offsets =
    (true, set_game_offset truncated_state 0, [32 * 2048]) /\
  fst (@Verify spec_platform truncated_state) = kSuccess /\
  fst (@Verify little_endian_platform truncated_state) = kSuccess /\
  (forall beyond : byte,
     fst (@Verify spec_platform (truncated_with beyond)) = kSuccess).
Proof.
  split; [vm_compute; reflexivity |].
  split; [vm_compute; reflexivity |].
  split; [vm_compute; reflexivity |].
  split; [vm_compute; reflexivity |].
  split; [vm_compute; reflexivity |].
  intros beyond. destruct beyond; vm_compute; reflexivity.
Qed.

(** *** A root directory that verifies and cannot be read *)

(** An image whose superblock gives a root directory of 13 bytes at
    sector 33. *)
Definition root13_image : Memory := memory_of [(32 * 2048, superblock 33 13)].

(** The state [Verify] leaves for it. *)
Definition root13_state : ParseState :=
  snd (Verify (mkParseState root13_image 131072 0 0 0 0)).

Example root13_verifies_but_fails :
  fst (Verify (mkParseState root13_image 131072 0 0 0 0)) = kSuccess /\
  root_size root13_state = 13 /\
  Initialize_mapped root13_image 131072 = Some (false, Some new_root_entry).
Proof. repeat split; vm_compute; reflexivity. Qed.

Lemma short_root_is_rejected_witness :
  ReadEntry root13_state (root_offset root13_state) 0 new_root_entry 0 0 None =
    Some (mkOutcome false new_root_entry {[0]}
            [mkCall (root_offset root13_state) 0 0 true]) /\
  ReadAllEntries root13_state (root_offset root13_state) =
    Some (kErrorOutOfMemory, new_root_entry) /\
  (forall mem mapped_size,
     Verify (mkParseState mem mapped_size 0 0 0 0) = (kSuccess, root13_state) ->
     Initialize_mapped mem mapped_size = Some (false, Some new_root_entry)).
Proof.
  apply (@short_root_is_rejected spec_platform root13_state
           (root_offset root13_state)).
  vm_compute. split; reflexivity.
Defined.

(** *** An example of [Initialize] *)

(** The first attempt to map the image fails, the second maps the
    image above in 3 ms: one sleep of 100 ms, one sample in the detector,
    and the answer of the decoding. *)
Example Initialize_second_attempt :
  Initialize (fun retry => if retry =? 0 then MapFails true
                           else Mapped root13_image 131072 50 3)
             RobustIO.detector_init =
  Some (false, Some new_root_entry,
        RobustIO.RecordIOTiming RobustIO.detector_init 50 3 131072,
        [MapOpen 0; MapSleep 100; MapOpen 1]).
Proof. vm_compute. reflexivity. Qed.

(** The bound of 257 levels is reached: the directory that contains
    itself is decoded 257 levels deep. *)
Example nested_tree_reaches_bound :
  option_map (fun res => height (snd res)) (ReadAllEntries nested_state 2048) =
  Some 257.
Proof. vm_compute. reflexivity. Qed.


(** *** A child named twice in one array *)

(** An array of two file records: "A" at ordinal 0, whose [node_l] and
    [node_r] are both 4, and "B" at ordinal 4 (byte 16). *)
Definition shared_child_array : list byte :=
  record_bytes 4 4 1 10 0 "A" ++ record_bytes 0 0 1 3 0 "B".

Definition shared_child_state : ParseState :=
  mkParseState (memory_of [(0, shared_child_array)]) 8192 0 0 40 0.

(** In the array with the self-referential [node_l], the record "B" is
    decoded although its left child is cut.  In the array where "A"
    names "B" as both children, "B" is decoded once, as the left child,
    and reaches the parent before "A"; as the right child it is cut by
    the set the left child has left, at the cost of one invocation. *)
Lemma ReadEntry_terminates_witness :
  (exists entry parent' v' more,
     ReadEntry self_loop_state 0 4 new_root_entry 40 1 (Some ({[0]} : gset Z)) =
     Some (mkOutcome true parent' v'
             [mkCall 0 4 1 false; mkCall 0 4 2 false]) /\
     name_ entry = list_byte_of_string "B" /\
     children_ parent' = children_ new_root_entry ++ entry :: more) /\
  (exists o,
     ReadEntry shared_child_state 0 0 new_root_entry 40 0 (Some (∅ : gset Z)) =
     Some o /\
     returned o = true /\
     map name_ (children_ (parent_after o)) =
       [list_byte_of_string "B"; list_byte_of_string "A"] /\
     calls o = [mkCall 0 0 0 false; mkCall 0 4 1 false; mkCall 0 4 1 false]).
Proof.
  split.
  - destruct (@ReadEntry_terminates spec_platform self_loop_state)
      as (_ & _ & _ & _ & Hcut & _).
    destruct (Hcut 0 4 new_root_entry 40 1 ({[0]} : gset Z))
      as (entry & calls_d & parent' & v' & calls_r & more & Hm & Hr & Hrun & Hch).
    + vm_compute. reflexivity.
    + vm_compute. discriminate.
    + left.
      assert (node_l (read_record self_loop_state (0 + 4 * 4)) = 4) as ->
        by (vm_compute; reflexivity).
      set_solver.
    + vm_compute in Hm. injection Hm as Hentry Hcd. subst calls_d.
      vm_compute in Hr. injection Hr as _ _ Hcr. subst calls_r.
      exists entry, parent', v', more. split; [exact Hrun |].
      split; [now rewrite <- Hentry | exact Hch].
  - destruct (@ReadEntry_terminates spec_platform shared_child_state)
      as (Htotal & _ & _ & _ & _ & _ & _ & _ & Hseen & Hgrow).
    destruct (Htotal 0 4 new_root_entry 40 1 (Some ({[0]} ∪ ∅)))
      as (ol & Hol & _).
    destruct (Hgrow 0 4 new_root_entry 40 1 ({[0]} ∪ ∅) ol Hol)
      as (_ & _ & Hmark).
    destruct (Hseen 0 0 new_root_entry 40 0 ∅ ol)
      as (entry & calls_d & Hm & Hrun).
    + vm_compute. reflexivity.
    + vm_compute. discriminate.
    + vm_compute. discriminate.
    + exact Hol.
    + assert (node_r (read_record shared_child_state (0 + 0 * 4)) = 4) as ->
        by (vm_compute; reflexivity).
      apply Hmark. unfold kMaxRecursionDepth. lia.
    + vm_compute in Hm. injection Hm as <- <-.
      vm_compute in Hol. injection Hol as <-.
      eexists. split; [exact Hrun |].
      split; [reflexivity |]. split; vm_compute; reflexivity.
Defined.

(** *** A directory at the very end of an image that verifies *)

(** [n] bytes, little-endian. *)
Fixpoint le_bytes (n : nat) (z : Z) : list byte :=
  match n with
  | O => []
  | S n' => byte_of z :: le_bytes n' (z / 256)
  end.

(** [record_bytes] and [superblock] with the integers in little-endian
    order, as the loads of [little_endian_platform] read them. *)
Definition record_bytes_le (l r sector_ length_ attrs : Z) (nm : string)
  : list byte :=
  let raw :=
    le_bytes 2 l ++ le_bytes 2 r ++ le_bytes 4 sector_ ++ le_bytes 4 length_
    ++ [byte_of attrs; byte_of (Z.of_nat (String.length nm))]
    ++ list_byte_of_string nm in
  raw ++ repeat x00 ((4 - List.length raw mod 4) mod 4)%nat.

Definition superblock_le (root_sector_ root_size_ : Z) : list byte :=
  magic ++ le_bytes 4 root_sector_ ++ le_bytes 4 root_size_.

(** An image of 34 sectors, 69632 bytes: the superblock in sector 32,
    and in sector 33 a root array of 20 bytes holding one directory
    record "d" of length [length_] whose sector is 34, so that its array
    would start at byte 69632, the size of the image.  [beyond] is what
    the memory holds from that address on. *)
Definition boundary_image_size : Z := 34 * 2048.

Definition boundary_image_le (length_ : Z) (beyond : list byte) : Memory :=
  memory_of [(32 * 2048, superblock_le 33 20);
             (33 * 2048, record_bytes_le 0 0 34 length_ 0x10 "d");
             (34 * 2048, beyond)].

(** The same image with the integers big-endian. *)
Definition boundary_image_be (length_ : Z) (beyond : list byte) : Memory :=
  memory_of [(32 * 2048, superblock 33 20);
             (33 * 2048, record_bytes 0 0 34 length_ 0x10 "d");
             (34 * 2048, beyond)].

(** The state [Verify] leaves for the little-endian image. *)
Definition boundary_state_le (length_ : Z) (beyond : list byte) : ParseState :=
  snd (@Verify little_endian_platform
         (mkParseState (boundary_image_le length_ beyond) boundary_image_size
                       0 0 0 0)).

(** With little-endian loads, [Verify] accepts the image, the record
    "d" passes the checks of [ReadEntry], its array would start at the
    size of the image, and [Initialize] succeeds with "d" at size 4,
    not 0. *)
Lemma boundary_directory_keeps_size_witness :
  fst (@Verify little_endian_platform
         (mkParseState (boundary_image_le 4 []) boundary_image_size 0 0 0 0)) =
    kSuccess /\
  (let state := boundary_state_le 4 [] in
   (size state, game_offset state, root_sector state, root_size state,
    root_offset state) = (69632, 0, 33, 20, 67584) /\
   game_offset state
   + sector (@read_record little_endian_platform state (root_offset state))
     * kXESectorSize = size state) /\
  exists root entry,
    @Initialize_mapped little_endian_platform (boundary_image_le 4 [])
      boundary_image_size = Some (true, Some root) /\
    In entry (children_ root) /\
    name_ entry = list_byte_of_string "d" /\
    size_ entry = 4 /\ size_ entry <> 0.
Proof.
  assert (fst (@Verify little_endian_platform
                 (mkParseState (boundary_image_le 4 []) boundary_image_size
                               0 0 0 0)) = kSuccess) as Hfst
    by (vm_compute; reflexivity).
  split; [exact Hfst |].
  split; [cbv zeta; split; vm_compute; reflexivity |].
  assert (@Verify little_endian_platform
            (mkParseState (boundary_image_le 4 []) boundary_image_size 0 0 0 0) =
          (kSuccess, boundary_state_le 4 [])) as Hverify.
  { unfold boundary_state_le. rewrite <- Hfst. apply surjective_pairing. }
  destruct (@boundary_directory_keeps_size little_endian_platform)
    as (_ & _ & Hinit).
  destruct (Hinit (boundary_image_le 4 []) boundary_image_size
              (boundary_state_le 4 []) Hverify)
    as (root & entry & Hrun & Hin & Hname & Hsize & Hnz).
  - vm_compute. reflexivity.
  - vm_compute. reflexivity.
  - vm_compute. discriminate.
  - vm_compute. reflexivity.
  - exists root, entry. split; [exact Hrun |]. split; [exact Hin |].
    split; [rewrite Hname; vm_compute; reflexivity |].
    split; [rewrite Hsize; vm_compute; reflexivity | exact Hnz].
Defined.

(** The same with big-endian loads on the big-endian image. *)
Example boundary_directory_big_endian :
  fst (Verify (mkParseState (boundary_image_be 4 []) boundary_image_size
                            0 0 0 0)) = kSuccess /\
  option_map
    (fun res =>
       (fst res,
        option_map (fun root => map (fun e => (name_ e, size_ e))
                                    (children_ root))
                   (snd res)))
    (Initialize_mapped (boundary_image_be 4 []) boundary_image_size) =
  Some (true, Some [(list_byte_of_string "d", 4)]).
Proof. split; vm_compute; reflexivity. Qed.

(** The names of the entries in the first directory of the root. *)
Definition first_directory_names (res : option (bool * option DiscImageEntry))
  : list (list byte) :=
  match res with
  | Some (_, Some root) =>
    match children_ root with
    | d :: _ => map name_ (children_ d)
    | [] => []
    end
  | _ => []
  end.

(** When the record gives the directory enough length for a record (20
    here), the invocation at the end of the image decodes what the
    memory holds past the last byte of the image: two memories that are
    the same image give different trees. *)
Example boundary_directory_reads_past_the_image :
  let ghost := record_bytes_le 0 0 1 7 0 "ghost" in
  (forall a, a < boundary_image_size ->
             boundary_image_le 20 ghost a = boundary_image_le 20 [] a) /\
  first_directory_names
    (@Initialize_mapped little_endian_platform (boundary_image_le 20 [])
       boundary_image_size) = [[]] /\
  first_directory_names
    (@Initialize_mapped little_endian_platform (boundary_image_le 20 ghost)
       boundary_image_size) = [list_byte_of_string "ghost"].
Proof.
  cbv zeta. split; [| split; vm_compute; reflexivity].
  intros a Ha. unfold boundary_image_le, boundary_image_size in *.
  cbn [memory_of].
  destruct (_ && _); [reflexivity |].
  destruct (_ && _); [reflexivity |].
  replace (34 * 2048 <=? a) with false by (symmetry; apply Z.leb_gt; lia).
  reflexivity.
Qed.
End DiscImage.
